(** * overalls: the discovery / dispatch / aggregation pipeline of [overalls.go]

    A shallow embedding of [src/overalls.go] (package [main]):
    - the header pattern [modeRegex] and the merge at the end of [testFiles];
    - [parseFlags]' splitting of the ignore list and the [walker] closure
      that [filepath.Walk] drives over the project tree;
    - the goroutines of [testFiles] and [processDIR] with the unbuffered
      results channel, as a step relation;
    - [parseFlags] and [runMain] with their exits and what they print,
      the command and the profile path of [processDIR], and [scanOutput].

    Go strings and byte slices are lists of characters. *)

From Stdlib Require Import Ascii String List Arith Bool Lia Permutation.
From stdpp Require Import base list gmap strings.
Import ListNotations.

Local Open Scope list_scope.

(** ** Go strings *)

Definition gostring := list ascii.

Definition str (s : string) : gostring := list_ascii_of_string s.

(** The newline character, ["\n"] in the Go source. *)
Definition nl : ascii := "010"%char.

(** ** The [regexp] fragment that [modeRegex] needs

    [modeRegex = regexp.MustCompile("mode: [a-z]+\n")] is a concatenation
    of literal characters and one greedy [+] over a character range.
    [match_here] is Go's leftmost-first (backtracking, greedy) match of
    such a pattern against a prefix of the text; it returns the text left
    after the match. *)

Inductive atom :=
| ALit (c : ascii)
| APlus (lo hi : ascii).

Definition in_class (lo hi c : ascii) : bool :=
  Nat.leb (nat_of_ascii lo) (nat_of_ascii c) && Nat.leb (nat_of_ascii c) (nat_of_ascii hi).

Fixpoint match_here (p : list atom) : gostring -> option gostring :=
  match p with
  | [] => fun s => Some s
  | ALit c :: p' =>
      fun s =>
        match s with
        | c' :: s' => if Ascii.eqb c c' then match_here p' s' else None
        | [] => None
        end
  | APlus lo hi :: p' =>
      fix plus (s : gostring) : option gostring :=
        match s with
        | c :: s' =>
            if in_class lo hi c then
              match plus s' with
              | Some r => Some r
              | None => match_here p' s'
              end
            else None
        | [] => None
        end
  end.

Definition modeRegex : list atom :=
  map ALit (str "mode: ") ++ [APlus "a"%char "z"%char; ALit nl].

(** [re.ReplaceAllString(src, repl)] for a pattern that never matches the
    empty string (every match of [modeRegex] has at least eight
    characters): scan from the left, and at each position either replace
    the match that starts there and go on after it, or copy one character.
    Each round consumes a character, so [length src] rounds are enough. *)

Fixpoint ReplaceAll_go (re : list atom) (repl : gostring) (fuel : nat)
    (src : gostring) : gostring :=
  match fuel with
  | O => src
  | S fuel' =>
      match src with
      | [] => []
      | c :: src' =>
          match match_here re src with
          | Some rest =>
              if Nat.ltb (length rest) (length src)
              then repl ++ ReplaceAll_go re repl fuel' rest
              else c :: ReplaceAll_go re repl fuel' src'
          | None => c :: ReplaceAll_go re repl fuel' src'
          end
      end
  end.

Definition ReplaceAllString (re : list atom) (src repl : gostring) : gostring :=
  ReplaceAll_go re repl (length src) src.

(** ** The merge at the end of [testFiles]

    [covers] are the byte slices received from the results channel, in
    the order of arrival; [buff.Write] appends each one, the headers are
    deleted from the whole buffer and one header for [coverFlag] is put in
    front. The result is what [ioutil.WriteFile] is given. *)

Definition testFiles_final (coverFlag : gostring) (covers : list gostring) : gostring :=
  let final := concat covers in
  let final := ReplaceAllString modeRegex final [] in
  str "mode: " ++ coverFlag ++ [nl] ++ final.

(** ** Coverage artifacts as the data model describes them *)

Record artifact := mkArtifact {
  art_mode : gostring;
  art_data : list gostring
}.

Definition header (mode : gostring) : gostring := str "mode: " ++ mode ++ [nl].

Definition data_bytes (ds : list gostring) : gostring :=
  concat (map (fun l => l ++ [nl]) ds).

Definition render (a : artifact) : gostring :=
  header (art_mode a) ++ data_bytes (art_data a).

Definition is_lower (c : ascii) : bool := in_class "a"%char "z"%char c.

(** Splitting a text into its newline-terminated lines; a last piece
    without newline counts as a line when it is not empty. *)
Fixpoint lines_go (cur : gostring) (s : gostring) : list gostring :=
  match s with
  | [] => match cur with [] => [] | _ => [rev cur] end
  | c :: s' =>
      if Ascii.eqb c nl then rev cur :: lines_go [] s'
      else lines_go (c :: cur) s'
  end.

Definition lines (s : gostring) : list gostring := lines_go [] s.

(** ** [parseFlags]: the ignore set

    [strings.Split(ignoreFlag, ",")], and the loop that enters every piece
    as a key of the map [ignores] (a [map[string]struct{}], used as a
    set). *)

Fixpoint Split_go (sep : ascii) (cur : gostring) (s : gostring) : list gostring :=
  match s with
  | [] => [rev cur]
  | c :: s' =>
      if Ascii.eqb c sep then rev cur :: Split_go sep [] s'
      else Split_go sep (c :: cur) s'
  end.

Definition Split (s : gostring) (sep : ascii) : list gostring := Split_go sep [] s.

Definition parseFlags_ignores (ignoreFlag : gostring) : gset gostring :=
  foldl (fun ignores v => {[ v ]} ∪ ignores) ∅ (Split ignoreFlag ","%char).

Definition defaultIgnores : gostring := str ".git,vendor".

(** The [switch coverFlag] of [parseFlags]: any other value ends the
    program before [testFiles] runs. *)
Definition parseFlags_covermode (coverFlag : gostring) : bool :=
  bool_decide (coverFlag = str "set") || bool_decide (coverFlag = str "count")
  || bool_decide (coverFlag = str "atomic").

(** ** The file system that [filepath.Walk] and [filepath.Glob] see

    A directory lists its entries in the order [readDirNames] returns
    them. [readable = false] is a directory whose listing fails
    ([readDirNames] returns an error); [NoStat] is a name whose [lstat]
    fails. [File] stands for everything [lstat] does not report as a
    directory. *)

#[local] Set Warnings "-register-all".

Inductive entry :=
| File (name : gostring)
| Dir (name : gostring) (readable : bool) (children : list entry)
| NoStat (name : gostring).

Definition entry_name (e : entry) : gostring :=
  match e with
  | File n => n
  | Dir n _ _ => n
  | NoStat n => n
  end.

(** [fs_root]: the entries of the root directory ["/"]; [proj_tree]: the
    entries of the project directory [projectPath], which is also the
    working directory ([runMain] calls [os.Chdir(projectPath)] before
    [testFiles]); [proj_readable]: whether the project directory itself
    can be listed. *)
Record filesystem := mkFS {
  fs_root : list entry;
  proj_readable : bool;
  proj_tree : list entry
}.

Inductive error :=
| SkipDir
| ErrBadPattern
| ErrPermission
| ErrNotExist.

Global Instance error_eq_dec : EqDecision error.
Proof. solve_decision. Defined.

Record FileInfo := mkFileInfo { IsDir : bool }.

(** [SEPARATOR = string(os.PathSeparator)], on a Unix system. *)
Definition SEPARATOR : gostring := str "/".

Definition sep : ascii := "/"%char.

(** [runMain]: [projectPath = srcPath + projectFlag + SEPARATOR]. *)
Definition runMain_projectPath (srcPath projectFlag : gostring) : gostring :=
  srcPath ++ projectFlag ++ SEPARATOR.

(** Names as a directory listing has them: not empty, without separator,
    and neither ["."] nor [".."]. *)
Definition valid_name (n : gostring) : bool :=
  negb (bool_decide (n = [])) && negb (existsb (Ascii.eqb sep) n)
  && negb (bool_decide (n = str ".")) && negb (bool_decide (n = str "..")).

Fixpoint valid_tree (e : entry) : bool :=
  valid_name (entry_name e) &&
  match e with
  | Dir _ _ children => forallb valid_tree children
  | _ => true
  end.

(** ** [strings.Replace(s, old, new, 1)]: the first occurrence only *)

Fixpoint strip_prefix (p s : gostring) : option gostring :=
  match p, s with
  | [], _ => Some s
  | c :: p', c' :: s' => if Ascii.eqb c c' then strip_prefix p' s' else None
  | _ :: _, [] => None
  end.

Fixpoint Replace_first (s old new : gostring) : gostring :=
  match strip_prefix old s with
  | Some rest => new ++ rest
  | None =>
      match s with
      | c :: s' => c :: Replace_first s' old new
      | [] => []
      end
  end.

(** ** [filepath.Clean] and [filepath.Join]

    [Clean] goes through the elements of the path between separators:
    empty elements and ["."] are dropped, [".."] takes away the element
    before it (at the root it is dropped, at the start of a relative
    path it stays), and what is kept is joined by single separators; a
    rooted path keeps its leading separator and the empty result is
    ["."]. [Clean_step] holds the elements kept so far, the last one
    first. *)

Definition is_abs (p : gostring) : bool :=
  match p with
  | c :: _ => Ascii.eqb c sep
  | [] => false
  end.

Definition Clean_step (rooted : bool) (kept : list gostring) (elem : gostring)
    : list gostring :=
  if decide (elem = []) then kept
  else if decide (elem = str ".") then kept
  else if decide (elem = str "..") then
    match kept with
    | top :: kept' => if decide (top = str "..") then elem :: kept else kept'
    | [] => if rooted then kept else [elem]
    end
  else elem :: kept.

Definition Clean_elems (path : gostring) : list gostring :=
  foldl (Clean_step (is_abs path)) [] (Split path sep).

Fixpoint join_sep (elems : list gostring) : gostring :=
  match elems with
  | [] => []
  | [e] => e
  | e :: elems' => e ++ sep :: join_sep elems'
  end.

Definition Clean (path : gostring) : gostring :=
  let kept := rev (Clean_elems path) in
  if is_abs path then sep :: join_sep kept
  else
    match kept with
    | [] => str "."
    | _ => join_sep kept
    end.

(** [filepath.Join(path, name)]: empty arguments are left out, the rest
    is joined by the separator and cleaned. *)
Definition Join (path name : gostring) : gostring :=
  match path, name with
  | [], [] => []
  | [], _ => Clean name
  | _, _ => Clean (path ++ SEPARATOR ++ name)
  end.

(** A path that [Clean] leaves as it is and that has an element: what
    [runMain] joins to [projectPath] from a cleaned [GOPATH] other than
    ["/"] and the cleaned project flag. *)
Definition clean_base (base : gostring) : bool :=
  bool_decide (Clean base = base) && negb (bool_decide (Clean_elems base = [])).

(** ** [filepath.Match] and [filepath.Glob]

    [Match] for patterns made of literal characters and [*] (which stands
    for any run of characters other than the separator); the pattern of
    the source, ["*_test.go"], is one. *)

Fixpoint Match (pattern : gostring) : gostring -> bool :=
  match pattern with
  | [] => fun name => match name with [] => true | _ => false end
  | p :: pattern' =>
      if Ascii.eqb p "*"%char then
        fix star (name : gostring) : bool :=
          Match pattern' name ||
          match name with
          | c :: name' => negb (Ascii.eqb c sep) && star name'
          | [] => false
          end
      else
        fun name =>
          match name with
          | c :: name' => Ascii.eqb p c && Match pattern' name'
          | [] => false
          end
  end.

Definition hasMeta (path : gostring) : bool :=
  existsb (fun c => existsb (Ascii.eqb c) (str "*?[\")) path.

(** [filepath.Split]: the part up to and including the last separator,
    and the part after it. *)
Fixpoint SplitPath (path : gostring) : gostring * gostring :=
  match path with
  | [] => ([], [])
  | c :: path' =>
      let (dir, file) := SplitPath path' in
      match dir with
      | _ :: _ => (c :: dir, file)
      | [] => if Ascii.eqb c sep then ([c], file) else ([], c :: file)
      end
  end.

Definition cleanGlobPath (path : gostring) : gostring :=
  match path with
  | [] => str "."
  | _ => if decide (path = SEPARATOR) then path else removelast path
  end.

Fixpoint find_dir (name : gostring) (es : list entry) : option (bool * list entry) :=
  match es with
  | [] => None
  | Dir n r ch :: es' => if decide (n = name) then Some (r, ch) else find_dir name es'
  | _ :: es' => find_dir name es'
  end.

(** The entries of the directory reached from [es] along [segs], when
    every step is a directory and the last one can be listed. *)
Fixpoint resolve (es : list entry) (readable : bool) (segs : list gostring)
    : option (list entry) :=
  match segs with
  | [] => if readable then Some es else None
  | s :: segs' =>
      match find_dir s es with
      | Some (r, ch) => resolve ch r segs'
      | None => None
      end
  end.

Definition path_segments (p : gostring) : list gostring :=
  filter (fun s => s <> [] /\ s <> str ".") (Split p sep).

(** [os.Open(dir)] and [Readdirnames]: an absolute path starts at the
    root directory, a relative one at the working directory. *)
Definition readdirnames (fs : filesystem) (dir : gostring) : option (list gostring) :=
  let found :=
    if is_abs dir then resolve (fs_root fs) true (path_segments dir)
    else resolve (proj_tree fs) (proj_readable fs) (path_segments dir) in
  option_map (map entry_name) found.

(** [glob(dir, pattern, nil)]: input/output errors are ignored and give
    no match. *)
Definition glob (fs : filesystem) (dir pattern : gostring) : list gostring :=
  match readdirnames fs dir with
  | Some names => map (Join dir) (filter (fun n => Match pattern n = true) names)
  | None => []
  end.

(** [filepath.Glob(pattern)] for a [pattern] whose last element has a
    [*]. When the directory part itself has pattern characters, Glob
    expands it first (and reports [ErrBadPattern] for a malformed one):
    that part is left to [glob_meta]. *)
Definition Glob (fs : filesystem)
    (glob_meta : gostring -> list gostring * option error)
    (pattern : gostring) : list gostring * option error :=
  let (dir, file) := SplitPath pattern in
  let dir := cleanGlobPath dir in
  if hasMeta dir then glob_meta pattern
  else (glob fs dir file, None).

(** ** The effects of the walk

    The walk runs on the main goroutine. What it does to the rest of the
    program is recorded as a trace: every call of [walker], and every
    [wg.Add(1); go processDIR(logger, wg, path, rel, out)]. A call can
    also end the process ([os.Exit(1)], here [OsExit1]) or panic
    ([info.IsDir()] on a nil [info]). *)

Inductive event :=
| EvWalker (path : gostring)
| EvDispatch (fullPath relPath : gostring).

Inductive abort :=
| OsExit1
| NilDereference.

Inductive outcome (A : Type) :=
| Ret (a : A)
| Abort (ab : abort).
Arguments Ret {A} a.
Arguments Abort {A} ab.

Definition W (A : Type) : Type := outcome A * list event.

Definition ret {A} (a : A) : W A := (Ret a, []).

Definition bind {A B} (m : W A) (f : A -> W B) : W B :=
  match m with
  | (Ret a, t1) => let (r, t2) := f a in (r, t1 ++ t2)
  | (Abort ab, t1) => (Abort ab, t1)
  end.

Definition emit (ev : event) : W unit := (Ret tt, [ev]).

Definition raise {A} (ab : abort) : W A := (Abort ab, []).

Notation "x <- m ;; k" := (bind m (fun x => k))
  (at level 100, m at next level, k at level 200, right associativity).

Section Walk.

Variable projectPath : gostring.
Variable ignores : gset gostring.
Variable fs : filesystem.
Variable glob_meta : gostring -> list gostring * option error.

(** The closure [walker] of [testFiles]. The [err] argument is not
    looked at, as in the source. *)
Definition walker (path : gostring) (info : option FileInfo) (err : option error)
    : W (option error) :=
  _ <- emit (EvWalker path) ;;
  match info with
  | None => raise NilDereference
  | Some info =>
      if negb (IsDir info) then ret None
      else
        let rel := Replace_first path projectPath [] in
        if decide (rel ∈ ignores) then ret (Some SkipDir)
        else
          let (files, err) := Glob fs glob_meta (rel ++ SEPARATOR ++ str "*_test.go") in
          if (length files =? 0) || negb (bool_decide (err = None)) then
            if negb (bool_decide (err = None)) then raise OsExit1
            else ret None
          else
            _ <- emit (EvDispatch path rel) ;;
            ret None
  end.

(** The loop of [walk] over the names of a directory: [lstat] each
    name; a name that cannot be examined goes to the callback with a
    nil [info]; [SkipDir] from a directory only skips that directory,
    any other non-nil result ends the walk. *)
Definition walk_children (walk : gostring -> entry -> W (option error))
    (path : gostring) : list entry -> W (option error) :=
  fix loop (es : list entry) : W (option error) :=
    match es with
    | [] => ret None
    | e' :: es' =>
        let filename := Join path (entry_name e') in
        match e' with
        | NoStat _ =>
            err <- walker filename None (Some ErrNotExist) ;;
            if negb (bool_decide (err = None)) && negb (bool_decide (err = Some SkipDir))
            then ret err
            else loop es'
        | File _ =>
            err <- walk filename e' ;;
            if negb (bool_decide (err = None)) then ret err else loop es'
        | Dir _ _ _ =>
            err <- walk filename e' ;;
            if negb (bool_decide (err = None)) && negb (bool_decide (err = Some SkipDir))
            then ret err
            else loop es'
        end
    end.

(** [walk] of package [path/filepath]: the callback is called with the
    result of listing the directory; an error of the listing or a
    non-nil result of the callback ends the visit of this directory
    with the callback's result. (Before Go 1.12 the callback was called
    before the listing and once more on a listing error; with this
    [walker] the trace of dispatches and the result are the same.) *)
Fixpoint walk (path : gostring) (e : entry) {struct e} : W (option error) :=
  match e with
  | File _ => walker path (Some (mkFileInfo false)) None
  | NoStat _ => walker path None (Some ErrNotExist)
  | Dir _ readable children =>
      let err := if readable then None else Some ErrPermission in
      err1 <- walker path (Some (mkFileInfo true)) err ;;
      if negb (bool_decide (err = None)) || negb (bool_decide (err1 = None))
      then ret err1
      else walk_children walk path children
  end.

(** [filepath.Walk(projectPath, walker)]: the root is the project
    directory, which exists ([os.Chdir] succeeded); [SkipDir] from the
    root is not an error. *)
Definition Walk : W (option error) :=
  err <- walk projectPath (Dir [] (proj_readable fs) (proj_tree fs)) ;;
  if bool_decide (err = Some SkipDir) then ret None else ret err.

End Walk.

(** The directories for which a worker was started, in the order of the
    walk: the arguments [fullPath] and [relPath] of [processDIR]. *)
Fixpoint dispatched (t : list event) : list (gostring * gostring) :=
  match t with
  | [] => []
  | EvDispatch p r :: t' => (p, r) :: dispatched t'
  | EvWalker _ :: t' => dispatched t'
  end.

Fixpoint visited (t : list event) : list gostring :=
  match t with
  | [] => []
  | EvWalker p :: t' => p :: visited t'
  | EvDispatch _ _ :: t' => visited t'
  end.

(** ** The goroutines of [testFiles]

    The main goroutine walks the tree and starts one goroutine per
    dispatched directory ([processDIR]); after the walk it starts the
    goroutine that waits for the wait group and closes the channel, and
    receives from the channel until it is closed. The channel is made by
    [make(chan []byte)]: it has no buffer, so a send completes only
    together with a receive. *)

(** What [processDIR] gets from the external command and the file
    system: an error from [StdoutPipe] or [StderrPipe], an error from
    [cmd.Run()] (a nonzero exit status among them), an error from
    [ioutil.ReadFile], or the bytes of the profile. *)
Inductive exec_result :=
| PipeError
| RunError
| ReadError
| Profile (b : gostring).

(** Where a [processDIR] goroutine is: before [cmd.Run()], at
    [out <- b], after the send and before the deferred [wg.Done()], or
    finished. *)
Inductive worker_pc :=
| AtRun
| AtSend (b : gostring)
| AtDone
| Finished.

Record worker := mkWorker {
  w_fullPath : gostring;
  w_relPath : gostring;
  w_pc : worker_pc
}.

(** Where the main goroutine is: in [filepath.Walk], with the dispatches
    it has still to make and the way the walk will end; in the loop
    [for cover := range out], with the slices written to [buff] so far;
    or returned from [testFiles]. *)
Inductive main_pc :=
| MWalk (todo : list (gostring * gostring)) (fin : outcome (option error))
| MRange (covers : list gostring)
| MReturned.

Inductive proc_status :=
| Running
| Exited (code : nat).

Record state := mkState {
  st_main : main_pc;
  st_workers : list worker;
  st_wg : nat;
  st_closed : bool;
  st_file : option gostring;
  st_proc : proc_status
}.

Inductive label :=
| LMain
| LWorker (i : nat)
| LDeliver (i : nat)
| LCloser.

Definition is_profile (r : exec_result) : bool :=
  match r with
  | Profile _ => true
  | _ => false
  end.

Section Run.

Variable coverFlag : gostring.
(** The external test command and the read of its profile, per
    directory. *)
Variable go_test : gostring -> gostring -> exec_result.
(** Whether [ioutil.WriteFile(outFilename, ...)] succeeds. *)
Variable write_ok : bool.

Definition set_worker (s : state) (i : nat) (w : worker) : state :=
  mkState (st_main s) (<[i := w]> (st_workers s)) (st_wg s) (st_closed s)
          (st_file s) (st_proc s).

Definition exit (s : state) (code : nat) : state :=
  mkState (st_main s) (st_workers s) (st_wg s) (st_closed s) (st_file s)
          (Exited code).

Inductive step : label -> state -> state -> Prop :=
(* walker: wg.Add(1); go processDIR(logger, wg, path, rel, out) *)
| step_dispatch s p r todo fin :
    st_proc s = Running ->
    st_main s = MWalk ((p, r) :: todo) fin ->
    step LMain s
      (mkState (MWalk todo fin) (st_workers s ++ [mkWorker p r AtRun])
               (S (st_wg s)) (st_closed s) (st_file s) Running)
(* Walk returned nil: go func() { wg.Wait(); close(out) }() and on to the loop *)
| step_walk_nil s :
    st_proc s = Running ->
    st_main s = MWalk [] (Ret None) ->
    step LMain s
      (mkState (MRange []) (st_workers s) (st_wg s) (st_closed s) (st_file s) Running)
(* Walk returned an error: logger.Fatalf *)
| step_walk_err s e :
    st_proc s = Running ->
    st_main s = MWalk [] (Ret (Some e)) ->
    step LMain s (exit s 1)
(* os.Exit(1) inside walker *)
| step_walk_exit s :
    st_proc s = Running ->
    st_main s = MWalk [] (Abort OsExit1) ->
    step LMain s (exit s 1)
(* a panic inside walker *)
| step_walk_panic s :
    st_proc s = Running ->
    st_main s = MWalk [] (Abort NilDereference) ->
    step LMain s (exit s 2)
(* processDIR: the pipes, cmd.Run() and ioutil.ReadFile succeed *)
| step_run_ok s i p r b :
    st_proc s = Running ->
    st_workers s !! i = Some (mkWorker p r AtRun) ->
    go_test p r = Profile b ->
    step (LWorker i) s (set_worker s i (mkWorker p r (AtSend b)))
(* processDIR: one of them fails, logger.Fatal *)
| step_run_fatal s i p r :
    st_proc s = Running ->
    st_workers s !! i = Some (mkWorker p r AtRun) ->
    is_profile (go_test p r) = false ->
    step (LWorker i) s (exit s 1)
(* out <- b in processDIR together with cover := <-out; buff.Write(cover) *)
| step_deliver s i p r b covers :
    st_proc s = Running ->
    st_workers s !! i = Some (mkWorker p r (AtSend b)) ->
    st_main s = MRange covers ->
    step (LDeliver i) s
      (mkState (MRange (covers ++ [b])) (<[i := mkWorker p r AtDone]> (st_workers s))
               (st_wg s) (st_closed s) (st_file s) Running)
(* the deferred wg.Done() *)
| step_done s i p r :
    st_proc s = Running ->
    st_workers s !! i = Some (mkWorker p r AtDone) ->
    step (LWorker i) s
      (mkState (st_main s) (<[i := mkWorker p r Finished]> (st_workers s))
               (pred (st_wg s)) (st_closed s) (st_file s) Running)
(* wg.Wait() returns; close(out) *)
| step_close s covers :
    st_proc s = Running ->
    st_main s = MRange covers ->
    st_wg s = 0 ->
    st_closed s = false ->
    step LCloser s
      (mkState (st_main s) (st_workers s) (st_wg s) true (st_file s) Running)
(* the loop ends on the closed channel; the file is written and main returns *)
| step_write s covers :
    st_proc s = Running ->
    st_main s = MRange covers ->
    st_closed s = true ->
    write_ok = true ->
    step LMain s
      (mkState MReturned (st_workers s) (st_wg s) true
               (Some (testFiles_final coverFlag covers)) (Exited 0))
(* ioutil.WriteFile fails: logger.Fatal *)
| step_write_fatal s covers :
    st_proc s = Running ->
    st_main s = MRange covers ->
    st_closed s = true ->
    write_ok = false ->
    step LMain s (exit s 1).

Definition step_any (s s' : state) : Prop := exists l, step l s s'.

Definition init (todo : list (gostring * gostring)) (fin : outcome (option error))
    : state :=
  mkState (MWalk todo fin) [] 0 false None Running.

Definition reachable (todo : list (gostring * gostring))
    (fin : outcome (option error)) (s : state) : Prop :=
  rtc step_any (init todo fin) s.

End Run.

(** [testFiles] from its start: the walk decides what is dispatched. *)
Definition testFiles_init (projectPath : gostring) (ignores : gset gostring)
    (fs : filesystem) (glob_meta : gostring -> list gostring * option error) : state :=
  let w := Walk projectPath ignores fs glob_meta in
  init (dispatched (snd w)) (fst w).

Definition testFiles_reachable (coverFlag : gostring)
    (go_test : gostring -> gostring -> exec_result) (write_ok : bool)
    (projectPath : gostring) (ignores : gset gostring)
    (fs : filesystem) (glob_meta : gostring -> list gostring * option error)
    (s : state) : Prop :=
  rtc (step_any coverFlag go_test write_ok)
      (testFiles_init projectPath ignores fs glob_meta) s.

(** ** Predicates of the statements

    A mode token as the pattern sees it: one or more lowercase letters. *)
Definition is_token (m : gostring) : Prop :=
  m <> [] /\ Forall (fun c => is_lower c = true) m.

(** The header-stripping step of [testFiles]. *)
Definition strip (s : gostring) : gostring := ReplaceAllString modeRegex s [].

(** ** Well-formed artifacts, decidably *)

Definition is_some {A} (o : option A) : bool :=
  match o with
  | Some _ => true
  | None => false
  end.

(** Does a match of [modeRegex] end at the end of the line [l]? *)
Fixpoint mode_inside (l : gostring) : bool :=
  match l with
  | [] => false
  | _ :: l' => is_some (match_here modeRegex (l ++ [nl])) || mode_inside l'
  end.

Definition data_line_ok (l : gostring) : bool :=
  negb (existsb (Ascii.eqb nl) l) && negb (mode_inside l).

Definition mode_ok (m : gostring) : bool :=
  match m with
  | [] => false
  | _ => forallb is_lower m
  end.

Definition wf_artifact (a : artifact) : bool :=
  mode_ok (art_mode a) && forallb data_line_ok (art_data a).

(** ** The stripping step against its description *)

(** Follows the words of the specification: the text with every
    substring of the form ["mode: "], one or more lowercase letters,
    newline taken out, wherever it stands. *)
Inductive stripped : gostring -> gostring -> Prop :=
| stripped_nil : stripped [] []
| stripped_match m rest out :
    is_token m -> stripped rest out ->
    stripped (str "mode: " ++ m ++ nl :: rest) out
| stripped_keep c s out :
    (forall m rest, is_token m -> c :: s <> str "mode: " ++ m ++ nl :: rest) ->
    stripped s out ->
    stripped (c :: s) (c :: out).

(** The path of a directory entry relative to the project: the names
    from the project directory down, joined by the separator. *)
Definition child_rel (rel name : gostring) : gostring :=
  match rel with
  | [] => name
  | _ => rel ++ SEPARATOR ++ name
  end.

(** The path of the walk at the relative path [rel] is as [Clean] leaves
    it (the project directory itself is walked under [projectPath], with
    its separator at the end). *)
Definition tidy (q : gostring) : Prop :=
  Clean q = q /\ Clean_elems q <> [].

Definition rel_tidy (projectPath rel : gostring) : Prop :=
  rel = [] \/ (rel <> [] /\ tidy (projectPath ++ rel)).

(** [a] is the relative path of a directory above the one at [rel]: the
    project directory itself, or a prefix of [rel] that ends where a
    separator stands. *)
Definition ancestor (a rel : gostring) : Prop :=
  rel <> [] /\ (a = [] \/ exists rest, rel = a ++ SEPARATOR ++ rest).

Definition unignored_above (ignores : gset gostring) (rel : gostring) : Prop :=
  forall a, ancestor a rel -> a ∉ ignores.

(** What the walk may do: call [walker] on a path with no ignored
    directory above it, and dispatch a directory that in addition is not
    ignored itself. *)
Definition event_ok (projectPath : gostring) (ignores : gset gostring)
    (ev : event) : Prop :=
  match ev with
  | EvWalker p => exists rel, p = projectPath ++ rel /\ unignored_above ignores rel
  | EvDispatch p r =>
      p = projectPath ++ r /\ (r ∉ ignores) /\ unignored_above ignores r
  end.

(** A result that is not an error other than [SkipDir]. *)
Definition no_error (o : outcome (option error)) : Prop :=
  match o with
  | Ret (Some e) => e = SkipDir
  | _ => True
  end.

Definition valid_children (e : entry) : bool :=
  match e with
  | Dir _ _ children => forallb valid_tree children
  | _ => true
  end.

(** ** What the invariant of a run speaks of *)

Definition is_finished (pc : worker_pc) : bool :=
  match pc with
  | Finished => true
  | _ => false
  end.

(** The value of the wait group's counter that the workers account for. *)
Fixpoint unfinished (ws : list worker) : nat :=
  match ws with
  | [] => 0
  | w :: ws' => (if is_finished (w_pc w) then 0 else 1) + unfinished ws'
  end.

Definition w_dir (w : worker) : gostring * gostring := (w_fullPath w, w_relPath w).

Definition before_send (w : worker) : Prop :=
  w_pc w = AtRun \/ exists b, w_pc w = AtSend b.

(** What a worker has handed over: its profile, once its send is done. *)
Definition sent (go_test : gostring -> gostring -> exec_result) (w : worker)
    : list gostring :=
  match w_pc w with
  | AtDone | Finished =>
      match go_test (w_fullPath w) (w_relPath w) with
      | Profile b => [b]
      | _ => []
      end
  | _ => []
  end.

Definition delivered (go_test : gostring -> gostring -> exec_result)
    (ws : list worker) : list gostring :=
  concat (map (sent go_test) ws).

Definition worker_ok (go_test : gostring -> gostring -> exec_result) (w : worker) : Prop :=
  match w_pc w with
  | AtRun => True
  | AtSend b => go_test (w_fullPath w) (w_relPath w) = Profile b
  | AtDone | Finished => is_profile (go_test (w_fullPath w) (w_relPath w)) = true
  end.

(** What holds in every state of a run that started with the dispatches
    [todo0] and the walk result [fin0]. *)
Definition inv (coverFlag : gostring) (go_test : gostring -> gostring -> exec_result)
    (todo0 : list (gostring * gostring)) (fin0 : outcome (option error))
    (s : state) : Prop :=
  st_wg s = unfinished (st_workers s) /\
  Forall (worker_ok go_test) (st_workers s) /\
  (st_closed s = true -> st_wg s = 0) /\
  match st_main s with
  | MWalk todo fin =>
      map w_dir (st_workers s) ++ todo = todo0 /\ fin = fin0 /\
      st_closed s = false /\ st_file s = None /\ st_proc s <> Exited 0 /\
      Forall before_send (st_workers s)
  | MRange covers =>
      map w_dir (st_workers s) = todo0 /\ fin0 = Ret None /\
      Permutation covers (delivered go_test (st_workers s)) /\
      st_file s = None /\ st_proc s <> Exited 0
  | MReturned =>
      map w_dir (st_workers s) = todo0 /\ fin0 = Ret None /\
      st_proc s = Exited 0 /\ st_wg s = 0 /\
      exists covers,
        Permutation covers (delivered go_test (st_workers s)) /\
        st_file s = Some (testFiles_final coverFlag covers)
  end.

(** The profiles of the dispatched directories, in the order of the
    dispatch. *)
Definition profiles (go_test : gostring -> gostring -> exec_result)
    (todo : list (gostring * gostring)) : list gostring :=
  concat (map (fun d => match go_test (fst d) (snd d) with
                        | Profile b => [b]
                        | _ => []
                        end) todo).


(** ** Example inputs *)

(** A file system without pattern characters in its names needs no
    expansion of directory patterns. *)
Definition no_meta : gostring -> list gostring * option error :=
  fun _ => ([], None).

Definition ex_srcPath : gostring := str "/go/src/".
Definition ex_project : gostring := str "proj".
Definition ex_projectPath : gostring := runMain_projectPath ex_srcPath ex_project.

(** The scenario of the specification: [A] and [B/C] have test files;
    [vendor], ignored by default, has test files too, in itself and
    below. *)
Definition fs_scenario : filesystem :=
  mkFS [Dir (str "go") true []; Dir (str "tmp") true []] true
    [Dir (str "A") true [File (str "foo.go"); File (str "foo_test.go")];
     Dir (str "B") true [Dir (str "C") true [File (str "bar_test.go")]];
     Dir (str "vendor") true
       [File (str "baz_test.go"); Dir (str "dep") true [File (str "qux_test.go")]]].

(** Test files in the project directory itself, none in ["/"]. *)
Definition fs_root_tests : filesystem :=
  mkFS [Dir (str "go") true []; Dir (str "tmp") true []] true
    [File (str "main.go"); File (str "main_test.go");
     Dir (str "A") true [File (str "foo_test.go")]].

(** No test file in the project directory, one in ["/"]. *)
Definition fs_slash_tests : filesystem :=
  mkFS [Dir (str "go") true []; File (str "x_test.go")] true
    [File (str "main.go")].

(** A directory that cannot be listed, next to one with a test file. *)
Definition fs_unreadable : filesystem :=
  mkFS [Dir (str "go") true []] true
    [Dir (str "a") false [File (str "a_test.go")];
     Dir (str "b") true [File (str "b_test.go")]].

(** No test file anywhere. *)
Definition fs_no_tests : filesystem :=
  mkFS [Dir (str "go") true []] true
    [File (str "main.go"); Dir (str "docs") true [File (str "README.md")]].

Definition profile_b : gostring :=
  render (mkArtifact (str "set") [str "proj/b/b.go:3.2,5.4 1 1"]).

Definition go_test_ok : gostring -> gostring -> exec_result :=
  fun _ _ => Profile profile_b.

Definition go_test_fails : gostring -> gostring -> exec_result :=
  fun _ _ => RunError.

(** States of example runs. One directory dispatched, its worker not yet
    run: *)
Definition st_one_dispatched : state :=
  mkState (MWalk [] (Ret None))
    [mkWorker (str "/go/src/proj/A") (str "A") AtRun] 1 false None Running.

Definition todo_two : list (gostring * gostring) :=
  [(str "/go/src/proj/A", str "A"); (str "/go/src/proj/B", str "B")].

(** The first of two workers has its profile and stands at its send; the
    main goroutine is still in the walk. *)
Definition st_sender_waits : state :=
  mkState (MWalk [(str "/go/src/proj/B", str "B")] (Ret None))
    [mkWorker (str "/go/src/proj/A") (str "A") (AtSend profile_b)]
    1 false None Running.

(** The main goroutine has received that profile; neither worker has
    called [wg.Done()]. *)
Definition st_received_early : state :=
  mkState (MRange [profile_b])
    [mkWorker (str "/go/src/proj/A") (str "A") AtDone;
     mkWorker (str "/go/src/proj/B") (str "B") AtRun]
    2 false None Running.

(** * The rest of [overalls.go]

    ** Constants and flags *)

Definition outFilename : gostring := str "overalls.coverprofile".
Definition pkgFilename : gostring := str "profile.coverprofile".

Definition helpString : gostring := str "
usage: overalls -project=[path] -covermode[mode] OPTIONS

overalls recursively traverses your projects directory structure
running 'go test -covermode=count -coverprofile=profile.coverprofile'
in each directory with go test files, concatenates them into one
coverprofile in your root directory named 'overalls.coverprofile'

OPTIONS
  -project
	Your project path relative to the '$GOPATH/src' directory
	example: -project=github.com/bluesuncorp/overalls

  -covermode
    Mode to run when testing files.
    default:count

OPTIONAL

  -ignore
    A comma separated list of directory names to ignore, relative to project path.
    example: -ignore=[.git,.hiddentdir...]
    default: '.git,vendor'

  -debug
    A flag indicating whether to print debug messages.
    example: -debug
    default:false
".

(** The package variables that [init] binds to the command line, as
    [flag.Parse()] leaves them; [Args] is [flag.Args()], the arguments
    after the flags. *)
Module Flags.
Record t := mk {
  projectFlag : gostring;
  coverFlag : gostring;
  ignoreFlag : gostring;
  debugFlag : bool;
  helpFlag : bool;
  Args : list gostring
}.
(** The defaults of [init]. *)
Definition defaults : t := mk [] (str "count") defaultIgnores false false [].
End Flags.

(** A call that may end the process with [os.Exit]. *)
Inductive exit_or (A : Type) :=
| Continue (a : A)
| OsExit (code : nat).
Arguments Continue {A} a.
Arguments OsExit {A} code.

(** [var gopath = filepath.Clean(os.Getenv("GOPATH"))] and
    [srcPath = gopath + SEPARATOR + "src" + SEPARATOR]. *)
Definition gopath_of (GOPATH : gostring) : gostring := Clean GOPATH.

Definition srcPath_of (gopath : gostring) : gostring :=
  gopath ++ SEPARATOR ++ str "src" ++ SEPARATOR.

(** [parseFlags], after [flag.Parse()]: what [fmt] prints, and either
    the exit status or the new values of [projectFlag] and [ignores]. *)
Definition parseFlags (gopath : gostring) (f : Flags.t)
    : gostring * exit_or (gostring * gset gostring) :=
  if Flags.helpFlag f then (helpString, OsExit 0)
  else
    let out := if Flags.debugFlag f then str "GOPATH: " ++ gopath ++ [nl] else [] in
    if (length gopath =? 0) || bool_decide (gopath = str ".") then
      (out ++ [nl] ++ str "**invalid GOPATH '" ++ gopath ++ str "'" ++ [nl], OsExit 1)
    else
      let out := out ++ str "| " ++ Flags.projectFlag f ++ [nl] in
      let projectFlag := Clean (Flags.projectFlag f) in
      let out :=
        out ++ if Flags.debugFlag f then str "Project Path: " ++ projectFlag ++ [nl]
               else [] in
      if (length projectFlag =? 0) || bool_decide (projectFlag = str ".") then
        (out ++ [nl] ++ str "**invalid project path '" ++ projectFlag ++ str "'" ++ [nl]
             ++ helpString, OsExit 1)
      else if parseFlags_covermode (Flags.coverFlag f) then
        (out, Continue (projectFlag, parseFlags_ignores (Flags.ignoreFlag f)))
      else
        (out ++ [nl] ++ str "**invalid covermode '" ++ Flags.coverFlag f ++ str "'" ++ [nl],
         OsExit 1).

(** [runMain]: [Chdir] tells whether [os.Chdir] succeeds on a path,
    [Getwd] is the error of [os.Getwd], if it has one. The lines of
    [logger] carry a time stamp and are left out of the printed text.
    When [runMain] goes on, [testFiles] starts. [fs] is the file system
    as [testFiles] then sees it under an absolute [GOPATH]: the
    directory that [projectPath] names is the working directory and the
    root of the walk. *)
Definition runMain (GOPATH : gostring) (f : Flags.t) (Chdir : gostring -> bool)
    (Getwd : option gostring)
    (fs : filesystem) (glob_meta : gostring -> list gostring * option error)
    : gostring * exit_or state :=
  let gopath := gopath_of GOPATH in
  match parseFlags gopath f with
  | (out, OsExit code) => (out, OsExit code)
  | (out, Continue (projectFlag, ignores)) =>
      let projectPath := runMain_projectPath (srcPath_of gopath) projectFlag in
      if Chdir projectPath then
        let out :=
          out ++ match Flags.debugFlag f, Getwd with
                 | true, Some err => err ++ [nl]
                 | _, _ => []
                 end in
        (out, Continue (testFiles_init projectPath ignores fs glob_meta))
      else (out ++ helpString, OsExit 1)
  end.

(** The elements that [Clean] keeps, in the order of the path: a run of
    [".."] (on a path that is not rooted), then names. *)
Definition normal_elems (rooted : bool) (l : list gostring) : Prop :=
  exists k names,
    l = repeat (str "..") k ++ names /\
    Forall (fun n => valid_name n = true) names /\
    (rooted = true -> k = 0).

Definition root_prefix (rooted : bool) : gostring :=
  if rooted then [sep] else [].

(** What [parseFlags] prints when it goes on. *)
Definition parseFlags_printed (GOPATH : gostring) (f : Flags.t) : gostring :=
  (if Flags.debugFlag f then str "GOPATH: " ++ Clean GOPATH ++ [nl] else [])
  ++ str "| " ++ Flags.projectFlag f ++ [nl]
  ++ (if Flags.debugFlag f
      then str "Project Path: " ++ Clean (Flags.projectFlag f) ++ [nl]
      else []).


(** ** What the walk should find

    A listing has a test file when one of its names matches the pattern
    of the walker. *)
Definition has_test (es : list entry) : bool :=
  existsb (Match (str "*_test.go")) (map entry_name es).

(** A tree as a file system without special cases holds it: every name
    can be examined ([lstat] succeeds), no name has a pattern character,
    and the names of a directory differ from each other. *)
Fixpoint plain_tree (e : entry) : bool :=
  negb (hasMeta (entry_name e)) &&
  match e with
  | File _ => true
  | NoStat _ => false
  | Dir _ _ children =>
      bool_decide (NoDup (map entry_name children)) && forallb plain_tree children
  end.

Definition plain_fs (fs : filesystem) : bool :=
  bool_decide (NoDup (map entry_name (proj_tree fs)))
  && forallb plain_tree (proj_tree fs) && forallb valid_tree (proj_tree fs).

(** The directories in and below the entry [e], whose path relative to
    the project is [rel], that are to be tested: [e] and the directories
    above are not ignored, the directories above it can be listed, and it
    has a test file. Parents come before children, children in the order
    of the listing. *)
Fixpoint candidates (ignores : gset gostring) (rel : gostring) (e : entry)
    : list gostring :=
  match e with
  | Dir _ readable children =>
      if decide (rel ∈ ignores) then []
      else if readable then
        (if has_test children then [rel] else [])
        ++ flat_map (fun c => candidates ignores (child_rel rel (entry_name c)) c)
             children
      else []
  | _ => []
  end.

Definition candidates_below (ignores : gset gostring) (rel : gostring)
    (es : list entry) : list gostring :=
  flat_map (fun c => candidates ignores (child_rel rel (entry_name c)) c) es.

(** The arguments of [processDIR] for the directory at [rel]. *)
Definition dispatch_of (projectPath rel : gostring) : gostring * gostring :=
  (projectPath ++ rel, rel).

(** What the walk dispatches: the project directory when the root
    directory of the file system has a test file (the pattern for it is
    ["/*_test.go"]), then the candidates below it. *)
Definition discovery (projectPath : gostring) (ignores : gset gostring)
    (fs : filesystem) : list (gostring * gostring) :=
  if decide ([] ∈ ignores) then []
  else
    (if has_test (fs_root fs) then [(projectPath, [])] else [])
    ++ (if proj_readable fs
        then map (dispatch_of projectPath) (candidates_below ignores [] (proj_tree fs))
        else []).

(** What the walk knows of the relative path [rel] of an entry. *)
Definition rel_ok (projectPath rel : gostring) : Prop :=
  rel_tidy projectPath rel /\ hasMeta rel = false /\ is_abs rel = false.

(** The directory with the listing [ch] is the one that the relative
    path [rel] names from the working directory. *)
Definition names_dir (fs : filesystem) (rel : gostring) (r : bool) (ch : list entry)
    : Prop :=
  resolve (proj_tree fs) (proj_readable fs) (path_segments rel)
  = if r then Some ch else None.

(** The walk of one entry against [candidates]. *)
Definition walk_spec (projectPath : gostring) (ignores : gset gostring)
    (fs : filesystem) (glob_meta : gostring -> list gostring * option error)
    (e : entry) : Prop :=
  plain_tree e = true -> valid_tree e = true ->
  forall rel,
    rel <> [] -> rel_ok projectPath rel ->
    (forall n r ch, e = Dir n r ch -> names_dir fs rel r ch) ->
    exists o t,
      walk projectPath ignores fs glob_meta (projectPath ++ rel) e = (Ret o, t) /\
      dispatched t = map (dispatch_of projectPath) (candidates ignores rel e) /\
      (o = None \/ (o = Some SkipDir /\ exists n r ch, e = Dir n r ch)).

(** ** Names that cannot be examined

    A tree without pattern characters in its names. *)
Fixpoint no_meta_tree (e : entry) : bool :=
  negb (hasMeta (entry_name e)) &&
  match e with
  | Dir _ _ children => forallb no_meta_tree children
  | _ => true
  end.

(** Does the walk of the entry [e], whose path relative to the project
    is [rel], come to a name on which [lstat] fails? *)
Fixpoint meets_nostat (ignores : gset gostring) (rel : gostring) (e : entry) : bool :=
  match e with
  | NoStat _ => true
  | File _ => false
  | Dir _ readable children =>
      if decide (rel ∈ ignores) then false
      else readable &&
           existsb (fun c => meets_nostat ignores (child_rel rel (entry_name c)) c)
             children
  end.

Definition Walk_meets_nostat (ignores : gset gostring) (fs : filesystem) : bool :=
  negb (bool_decide ([] ∈ ignores)) && proj_readable fs &&
  existsb (fun c => meets_nostat ignores (entry_name c) c) (proj_tree fs).

(** The walk of one entry: it panics when it meets such a name, and
    returns nil or [SkipDir] otherwise. *)
Definition walk_result_spec (projectPath : gostring) (ignores : gset gostring)
    (fs : filesystem) (glob_meta : gostring -> list gostring * option error)
    (e : entry) : Prop :=
  no_meta_tree e = true -> valid_tree e = true ->
  forall rel : gostring,
    rel <> [] -> rel_ok projectPath rel ->
    if meets_nostat ignores rel e
    then fst (walk projectPath ignores fs glob_meta (projectPath ++ rel) e)
         = Abort NilDereference
    else exists o,
        fst (walk projectPath ignores fs glob_meta (projectPath ++ rel) e) = Ret o /\
        (o = None \/ (o = Some SkipDir /\ exists n r ch, e = Dir n r ch)).

(** ** [processDIR]: the command and the profile *)

(** [args] as [exec.Command("go", args...)] gets them. *)
Definition processDIR_args (coverFlag projectFlag : gostring) (Args : list gostring)
    (fullPath relPath : gostring) : list gostring :=
  let args := [str "test"] in
  let args := args ++ Args in
  args ++ [str "-covermode=" ++ coverFlag;
           str "-coverprofile=" ++ pkgFilename;
           str "-outputdir=" ++ fullPath ++ SEPARATOR;
           projectFlag ++ SEPARATOR ++ relPath].

(** The capacity that [make] is given for [args]. *)
Definition processDIR_args_cap (Args : list gostring) : nat := 1 + length Args + 4.

(** The path given to [ioutil.ReadFile]. *)
Definition processDIR_profile (relPath : gostring) : gostring :=
  relPath ++ SEPARATOR ++ str "profile.coverprofile".

(** The file that a path names in the working directory [wd], as
    [filepath.Abs] writes it. *)
Definition Abs (wd path : gostring) : gostring :=
  if is_abs path then Clean path else Join wd path.

(** What every dispatch of the walk is like. *)
Definition dispatch_ok (projectPath : gostring) (ev : event) : Prop :=
  match ev with
  | EvWalker _ => True
  | EvDispatch p r => p = projectPath ++ r /\ rel_tidy projectPath r /\ is_abs r = false
  end.

(** Two ignore sets that agree on the relative paths that the walk can
    come to: names joined by single separators. *)
Definition ignores_agree (ign1 ign2 : gset gostring) : Prop :=
  forall names,
    Forall (fun n => valid_name n = true) names ->
    (join_sep names ∈ ign1 <-> join_sep names ∈ ign2).

(** [x] is the relative path [rel] or a path below it. *)
Definition under (rel x : gostring) : Prop :=
  x = rel \/ exists rest, x = rel ++ sep :: rest.

(** ** The length of a run

    The steps that each goroutine has still to make. *)
Definition pc_weight (pc : worker_pc) : nat :=
  match pc with
  | AtRun => 3
  | AtSend _ => 2
  | AtDone => 1
  | Finished => 0
  end.

Fixpoint workers_weight (ws : list worker) : nat :=
  match ws with
  | [] => 0
  | w :: ws' => pc_weight (w_pc w) + workers_weight ws'
  end.

Definition main_weight (m : main_pc) : nat :=
  match m with
  | MWalk todo _ => 4 * length todo + 2
  | MRange _ => 1
  | MReturned => 0
  end.

Definition measure (s : state) : nat :=
  match st_proc s with
  | Running =>
      main_weight (st_main s) + workers_weight (st_workers s)
      + (if st_closed s then 0 else 1)
  | Exited _ => 0
  end.

(** Every dispatched directory has a command that succeeds and a
    profile that can be read. *)
Definition all_pass (go_test : gostring -> gostring -> exec_result)
    (todo : list (gostring * gostring)) : Prop :=
  Forall (fun d => is_profile (go_test (fst d) (snd d)) = true) todo.

(** ** [scanOutput]

    [bufio.NewScanner(r)] splits what the reader [r] gives into lines
    ([bufio.ScanLines]): a line ends at a newline, a carriage return
    before it is dropped, and a last line without newline counts when it
    is not empty. The buffer of the scanner holds [MaxScanTokenSize]
    bytes: when it is full and has no newline, [Scan] ends with
    [ErrTooLong]. *)

Definition MaxScanTokenSize : nat := 64 * 1024.

Definition cr : ascii := "013"%char.

(** [dropCR] of package [bufio]: a carriage return at the end is left
    out. *)
Definition dropCR (data : gostring) : gostring :=
  match rev data with
  | c :: data' => if Ascii.eqb c cr then rev data' else data
  | [] => data
  end.

Inductive scan_error :=
| ErrTooLong
| ErrRead (msg : gostring).

(** [err.Error()]. *)
Definition Error (e : scan_error) : gostring :=
  match e with
  | ErrTooLong => str "bufio.Scanner: token too long"
  | ErrRead msg => msg
  end.

(** The tokens that the calls of [bs.Scan()] give and the value of
    [bs.Err()] after the last one, for a reader that gives [data] and
    then ends, with [io.EOF] ([rerr = None]) or with an error, in a read
    of its own, as the pipe of a command does. [cur] is the part of the
    line read so far, last byte first, [n] its length. *)
Fixpoint Scan_go (n : nat) (cur data : gostring) (rerr : option scan_error)
    : list gostring * option scan_error :=
  match data with
  | [] => (match cur with [] => [] | _ => [dropCR (rev cur)] end, rerr)
  | c :: data' =>
      if Ascii.eqb c nl then
        let (tokens, err) := Scan_go 0 [] data' rerr in
        (dropCR (rev cur) :: tokens, err)
      else if S n <? MaxScanTokenSize then Scan_go (S n) (c :: cur) data' rerr
      else ([], Some ErrTooLong)
  end.

(** [scanOutput(r, fn)]: the arguments of the calls of [fn], in order.
    ([r.Close()] is deferred and runs in every case.) *)
Definition scanOutput (data : gostring) (rerr : option gostring) : list gostring :=
  let (tokens, err) := Scan_go 0 [] data (option_map ErrRead rerr) in
  tokens ++
  match err with
  | Some e => [str "Scan error: " ++ Error e]
  | None => []
  end.

(** A line that fits the buffer of the scanner, newline included. *)
Definition fits (l : gostring) : bool :=
  negb (existsb (Ascii.eqb nl) l) && (length l <? MaxScanTokenSize).

(** ** Runs in a given order

    The state of a run that goes on, without a report yet. *)
Definition running (m : main_pc) (ws : list worker) (wg : nat) (closed : bool) : state :=
  mkState m ws wg closed None Running.

(** The profiles of the workers that have not run their command. *)
Definition pending (go_test : gostring -> gostring -> exec_result)
    (ws : list worker) : list gostring :=
  concat (map (fun w => match w_pc w with
                        | AtRun =>
                            match go_test (w_fullPath w) (w_relPath w) with
                            | Profile b => [b]
                            | _ => []
                            end
                        | _ => []
                        end) ws).

Definition fresh_or_finished (w : worker) : Prop :=
  w_pc w = AtRun \/ w_pc w = Finished.

(** ** More example inputs *)

Definition ex_GOPATH : gostring := str "/go".

Definition ex_flags : Flags.t :=
  Flags.mk (str "proj") (str "count") defaultIgnores false false [].

Definition Chdir_ok : gostring -> bool := fun _ => true.

(** The worker of [st_one_dispatched] has failed. *)
Definition st_failed : state := exit st_one_dispatched 1.

(** A line that fills the buffer of the scanner. *)
Definition long_line : gostring := repeat "a"%char MaxScanTokenSize.

(** Every directory passes, with a profile of its own. *)
Definition go_test_by_dir : gostring -> gostring -> exec_result :=
  fun _ relPath =>
    Profile (render (mkArtifact (str "set") [relPath ++ str "/x.go:1.1,2.2 1 1"])).

Definition art_a : artifact :=
  mkArtifact (str "set") [str "proj/a/a.go:1.1,2.2 1 1"].

(** A name in [B] vanishes between the listing and [lstat]. *)
Definition fs_vanishing : filesystem :=
  mkFS [Dir (str "go") true []] true
    [Dir (str "A") true [File (str "foo_test.go")];
     Dir (str "B") true [NoStat (str "tmp123"); File (str "b_test.go")]].

(** The scenario tree as the project of a run with [GOPATH=/]: the
    project directory is [/src/proj]. *)
Definition fs_gopath_root : filesystem :=
  mkFS [Dir (str "src") true [Dir (str "proj") true (proj_tree fs_scenario)]] true
    (proj_tree fs_scenario).

(** An absolute project flag, and the scenario tree as its project under
    [ex_GOPATH]: the project directory is [/go/src/proj]. *)
Definition ex_flags_abs : Flags.t :=
  Flags.mk (str "/proj") (str "count") defaultIgnores false false [].

Definition fs_abs_project : filesystem :=
  mkFS [Dir (str "go") true
          [Dir (str "src") true [Dir (str "proj") true (proj_tree fs_scenario)]]] true
    (proj_tree fs_scenario).

(** * Properties of the pattern and of the merge *)

Example modeRegex_set :
  match_here modeRegex (str "mode: set" ++ [nl] ++ str "x") = Some (str "x").
Proof. reflexivity. Qed.

Example final_two :
  testFiles_final (str "count")
    [render (mkArtifact (str "set") [str "a.go:1.2,3.4 1 0"]);
     render (mkArtifact (str "atomic") [str "b.go:1.2,3.4 1 1"])]
  = render (mkArtifact (str "count") [str "a.go:1.2,3.4 1 0"; str "b.go:1.2,3.4 1 1"]).
Proof. vm_compute. reflexivity. Qed.

Lemma strip_prefix_Some (p s r : gostring) :
  strip_prefix p s = Some r <-> s = p ++ r.
Proof.
  revert s. induction p as [|c p IH]; intros s; simpl.
  - split; [intros [= ->]; reflexivity | intros ->; reflexivity].
  - destruct s as [|c' s]; [split; [discriminate | intros [=]]|].
    destruct (Ascii.eqb c c') eqn:E.
    + apply Ascii.eqb_eq in E as ->. rewrite IH. split; [intros ->; reflexivity | intros [= ->]; reflexivity].
    + split; [discriminate|]. intros [= -> _]. rewrite Ascii.eqb_refl in E. discriminate.
Qed.

Lemma match_here_lits (l : gostring) (p : list atom) (s : gostring) :
  match_here (map ALit l ++ p) s =
  match strip_prefix l s with
  | Some r => match_here p r
  | None => None
  end.
Proof.
  revert s. induction l as [|c l IH]; intros s; simpl; [reflexivity|].
  destruct s as [|c' s]; [reflexivity|].
  destruct (Ascii.eqb c c'); [apply IH | reflexivity].
Qed.


Lemma is_lower_nl : is_lower nl = false.
Proof. reflexivity. Qed.

Lemma match_here_plus_cons (lo hi : ascii) (p : list atom) (c : ascii) (s : gostring) :
  match_here (APlus lo hi :: p) (c :: s) =
  if in_class lo hi c then
    match match_here (APlus lo hi :: p) s with
    | Some r => Some r
    | None => match_here p s
    end
  else None.
Proof. reflexivity. Qed.

Lemma match_plus_nl (s rest : gostring) :
  match_here [APlus "a"%char "z"%char; ALit nl] s = Some rest <->
  exists m, is_token m /\ s = m ++ nl :: rest.
Proof.
  revert rest. induction s as [|c s IH]; intros rest.
  - simpl. split; [discriminate|]. intros (m & [Hne _] & Heq).
    destruct m; [congruence | discriminate].
  - rewrite match_here_plus_cons. fold (is_lower c).
    destruct (is_lower c) eqn:Hc.
    + destruct (match_here [APlus "a"%char "z"%char; ALit nl] s) as [r|].
      * split.
        -- intros [= <-]. destruct (proj1 (IH r) eq_refl) as (m & [Hne Hall] & ->).
           exists (c :: m). repeat split; [discriminate | constructor; assumption].
        -- intros (m' & [Hne' Hall'] & Heq).
           destruct m' as [|c' m']; [congruence|].
           injection Heq as -> Heq.
           inversion Hall' as [|? ? Hc' Hall'']; subst.
           destruct m' as [|c'' m'].
           ++ destruct (proj1 (IH r) eq_refl) as (m & [Hne Hall] & Heq).
              destruct m as [|d m]; [congruence|]. simpl in Heq.
              injection Heq as <- _. inversion Hall; subst. rewrite is_lower_nl in *. discriminate.
           ++ apply IH. exists (c'' :: m'). repeat split; [discriminate | assumption].
      * split.
        -- destruct s as [|c' s]; [discriminate|]. cbn [match_here].
           destruct (Ascii.eqb nl c') eqn:E; [|discriminate].
           apply Ascii.eqb_eq in E as <-. intros [= ->].
           exists [c]. repeat split; [discriminate | constructor; [assumption | constructor]].
        -- intros (m & [Hne Hall] & Heq).
           destruct m as [|c' m]; [congruence|]. injection Heq as -> ->.
           inversion Hall as [|? ? _ Hall']; subst.
           destruct m as [|c'' m].
           ++ cbn [app match_here]. rewrite Ascii.eqb_refl. reflexivity.
           ++ exfalso. assert (Hm : None = Some rest); [|discriminate].
              apply IH. exists (c'' :: m). repeat split; [discriminate | assumption].
    + split; [discriminate|]. intros (m & [Hne Hall] & Heq).
      destruct m as [|c' m]; [congruence|]. injection Heq as -> _.
      inversion Hall; subst. congruence.
Qed.

Lemma modeRegex_match (s rest : gostring) :
  match_here modeRegex s = Some rest <->
  exists m, is_token m /\ s = str "mode: " ++ m ++ nl :: rest.
Proof.
  unfold modeRegex. rewrite match_here_lits.
  destruct (strip_prefix (str "mode: ") s) as [r|] eqn:E.
  - apply strip_prefix_Some in E as ->. rewrite match_plus_nl.
    split; intros (m & Hm & Heq); exists m; (split; [assumption|]).
    + rewrite Heq. reflexivity.
    + apply app_inv_head in Heq. assumption.
  - split; [discriminate|]. intros (m & _ & ->).
    rewrite (proj2 (strip_prefix_Some _ _ _) eq_refl) in E. discriminate.
Qed.

Lemma modeRegex_match_shorter (s rest : gostring) :
  match_here modeRegex s = Some rest -> length rest < length s.
Proof.
  intros (m & _ & ->)%modeRegex_match. rewrite !length_app. simpl. lia.
Qed.

(** The rounds of [ReplaceAll_go] beyond [length src] change nothing. *)
Lemma ReplaceAll_go_fuel (re : list atom) (repl : gostring) (n m : nat) (s : gostring) :
  length s <= n -> length s <= m ->
  ReplaceAll_go re repl n s = ReplaceAll_go re repl m s.
Proof.
  revert m s. induction n as [|n IH]; intros m s Hn Hm.
  - destruct s; [|simpl in Hn; lia]. destruct m; reflexivity.
  - destruct m as [|m].
    + destruct s; [reflexivity | simpl in Hm; lia].
    + destruct s as [|c s]; [reflexivity|]. simpl in Hn, Hm.
      cbn [ReplaceAll_go length].
      destruct (match_here re (c :: s)) as [rest|].
      * destruct (Nat.ltb (length rest) (S (length s))) eqn:E.
        -- apply Nat.ltb_lt in E. f_equal. apply IH; lia.
        -- f_equal. apply IH; lia.
      * f_equal. apply IH; lia.
Qed.

Lemma ReplaceAllString_nil (re : list atom) (repl : gostring) :
  ReplaceAllString re [] repl = [].
Proof. reflexivity. Qed.

Lemma ReplaceAllString_cons (re : list atom) (repl : gostring) (c : ascii) (s : gostring) :
  ReplaceAllString re (c :: s) repl =
  match match_here re (c :: s) with
  | Some rest =>
      if Nat.ltb (length rest) (length (c :: s))
      then repl ++ ReplaceAllString re rest repl
      else c :: ReplaceAllString re s repl
  | None => c :: ReplaceAllString re s repl
  end.
Proof.
  unfold ReplaceAllString. cbn [length ReplaceAll_go].
  destruct (match_here re (c :: s)) as [rest|]; [|reflexivity].
  destruct (Nat.ltb (length rest) (S (length s))) eqn:E; [|reflexivity].
  apply Nat.ltb_lt in E. f_equal. apply ReplaceAll_go_fuel; lia.
Qed.


Lemma strip_nil : strip [] = [].
Proof. reflexivity. Qed.

Lemma strip_match (m rest : gostring) :
  is_token m -> strip (str "mode: " ++ m ++ nl :: rest) = strip rest.
Proof.
  intros Hm. unfold strip.
  assert (H : match_here modeRegex (str "mode: " ++ m ++ nl :: rest) = Some rest)
    by (apply modeRegex_match; exists m; split; [assumption | reflexivity]).
  pose proof (modeRegex_match_shorter _ _ H) as Hlt.
  change (str "mode: " ++ m ++ nl :: rest)
    with ("m"%char :: (str "ode: " ++ m ++ nl :: rest)) in *.
  rewrite ReplaceAllString_cons, H.
  apply Nat.ltb_lt in Hlt. rewrite Hlt. reflexivity.
Qed.

Lemma strip_keep (c : ascii) (s : gostring) :
  match_here modeRegex (c :: s) = None -> strip (c :: s) = c :: strip s.
Proof. intros H. unfold strip. rewrite ReplaceAllString_cons, H. reflexivity. Qed.

(** ** Lines and matches *)

Lemma first_nl_unique (a a' b b' : gostring) :
  ~ In nl a -> ~ In nl a' -> a ++ nl :: b = a' ++ nl :: b' -> a = a' /\ b = b'.
Proof.
  revert a'. induction a as [|c a IH]; intros [|c' a'] Ha Ha' Heq; simpl in *.
  - injection Heq as ->. split; reflexivity.
  - injection Heq as <- _. exfalso. apply Ha'. left. reflexivity.
  - injection Heq as -> _. exfalso. apply Ha. left. reflexivity.
  - injection Heq as -> Heq.
    destruct (IH a') as [-> ->]; [tauto | tauto | assumption | split; reflexivity].
Qed.

Lemma lower_no_nl (m : gostring) :
  Forall (fun c => is_lower c = true) m -> ~ In nl m.
Proof.
  intros H Hin. rewrite Forall_forall in H.
  apply list_elem_of_In in Hin. specialize (H _ Hin).
  rewrite is_lower_nl in H. discriminate.
Qed.

Lemma header_prefix_no_nl (m : gostring) :
  Forall (fun c => is_lower c = true) m -> ~ In nl (str "mode: " ++ m).
Proof.
  intros H Hin. apply in_app_or in Hin as [Hin|Hin].
  - vm_compute in Hin. intuition discriminate.
  - exact (lower_no_nl m H Hin).
Qed.

(** A match that ends at the end of the line [u] is the whole of
    ["mode: "] and a token: it starts where [u] does. *)
Lemma mode_match_shape (u rest rest' : gostring) :
  ~ In nl u ->
  match_here modeRegex (u ++ nl :: rest) = Some rest' ->
  exists m, is_token m /\ u = str "mode: " ++ m /\ rest' = rest.
Proof.
  intros Hu (m & Hm & Heq)%modeRegex_match.
  exists m. split; [assumption|].
  rewrite (app_assoc (str "mode: ") m) in Heq.
  destruct Hm as [_ Hall].
  destruct (first_nl_unique _ _ _ _ Hu (header_prefix_no_nl m Hall) Heq) as [-> ->].
  split; reflexivity.
Qed.

(** A line in which no match ends is kept as it is. *)
Lemma strip_line (u rest : gostring) :
  ~ In nl u ->
  (forall p m, u = p ++ str "mode: " ++ m -> ~ is_token m) ->
  strip (u ++ nl :: rest) = u ++ nl :: strip rest.
Proof.
  induction u as [|c u IH]; intros Hnl Hfree.
  - cbn [app]. apply strip_keep.
    destruct (match_here modeRegex (nl :: rest)) as [r|] eqn:E; [|reflexivity].
    apply modeRegex_match in E as (m & _ & Heq). discriminate.
  - cbn [app]. rewrite strip_keep.
    + f_equal. apply IH.
      * intros Hin. apply Hnl. right. assumption.
      * intros p m ->. apply (Hfree (c :: p) m). reflexivity.
    + destruct (match_here modeRegex (c :: u ++ nl :: rest)) as [r|] eqn:E; [|reflexivity].
      change (c :: u ++ nl :: rest) with ((c :: u) ++ nl :: rest) in E.
      apply mode_match_shape in E as (m & Hm & Heq & _); [|assumption].
      exfalso. exact (Hfree [] m Heq Hm).
Qed.


Lemma mode_ok_token (m : gostring) : mode_ok m = true -> is_token m.
Proof.
  destruct m as [|c m]; [discriminate|]. unfold mode_ok. intros H.
  split; [discriminate|]. apply Forall_forall. intros x Hx.
  rewrite forallb_forall in H. apply H. apply list_elem_of_In. assumption.
Qed.

Lemma mode_inside_false (l : gostring) :
  mode_inside l = false ->
  forall p m, l = p ++ str "mode: " ++ m -> ~ is_token m.
Proof.
  intros H p. revert l H. induction p as [|c p IH]; intros l H m -> Hm.
  - cbn [app] in H. change (str "mode: " ++ m) with ("m"%char :: (str "ode: " ++ m)) in H.
    cbn [mode_inside] in H. apply orb_false_iff in H as [H _].
    change ("m"%char :: (str "ode: " ++ m)) with (str "mode: " ++ m) in H.
    rewrite <- app_assoc in H.
    rewrite (proj2 (modeRegex_match (str "mode: " ++ m ++ [nl]) [])) in H; [discriminate|].
    exists m. split; [assumption | reflexivity].
  - cbn [app mode_inside] in H. apply orb_false_iff in H as [_ H].
    exact (IH _ H m eq_refl Hm).
Qed.

Lemma data_line_ok_spec (l : gostring) :
  data_line_ok l = true ->
  ~ In nl l /\ forall p m, l = p ++ str "mode: " ++ m -> ~ is_token m.
Proof.
  unfold data_line_ok. intros [H1 H2]%andb_true_iff.
  apply negb_true_iff in H1, H2. split.
  - intros Hin. assert (existsb (Ascii.eqb nl) l = true); [|congruence].
    apply existsb_exists. exists nl. split; [assumption | apply Ascii.eqb_refl].
  - apply mode_inside_false. assumption.
Qed.

Lemma data_bytes_app (ds ds' : list gostring) :
  data_bytes (ds ++ ds') = data_bytes ds ++ data_bytes ds'.
Proof. unfold data_bytes. rewrite map_app, concat_app. reflexivity. Qed.

Lemma strip_data (ds : list gostring) (rest : gostring) :
  forallb data_line_ok ds = true ->
  strip (data_bytes ds ++ rest) = data_bytes ds ++ strip rest.
Proof.
  induction ds as [|l ds IH]; intros H; [reflexivity|].
  cbn [forallb] in H. apply andb_true_iff in H as [Hl Hds].
  apply data_line_ok_spec in Hl as [Hnl Hfree].
  unfold data_bytes. cbn [map concat]. fold (data_bytes ds).
  rewrite <- !app_assoc. cbn [app].
  rewrite strip_line by assumption. rewrite IH by assumption. reflexivity.
Qed.

Lemma strip_render (a : artifact) (rest : gostring) :
  wf_artifact a = true ->
  strip (render a ++ rest) = data_bytes (art_data a) ++ strip rest.
Proof.
  unfold wf_artifact. intros [Hm Hd]%andb_true_iff.
  unfold render, header. rewrite <- !app_assoc. cbn [app].
  rewrite strip_match by (apply mode_ok_token; assumption).
  apply strip_data. assumption.
Qed.

Lemma strip_renders (arts : list artifact) :
  forallb wf_artifact arts = true ->
  strip (concat (map render arts)) = data_bytes (concat (map art_data arts)).
Proof.
  induction arts as [|a arts IH]; intros H; [reflexivity|].
  cbn [forallb] in H. apply andb_true_iff in H as [Ha Harts].
  cbn [map concat]. rewrite strip_render by assumption.
  rewrite IH by assumption. rewrite data_bytes_app. reflexivity.
Qed.

Lemma testFiles_final_strip (coverFlag : gostring) (covers : list gostring) :
  testFiles_final coverFlag covers = header coverFlag ++ strip (concat covers).
Proof. unfold testFiles_final, header, strip. rewrite <- !app_assoc. reflexivity. Qed.

(** ** Lines *)

Lemma lines_go_line (cur l rest : gostring) :
  ~ In nl l ->
  lines_go cur (l ++ nl :: rest) = (rev cur ++ l) :: lines rest.
Proof.
  revert cur. induction l as [|c l IH]; intros cur Hnl.
  - cbn [app lines_go]. rewrite Ascii.eqb_refl, app_nil_r. reflexivity.
  - cbn [app lines_go]. destruct (Ascii.eqb c nl) eqn:E.
    + apply Ascii.eqb_eq in E as ->. exfalso. apply Hnl. left. reflexivity.
    + rewrite IH by (intros Hin; apply Hnl; right; assumption).
      cbn [rev]. rewrite <- app_assoc. reflexivity.
Qed.

Lemma lines_line (l rest : gostring) :
  ~ In nl l -> lines (l ++ nl :: rest) = l :: lines rest.
Proof. intros H. unfold lines at 1. rewrite lines_go_line by assumption. reflexivity. Qed.

Lemma lines_data (ds : list gostring) :
  forallb data_line_ok ds = true -> lines (data_bytes ds) = ds.
Proof.
  induction ds as [|l ds IH]; intros H; [reflexivity|].
  cbn [forallb] in H. apply andb_true_iff in H as [Hl Hds].
  apply data_line_ok_spec in Hl as [Hnl _].
  unfold data_bytes. cbn [map concat]. fold (data_bytes ds).
  rewrite <- app_assoc. cbn [app]. rewrite lines_line by assumption.
  rewrite IH by assumption. reflexivity.
Qed.


Lemma stripped_strip_len (n : nat) (s : gostring) :
  length s <= n -> stripped s (strip s).
Proof.
  revert s. induction n as [|n IH]; intros s Hn.
  - destruct s; [constructor | simpl in Hn; lia].
  - destruct s as [|c s]; [constructor|].
    destruct (match_here modeRegex (c :: s)) as [rest|] eqn:E.
    + pose proof (modeRegex_match_shorter _ _ E) as Hlt.
      apply modeRegex_match in E as (m & Hm & Heq). rewrite Heq.
      rewrite strip_match by assumption.
      apply stripped_match; [assumption|]. apply IH. simpl in Hn, Hlt. lia.
    + rewrite strip_keep by assumption. apply stripped_keep.
      * intros m rest Hm Heq.
        rewrite (proj2 (modeRegex_match (c :: s) rest)) in E; [discriminate|].
        exists m. split; assumption.
      * apply IH. simpl in Hn. lia.
Qed.

Lemma stripped_strip (s : gostring) : stripped s (strip s).
Proof. apply (stripped_strip_len (length s)). lia. Qed.

Lemma stripped_unique (s out : gostring) : stripped s out -> out = strip s.
Proof.
  induction 1 as [|m rest out Hm _ IH|c s out Hno _ IH].
  - reflexivity.
  - rewrite strip_match by assumption. assumption.
  - rewrite strip_keep; [congruence|].
    destruct (match_here modeRegex (c :: s)) as [rest|] eqn:E; [|reflexivity].
    apply modeRegex_match in E as (m & Hm & Heq). exfalso. exact (Hno m rest Hm Heq).
Qed.

Lemma no_match_other_start (c : ascii) (s : gostring) :
  c <> "m"%char -> match_here modeRegex (c :: s) = None.
Proof.
  intros Hc. destruct (match_here modeRegex (c :: s)) as [r|] eqn:E; [|reflexivity].
  apply modeRegex_match in E as (m & _ & Heq). injection Heq as -> _. congruence.
Qed.

Lemma strip_mid_line (pre m rest : gostring) :
  ~ In "m"%char pre -> is_token m ->
  strip (pre ++ str "mode: " ++ m ++ nl :: rest) = pre ++ strip rest.
Proof.
  intros Hpre Hm. induction pre as [|c pre IH].
  - apply strip_match. assumption.
  - cbn [app]. rewrite strip_keep.
    + f_equal. apply IH. intros Hin. apply Hpre. right. assumption.
    + apply no_match_other_start. intros ->. apply Hpre. left. reflexivity.
Qed.

Lemma header_not_token_no_match (tok rest : gostring) :
  ~ In nl tok -> ~ is_token tok ->
  match_here modeRegex (header tok ++ rest) = None.
Proof.
  intros Hnl Htok.
  destruct (match_here modeRegex (header tok ++ rest)) as [r|] eqn:E; [|reflexivity].
  unfold header in E. rewrite <- !app_assoc in E. cbn [app] in E.
  apply modeRegex_match in E as (m & Hm & Heq).
  apply app_inv_head in Heq.
  destruct (first_nl_unique _ _ _ _ Hnl (lower_no_nl m (proj2 Hm)) Heq) as [-> _].
  contradiction.
Qed.

Lemma header_not_token_kept (tok rest : gostring) :
  ~ In nl tok -> ~ is_token tok -> ~ In " "%char tok ->
  strip (header tok ++ rest) = header tok ++ strip rest.
Proof.
  intros Hnl Htok Hsp.
  unfold header. rewrite <- !app_assoc. cbn [app].
  rewrite !(app_assoc (str "mode: ") tok).
  rewrite strip_line; [reflexivity | |].
  - intros Hin. apply in_app_or in Hin as [Hin|Hin]; [|contradiction].
    vm_compute in Hin. intuition discriminate.
  - intros p m Heq Hm.
    destruct p as [|c1 p]; [cbn [app] in Heq; apply app_inv_head in Heq; subst; contradiction|].
    assert (Hin : forall q, tok = q ++ str "mode: " ++ m -> False).
    { intros q ->. apply Hsp. apply in_or_app. right.
      apply in_or_app. left. vm_compute. tauto. }
    injection Heq as _ Heq.
    do 5 (destruct p as [|? p]; [discriminate|]; injection Heq as _ Heq).
    exact (Hin p Heq).
Qed.

Example strip_examples :
  strip (str "xmode: set" ++ [nl] ++ str "y" ++ [nl]) = str "xy" ++ [nl] /\
  strip (str "mode: Set" ++ [nl]) = str "mode: Set" ++ [nl] /\
  strip (str "mode: set2" ++ [nl]) = str "mode: set2" ++ [nl] /\
  strip (str "mode: " ++ [nl]) = str "mode: " ++ [nl] /\
  strip (str "mode: mode: set" ++ [nl] ++ str "set" ++ [nl]) = str "mode: set" ++ [nl].
Proof. repeat split; vm_compute; reflexivity. Qed.

(** ** The claims about the merged report *)

(** C9. The stripping step of the merge takes out every substring that
    is ["mode: "], one or more lowercase letters and a newline, wherever
    it stands in the concatenated input, and nothing else: the merged
    report is the configured header followed by the input without these
    substrings (there is exactly one such text). A match in the middle
    of a line is taken out like one at a line start; a header whose token
    is not made of lowercase letters only is not matched, and stays in
    the report when the token has no space. *)
Theorem header_stripping_everywhere (coverFlag : gostring) (covers : list gostring) :
  (exists out,
      stripped (concat covers) out /\
      (forall out', stripped (concat covers) out' -> out' = out) /\
      testFiles_final coverFlag covers = header coverFlag ++ out) /\
  (forall pre m rest,
      ~ In "m"%char pre -> is_token m ->
      testFiles_final coverFlag [pre ++ str "mode: " ++ m ++ nl :: rest]
      = header coverFlag ++ pre ++ strip rest) /\
  (forall tok rest,
      ~ In nl tok -> ~ is_token tok ->
      match_here modeRegex (header tok ++ rest) = None /\
      (~ In " "%char tok ->
       testFiles_final coverFlag [header tok ++ rest]
       = header coverFlag ++ header tok ++ strip rest)).
Proof.
  split; [|split].
  - exists (strip (concat covers)). split; [apply stripped_strip|]. split.
    + intros out' H. apply stripped_unique. assumption.
    + apply testFiles_final_strip.
  - intros pre m rest Hpre Hm. rewrite testFiles_final_strip.
    cbn [concat]. rewrite app_nil_r. rewrite strip_mid_line by assumption. reflexivity.
  - intros tok rest Hnl Htok. split; [apply header_not_token_no_match; assumption|].
    intros Hsp. rewrite testFiles_final_strip. cbn [concat]. rewrite app_nil_r.
    rewrite header_not_token_kept by assumption. reflexivity.
Qed.

(** C1, as amended. For sub-artifacts whose header names a mode made of
    lowercase letters and whose data lines do not end in ["mode: "]
    followed by lowercase letters, the merged report is one header line
    for the configured mode followed by the data lines of the
    sub-artifacts in arrival order, whatever modes they declare. *)
Theorem merged_report_one_header (coverFlag : gostring) (arts : list artifact) :
  forallb wf_artifact arts = true ->
  testFiles_final coverFlag (map render arts)
  = render (mkArtifact coverFlag (concat (map art_data arts))).
Proof.
  intros H. rewrite testFiles_final_strip. rewrite strip_renders by assumption.
  reflexivity.
Qed.

Lemma merged_report_one_header_witness :
  testFiles_final (str "count")
    (map render [mkArtifact (str "set") [str "a/a.go:3.2,5.4 1 0"];
                 mkArtifact (str "atomic") [str "b/b.go:7.1,9.2 2 1"; str "b/b.go:9.2,11.3 1 4"]])
  = render (mkArtifact (str "count")
      (concat (map art_data
         [mkArtifact (str "set") [str "a/a.go:3.2,5.4 1 0"];
          mkArtifact (str "atomic") [str "b/b.go:7.1,9.2 2 1"; str "b/b.go:9.2,11.3 1 4"]]))).
Proof. apply merged_report_one_header. vm_compute. reflexivity. Defined.

(** C1 as stated fails: a data line that ends in ["mode: set"] loses
    that end and its newline, so it runs into the next line; and a header
    whose mode is not written in lowercase letters stays in the report. *)
Lemma merged_report_one_header_counterexample :
  testFiles_final (str "count")
    (map render [mkArtifact (str "set") [str "xmode: set"; str "y"]])
  <> render (mkArtifact (str "count") [str "xmode: set"; str "y"]) /\
  testFiles_final (str "count")
    (map render [mkArtifact (str "Set") [str "a/a.go:3.2,5.4 1 0"]])
  <> render (mkArtifact (str "count") [str "a/a.go:3.2,5.4 1 0"]).
Proof. split; vm_compute; discriminate. Qed.

Lemma concat_data_perm (arts arts' : list artifact) :
  Permutation arts arts' ->
  Permutation (concat (map art_data arts)) (concat (map art_data arts')).
Proof.
  induction 1 as [|a l l' _ IH|a b l|l l' l'' _ IH1 _ IH2]; cbn [map concat].
  - constructor.
  - apply Permutation_app_head. assumption.
  - rewrite !app_assoc. apply Permutation_app_tail. apply Permutation_app_comm.
  - etransitivity; eassumption.
Qed.

Lemma wf_artifacts_perm (arts arts' : list artifact) :
  Permutation arts arts' ->
  forallb wf_artifact arts = true -> forallb wf_artifact arts' = true.
Proof.
  induction 1 as [|a l l' _ IH|a b l|l l' l'' _ IH1 _ IH2]; cbn [forallb].
  - trivial.
  - intros [Ha Hl]%andb_true_iff. rewrite Ha, IH by assumption. reflexivity.
  - intros [Hb [Ha Hl]%andb_true_iff]%andb_true_iff. rewrite Ha, Hb, Hl. reflexivity.
  - auto.
Qed.

Lemma covermode_no_nl (coverFlag : gostring) :
  parseFlags_covermode coverFlag = true -> ~ In nl (str "mode: " ++ coverFlag).
Proof.
  unfold parseFlags_covermode.
  intros [[H|H]%orb_true_iff|H]%orb_true_iff;
    apply bool_decide_eq_true in H; subst; vm_compute; intuition discriminate.
Qed.

(** C2, as amended. For sub-artifacts as in C1 and a configured mode that
    [parseFlags] accepts, and for every order of arrival: the lines of
    the merged report are the header line followed by data lines that
    are, as a multiset, exactly the data lines of the sub-artifacts. *)
Theorem merged_data_lines (coverFlag : gostring) (arts arrival : list artifact) :
  parseFlags_covermode coverFlag = true ->
  forallb wf_artifact arts = true ->
  Permutation arts arrival ->
  exists ds,
    lines (testFiles_final coverFlag (map render arrival))
    = (str "mode: " ++ coverFlag) :: ds /\
    Permutation ds (concat (map art_data arts)).
Proof.
  intros Hmode Hwf HP.
  pose proof (wf_artifacts_perm _ _ HP Hwf) as Hwf'.
  exists (concat (map art_data arrival)). split.
  - rewrite testFiles_final_strip, strip_renders by assumption.
    unfold header. rewrite <- !app_assoc. cbn [app].
    rewrite (app_assoc (str "mode: ") coverFlag).
    rewrite lines_line by (apply covermode_no_nl; assumption).
    f_equal. apply lines_data.
    clear -Hwf'. induction arrival as [|a l IH]; [reflexivity|].
    cbn [forallb map concat] in *. apply andb_true_iff in Hwf' as [Ha Hl].
    rewrite forallb_app. apply andb_true_iff. split; [|apply IH; assumption].
    unfold wf_artifact in Ha. apply andb_true_iff in Ha as [_ Ha]. assumption.
  - apply Permutation_sym. apply concat_data_perm. assumption.
Qed.

Lemma merged_data_lines_witness :
  exists ds,
    lines (testFiles_final (str "count")
             (map render [mkArtifact (str "atomic") [str "b/b.go:7.1,9.2 2 1"];
                          mkArtifact (str "set") [str "a/a.go:3.2,5.4 1 0"]]))
    = (str "mode: " ++ str "count") :: ds /\
    Permutation ds
      (concat (map art_data [mkArtifact (str "set") [str "a/a.go:3.2,5.4 1 0"];
                             mkArtifact (str "atomic") [str "b/b.go:7.1,9.2 2 1"]])).
Proof.
  apply merged_data_lines.
  - vm_compute. reflexivity.
  - vm_compute. reflexivity.
  - apply perm_swap.
Defined.

(** C2 as stated fails: the data line ["y"] of the sub-artifact is not a
    line of the merged report, which has the line ["xy"] instead. *)
Lemma merged_data_lines_counterexample :
  lines (testFiles_final (str "count")
           (map render [mkArtifact (str "set") [str "xmode: set"; str "y"]]))
  = [str "mode: count"; str "xy"] /\
  ~ In (str "y")
      (lines (testFiles_final (str "count")
                (map render [mkArtifact (str "set") [str "xmode: set"; str "y"]]))).
Proof.
  split; [vm_compute; reflexivity|].
  vm_compute. intros [H|[H|[]]]; discriminate.
Qed.

(** * The walk *)

Lemma entry_ind2 (P : entry -> Prop) :
  (forall n, P (File n)) ->
  (forall n, P (NoStat n)) ->
  (forall n r ch, Forall P ch -> P (Dir n r ch)) ->
  forall e, P e.
Proof.
  intros HF HN HD. fix IH 1. intros [n|n r ch|n].
  - apply HF.
  - apply HD. induction ch as [|e ch IHch]; constructor; [apply IH | exact IHch].
  - apply HN.
Qed.

Lemma bind_trace {A B} (P : event -> Prop) (m : W A) (f : A -> W B) :
  Forall P (snd m) ->
  (forall a, fst m = Ret a -> Forall P (snd (f a))) ->
  Forall P (snd (bind m f)).
Proof.
  destruct m as [[a|ab] t]; cbn [bind fst snd]; intros Hm Hf; [|exact Hm].
  specialize (Hf a eq_refl). destruct (f a) as [r t2]. cbn [snd] in *.
  apply Forall_app. split; assumption.
Qed.

Lemma bind_result {A B} (Q : outcome B -> Prop) (m : W A) (f : A -> W B) :
  (forall ab, fst m = Abort ab -> Q (Abort ab)) ->
  (forall a, fst m = Ret a -> Q (fst (f a))) ->
  Q (fst (bind m f)).
Proof.
  destruct m as [[a|ab] t]; cbn [bind fst snd]; intros Hab Hret.
  - specialize (Hret a eq_refl). destruct (f a) as [r t2]. exact Hret.
  - apply Hab. reflexivity.
Qed.

Lemma Replace_first_unfold (s old new : gostring) :
  Replace_first s old new =
  match strip_prefix old s with
  | Some rest => new ++ rest
  | None =>
      match s with
      | c :: s' => c :: Replace_first s' old new
      | [] => []
      end
  end.
Proof. destruct s; reflexivity. Qed.

Lemma Replace_first_prefix (old r new : gostring) :
  Replace_first (old ++ r) old new = new ++ r.
Proof.
  rewrite Replace_first_unfold.
  rewrite (proj2 (strip_prefix_Some old (old ++ r) r) eq_refl). reflexivity.
Qed.

Lemma valid_name_spec (n : gostring) :
  valid_name n = true ->
  n <> [] /\ ~ In sep n /\ n <> str "." /\ n <> str "..".
Proof.
  unfold valid_name.
  intros [[[H1 H2]%andb_true_iff H3]%andb_true_iff H4]%andb_true_iff.
  apply negb_true_iff in H1, H2, H3, H4.
  apply bool_decide_eq_false in H1, H3, H4.
  repeat split; try assumption. intros Hin.
  assert (existsb (Ascii.eqb sep) n = true); [|congruence].
  apply existsb_exists. exists sep. split; [assumption | apply Ascii.eqb_refl].
Qed.

(** *** [Split], [Clean] and [Join] on the paths of the walk *)

Lemma Split_go_app (c : ascii) (cur a b : gostring) :
  Split_go c cur (a ++ c :: b) = Split_go c cur a ++ Split_go c [] b.
Proof.
  revert cur. induction a as [|d a IH]; intros cur; cbn [app Split_go].
  - rewrite Ascii.eqb_refl. reflexivity.
  - destruct (Ascii.eqb d c); [rewrite IH; reflexivity | apply IH].
Qed.

Lemma Split_go_no_sep (c : ascii) (cur x : gostring) :
  ~ In c x -> Split_go c cur x = [rev cur ++ x].
Proof.
  revert cur. induction x as [|d x IH]; intros cur Hx; cbn [Split_go].
  - rewrite app_nil_r. reflexivity.
  - destruct (Ascii.eqb d c) eqn:E.
    + apply Ascii.eqb_eq in E as ->. exfalso. apply Hx. left. reflexivity.
    + rewrite IH by (intros Hin; apply Hx; right; exact Hin).
      cbn [rev]. rewrite <- app_assoc. reflexivity.
Qed.

Lemma Split_child (q n : gostring) :
  ~ In sep n -> Split (q ++ sep :: n) sep = Split q sep ++ [n].
Proof.
  intros Hn. unfold Split. rewrite Split_go_app, (Split_go_no_sep sep [] n Hn).
  reflexivity.
Qed.

Lemma Split_trailing_sep (q : gostring) : Split (q ++ [sep]) sep = Split q sep ++ [[]].
Proof. unfold Split. rewrite Split_go_app. reflexivity. Qed.

Lemma is_abs_app (q x : gostring) : q <> [] -> is_abs (q ++ x) = is_abs q.
Proof. destruct q; [congruence | reflexivity]. Qed.

Lemma Clean_step_name (rooted : bool) (kept : list gostring) (n : gostring) :
  valid_name n = true -> Clean_step rooted kept n = n :: kept.
Proof.
  intros (Hne & _ & Hdot & Hdotdot)%valid_name_spec. unfold Clean_step.
  repeat case_decide; try contradiction. reflexivity.
Qed.

Lemma Clean_elems_child (q n : gostring) :
  q <> [] -> valid_name n = true ->
  Clean_elems (q ++ sep :: n) = n :: Clean_elems q.
Proof.
  intros Hq Hn. unfold Clean_elems.
  rewrite is_abs_app by exact Hq.
  rewrite Split_child by (apply valid_name_spec in Hn; tauto).
  rewrite foldl_app. cbn [foldl]. apply Clean_step_name. exact Hn.
Qed.

Lemma Clean_elems_child_sep (q n : gostring) :
  q <> [] -> valid_name n = true ->
  Clean_elems ((q ++ [sep]) ++ sep :: n) = n :: Clean_elems q.
Proof.
  intros Hq Hn. unfold Clean_elems.
  rewrite <- app_assoc, is_abs_app by exact Hq. rewrite app_assoc.
  rewrite Split_child by (apply valid_name_spec in Hn; tauto).
  rewrite Split_trailing_sep, !foldl_app. cbn [foldl].
  rewrite Clean_step_name by exact Hn. reflexivity.
Qed.

Lemma join_sep_snoc (l : list gostring) (n : gostring) :
  l <> [] -> join_sep (l ++ [n]) = join_sep l ++ sep :: n.
Proof.
  induction l as [|e l IH]; intros Hl; [congruence|].
  destruct l as [|e' l]; [reflexivity|].
  change (join_sep ((e :: e' :: l) ++ [n])) with (e ++ sep :: join_sep ((e' :: l) ++ [n])).
  rewrite IH by discriminate.
  change (join_sep (e :: e' :: l)) with (e ++ sep :: join_sep (e' :: l)).
  rewrite <- app_assoc. reflexivity.
Qed.

(** One more element on a path that [Clean] leaves as it is. *)
Lemma Clean_child (q x n : gostring) :
  tidy q -> is_abs x = is_abs q -> Clean_elems x = n :: Clean_elems q ->
  Clean x = q ++ sep :: n /\ Clean_elems x <> [].
Proof.
  intros [Hclean Hne] Habs Helems. split; [|rewrite Helems; discriminate].
  unfold Clean in *. rewrite Habs, Helems. cbn [rev].
  assert (Hrev : rev (Clean_elems q) <> []).
  { intros H. apply Hne. apply (f_equal (@rev gostring)) in H.
    rewrite rev_involutive in H. exact H. }
  rewrite join_sep_snoc by exact Hrev.
  destruct (is_abs q).
  - change (sep :: join_sep (rev (Clean_elems q)) ++ sep :: n)
      with ((sep :: join_sep (rev (Clean_elems q))) ++ sep :: n).
    f_equal. exact Hclean.
  - destruct (rev (Clean_elems q)) as [|e l]; [congruence|].
    cbn [app]. f_equal. exact Hclean.
Qed.

Lemma clean_base_spec (base : gostring) :
  clean_base base = true -> base <> [] /\ tidy base.
Proof.
  unfold clean_base, tidy. intros [H1 H2]%andb_true_iff.
  apply bool_decide_eq_true in H1. apply negb_true_iff, bool_decide_eq_false in H2.
  split; [|split; assumption]. intros ->. apply H2. reflexivity.
Qed.

Lemma Join_nonempty (path name : gostring) :
  path <> [] -> Join path name = Clean (path ++ SEPARATOR ++ name).
Proof. destruct path; [congruence | reflexivity]. Qed.

Example Clean_examples :
  map Clean [str "/go/src/proj//A"; str "a/b/../c/./d/"; str "a/../.."; str "/../a";
             str "../../a/.."; str "//"; str ""]
  = [str "/go/src/proj/A"; str "a/c/d"; str ".."; str "/a"; str "../.."; str "/"; str "."].
Proof. vm_compute. reflexivity. Qed.

Example Join_examples :
  Join (str "/go/src/proj/") (str "A") = str "/go/src/proj/A" /\
  Join (str "/") (str "x") = str "/x" /\
  Join [] (str "A") = str "A" /\
  Join [] [] = [] /\
  clean_base (str "/go/src/proj") = true /\
  clean_base (str "//src/proj") = false.
Proof. vm_compute. repeat split; reflexivity. Qed.

Lemma dispatched_In (t : list event) (p r : gostring) :
  In (p, r) (dispatched t) <-> In (EvDispatch p r) t.
Proof.
  induction t as [|[q|q s] t IH]; cbn [dispatched In].
  - tauto.
  - rewrite IH. split; [tauto | intros [H|H]; [discriminate | assumption]].
  - rewrite IH. split; intros [H|H]; try tauto; left; congruence.
Qed.

Lemma visited_In (t : list event) (p : gostring) :
  In p (visited t) <-> In (EvWalker p) t.
Proof.
  induction t as [|[q|q s] t IH]; cbn [visited In].
  - tauto.
  - rewrite IH. split; intros [H|H]; try tauto; left; congruence.
  - rewrite IH. split; [tauto | intros [H|H]; [discriminate | assumption]].
Qed.

Section WalkFacts.

Variables srcPath projectFlag : gostring.
Variable ignores : gset gostring.
Variable fs : filesystem.
Variable glob_meta : gostring -> list gostring * option error.

Hypothesis clean_project : clean_base (srcPath ++ projectFlag) = true.

Local Abbreviation pp := (runMain_projectPath srcPath projectFlag).
Local Abbreviation walker' := (walker pp ignores fs glob_meta).
Local Abbreviation walk' := (walk pp ignores fs glob_meta).
Local Abbreviation unignored := (unignored_above ignores).
Local Abbreviation event_ok' := (event_ok pp ignores).

Lemma pp_base : pp = (srcPath ++ projectFlag) ++ [sep].
Proof. unfold runMain_projectPath. rewrite <- app_assoc. reflexivity. Qed.

Lemma Join_child (rel name : gostring) :
  rel_tidy pp rel -> valid_name name = true ->
  Join (pp ++ rel) name = pp ++ child_rel rel name /\
  rel_tidy pp (child_rel rel name).
Proof.
  intros Hrel Hname.
  destruct (clean_base_spec _ clean_project) as [Hbase Htidy].
  assert (Hneq : child_rel rel name <> []).
  { apply valid_name_spec in Hname as [Hne _].
    destruct rel; cbn [child_rel]; [exact Hne | discriminate]. }
  rewrite Join_nonempty by (rewrite pp_base; destruct (srcPath ++ projectFlag); discriminate).
  change (SEPARATOR ++ name) with (sep :: name).
  destruct Hrel as [->|[Hne Hq]].
  - rewrite app_nil_r. cbn [child_rel] in *. rewrite pp_base.
    assert (Hx : ((srcPath ++ projectFlag) ++ [sep]) ++ name
                 = (srcPath ++ projectFlag) ++ sep :: name)
      by (rewrite <- app_assoc; reflexivity).
    destruct (Clean_child (srcPath ++ projectFlag)
                (((srcPath ++ projectFlag) ++ [sep]) ++ sep :: name) name Htidy)
      as [HC _].
    { rewrite <- app_assoc. rewrite !is_abs_app by exact Hbase. reflexivity. }
    { apply Clean_elems_child_sep; assumption. }
    destruct (Clean_child (srcPath ++ projectFlag)
                ((srcPath ++ projectFlag) ++ sep :: name) name Htidy)
      as [HC' HE'].
    { apply is_abs_app. exact Hbase. }
    { apply Clean_elems_child; assumption. }
    rewrite Hx. split; [exact HC|].
    right. split; [exact Hneq|]. rewrite Hx. split; [exact HC' | exact HE'].
  - assert (Hqne : pp ++ rel <> []) by (destruct pp; [assumption | discriminate]).
    destruct (Clean_child (pp ++ rel) ((pp ++ rel) ++ sep :: name) name Hq) as [HC HE].
    + apply is_abs_app. exact Hqne.
    + apply Clean_elems_child; assumption.
    + assert (Heq : (pp ++ rel) ++ sep :: name = pp ++ child_rel rel name).
      { destruct rel as [|c rel]; [congruence|]. cbn [child_rel].
        rewrite <- app_assoc. reflexivity. }
      rewrite Heq in *. split; [exact HC|].
      right. split; [exact Hneq|]. split; assumption.
Qed.

Lemma sep_split_last (x n a rest : gostring) :
  ~ In sep n ->
  x ++ sep :: n = a ++ sep :: rest ->
  (a = x /\ rest = n) \/ exists rest', x = a ++ sep :: rest'.
Proof.
  intros Hn. revert a. induction x as [|c x IH]; intros [|c' a] Heq; cbn [app] in Heq.
  - injection Heq as ->. left. split; reflexivity.
  - injection Heq as <- ->. exfalso. apply Hn. apply in_or_app. right. left. reflexivity.
  - injection Heq as -> <-. right. exists x. reflexivity.
  - injection Heq as -> Heq. destruct (IH a Heq) as [[-> ->]|[rest' ->]].
    + left. split; reflexivity.
    + right. exists rest'. reflexivity.
Qed.

Lemma unignored_above_child (rel name : gostring) :
  valid_name name = true ->
  unignored rel -> rel ∉ ignores ->
  unignored (child_rel rel name).
Proof.
  intros (Hne & Hsep & _)%valid_name_spec Habove Hrel a [_ Ha].
  destruct rel as [|d rel]; cbn [child_rel] in Ha.
  - destruct Ha as [->|[rest ->]]; [assumption|].
    exfalso. apply Hsep. apply in_or_app. right. left. reflexivity.
  - destruct Ha as [->|[rest Heq]].
    + apply Habove. split; [discriminate | left; reflexivity].
    + change (SEPARATOR ++ name) with (sep :: name) in Heq.
      change (SEPARATOR ++ rest) with (sep :: rest) in Heq.
      destruct (sep_split_last _ _ _ _ Hsep Heq) as [[-> _]|[rest' Hx]]; [assumption|].
      apply Habove. split; [discriminate|]. right. exists rest'. exact Hx.
Qed.


Lemma walker_trace (rel : gostring) (info : option FileInfo) (err : option error) :
  unignored rel ->
  Forall event_ok' (snd (walker' (pp ++ rel) info err)).
Proof.
  intros Habove. unfold walker.
  apply bind_trace.
  - constructor; [|constructor]. exists rel. split; [reflexivity | assumption].
  - intros _ _. destruct info as [info|]; [|constructor].
    destruct (negb (IsDir info)); [constructor|].
    rewrite Replace_first_prefix. cbn [app].
    destruct (decide (rel ∈ ignores)) as [Hin|Hnin]; [constructor|].
    destruct (Glob fs glob_meta (rel ++ SEPARATOR ++ str "*_test.go")) as [files gerr].
    destruct ((length files =? 0) || negb (bool_decide (gerr = None))).
    + destruct (negb (bool_decide (gerr = None))); constructor.
    + apply bind_trace; [|intros; constructor].
      constructor; [|constructor]. repeat split; assumption.
Qed.

Lemma walker_dir_nil (rel : gostring) (err : option error) :
  fst (walker' (pp ++ rel) (Some (mkFileInfo true)) err) = Ret None ->
  rel ∉ ignores.
Proof.
  unfold walker. cbn [bind emit IsDir negb].
  rewrite Replace_first_prefix. cbn [app].
  destruct (decide (rel ∈ ignores)) as [Hin|Hnin]; [|intros; assumption].
  cbn. discriminate.
Qed.


Lemma walker_no_error (path : gostring) (info : option FileInfo) (err : option error) :
  no_error (fst (walker' path info err)).
Proof.
  unfold walker. apply bind_result; [intros; exact I|]. intros _ _.
  destruct info as [info|]; [|exact I].
  destruct (negb (IsDir info)); [exact I|].
  destruct (decide (_ ∈ ignores)); [reflexivity|].
  destruct (Glob fs glob_meta _) as [files gerr].
  destruct ((length files =? 0) || negb (bool_decide (gerr = None))).
  - destruct (negb (bool_decide (gerr = None))); exact I.
  - apply bind_result; intros; exact I.
Qed.

Lemma walker_file_nil (path : gostring) (err : option error) :
  fst (walker' path (Some (mkFileInfo false)) err) = Ret None.
Proof. reflexivity. Qed.


Lemma valid_tree_spec (e : entry) :
  valid_tree e = true -> valid_name (entry_name e) = true /\ valid_children e = true.
Proof. destruct e; cbn [valid_tree valid_children entry_name]; intros H%andb_true_iff; exact H. Qed.

Lemma walk_children_trace (rel : gostring) (es : list entry) :
  Forall (fun e => valid_children e = true ->
                   forall rel, rel_tidy pp rel -> unignored rel ->
                               Forall event_ok' (snd (walk' (pp ++ rel) e))) es ->
  forallb valid_tree es = true ->
  rel_tidy pp rel -> unignored rel -> rel ∉ ignores ->
  Forall event_ok' (snd (walk_children pp ignores fs glob_meta walk' (pp ++ rel) es)).
Proof.
  intros IH Hvalid Hrel Habove Hnin.
  induction es as [|e es IHes]; [constructor|].
  cbn [forallb] in Hvalid. apply andb_true_iff in Hvalid as [He Hes].
  apply valid_tree_spec in He as [Hname Hch].
  inversion IH as [|? ? IHe IH']; subst.
  cbn [walk_children].
  destruct (Join_child rel _ Hrel Hname) as [-> Hnts].
  pose proof (unignored_above_child _ _ Hname Habove Hnin) as Hchild.
  destruct e as [n|n r ch|n].
  - apply bind_trace.
    + apply IHe; assumption.
    + intros a _. destruct (negb (bool_decide (a = None))); [constructor | auto].
  - apply bind_trace.
    + apply IHe; assumption.
    + intros a _.
      destruct (negb (bool_decide (a = None)) && negb (bool_decide (a = Some SkipDir)));
        [constructor | auto].
  - apply bind_trace.
    + apply walker_trace. assumption.
    + intros a _.
      destruct (negb (bool_decide (a = None)) && negb (bool_decide (a = Some SkipDir)));
        [constructor | auto].
Qed.

Lemma walk_trace (e : entry) :
  valid_children e = true ->
  forall rel, rel_tidy pp rel -> unignored rel ->
  Forall event_ok' (snd (walk' (pp ++ rel) e)).
Proof.
  induction e as [n|n|n r ch IH] using entry_ind2; intros Hvalid rel Hrel Habove.
  - apply walker_trace. assumption.
  - apply walker_trace. assumption.
  - cbn [walk]. apply bind_trace; [apply walker_trace; assumption|].
    intros err1 Herr1.
    destruct (negb (bool_decide ((if r then None else Some ErrPermission) = None))
              || negb (bool_decide (err1 = None))) eqn:E; [constructor|].
    apply orb_false_iff in E as [_ E]. apply negb_false_iff, bool_decide_eq_true in E.
    subst err1. apply walker_dir_nil in Herr1.
    apply walk_children_trace; assumption.
Qed.

Lemma Walk_trace :
  forallb valid_tree (proj_tree fs) = true ->
  Forall event_ok' (snd (Walk pp ignores fs glob_meta)).
Proof.
  intros Hvalid. unfold Walk. apply bind_trace.
  - assert (Hroot : unignored []) by (intros a [Hne _]; congruence).
    pose proof (walk_trace (Dir [] (proj_readable fs) (proj_tree fs)) Hvalid []
                  (or_introl eq_refl) Hroot) as H.
    rewrite app_nil_r in H. exact H.
  - intros a _. destruct (bool_decide (a = Some SkipDir)); constructor.
Qed.





(** The result of the walk is never an error. *)
Lemma walk_children_no_error (path : gostring) (es : list entry) :
  Forall (fun e => forall path, no_error (fst (walk' path e))) es ->
  forall a, fst (walk_children pp ignores fs glob_meta walk' path es) = Ret a ->
            a = None.
Proof.
  intros IH. induction es as [|e es IHes]; cbn [walk_children].
  - intros a [= <-]. reflexivity.
  - inversion IH as [|? ? IHe IH']; subst. specialize (IHes IH').
    assert (Hstep : forall m : W (option error),
               no_error (fst m) ->
               forall a,
                 fst (err <- m ;;
                      if negb (bool_decide (err = None)) && negb (bool_decide (err = Some SkipDir))
                      then ret err
                      else walk_children pp ignores fs glob_meta walk' path es)
                 = Ret a -> a = None).
    { intros [[[err|]|ab] t] Hm a; cbn [bind fst no_error] in *.
      - subst err.
        rewrite (bool_decide_eq_true_2 (Some SkipDir = Some SkipDir)) by reflexivity.
        cbn [negb]. rewrite andb_false_r.
        destruct (walk_children _ _ _ _ _ path es) as [r t2] eqn:E. cbn [fst] in *. apply IHes.
      - rewrite (bool_decide_eq_true_2 (None = None)) by reflexivity. cbn [negb andb].
        destruct (walk_children _ _ _ _ _ path es) as [r t2] eqn:E. cbn [fst] in *. apply IHes.
      - discriminate. }
    destruct e as [n|n r ch|n].
    + specialize (IHe (Join path n)). cbn [walk] in *.
      intros a. cbn [entry_name]. rewrite (surjective_pairing (walker' _ _ _)).
      rewrite walker_file_nil. cbn [bind]. rewrite bool_decide_eq_true_2 by reflexivity.
      cbn [negb]. destruct (walk_children _ _ _ _ _ path es) as [r t2] eqn:E.
      cbn [fst] in *. apply IHes.
    + apply Hstep. apply IHe.
    + apply Hstep. apply walker_no_error.
Qed.

Lemma walk_no_error (e : entry) : forall path, no_error (fst (walk' path e)).
Proof.
  induction e as [n|n|n r ch IH] using entry_ind2; intros path.
  - apply walker_no_error.
  - apply walker_no_error.
  - cbn [walk]. apply bind_result; [intros; exact I|].
    intros err1 Herr1.
    destruct (negb (bool_decide ((if r then None else Some ErrPermission) = None))
              || negb (bool_decide (err1 = None))) eqn:E.
    + pose proof (walker_no_error path (Some (mkFileInfo true))
                    (if r then None else Some ErrPermission)) as Hw.
      rewrite Herr1 in Hw. exact Hw.
    + pose proof (walk_children_no_error path ch IH) as Hch.
      destruct (walk_children _ _ _ _ _ path ch) as [[a|ab] t]; [|exact I].
      cbn [fst] in *. rewrite (Hch a eq_refl). exact I.
Qed.

Lemma Walk_returns_nil :
  forall e, fst (Walk pp ignores fs glob_meta) <> Ret (Some e).
Proof.
  intros e. unfold Walk.
  pose proof (walk_no_error (Dir [] (proj_readable fs) (proj_tree fs)) pp) as H.
  destruct (walk' pp (Dir [] (proj_readable fs) (proj_tree fs))) as [[[err|]|ab] t];
    cbn [fst bind no_error] in *.
  - subst err. rewrite bool_decide_eq_true_2 by reflexivity. discriminate.
  - cbn. discriminate.
  - discriminate.
Qed.

End WalkFacts.

(** C4, which the code does not keep on every project path. [walker]
    takes the relative path of [path] by removing [projectPath] from it
    as a string, and [filepath.Walk] hands it paths that [filepath.Join]
    has cleaned.

    With [GOPATH=/], which [parseFlags] accepts, [projectPath] is
    [//src/proj/]; the paths below it are [/src/proj/...], nothing is
    removed from them, and no entry of the ignore list is met: on the
    scenario tree [vendor], ignored by default, is dispatched, and so is
    [vendor/dep], and their files are visited. The same happens with an
    absolute project flag, as in [-project=/proj].

    Where the base of the project path is left as it is by
    [filepath.Clean], the claim holds, for every ignore set and every
    project tree with the names of a directory listing (not empty, no
    separator, not ["."] or [".."]): every dispatched directory has a
    relative path that is not in the ignore set and no directory above
    it has one that is; and [walker] is never called on anything below
    an ignored directory. *)
Theorem ignore_set_fails_on_unclean_project_path :
  (snd (parseFlags (gopath_of (str "/")) ex_flags)
   = Continue (str "proj", parseFlags_ignores defaultIgnores) /\
   runMain_projectPath (srcPath_of (gopath_of (str "/"))) (str "proj")
   = str "//src/proj/" /\
   str "vendor" ∈ parseFlags_ignores defaultIgnores /\
   Walk (str "//src/proj/") (parseFlags_ignores defaultIgnores) fs_gopath_root no_meta
   = (Ret None,
      [EvWalker (str "//src/proj/");
       EvWalker (str "/src/proj/A");
       EvDispatch (str "/src/proj/A") (str "/src/proj/A");
       EvWalker (str "/src/proj/A/foo.go");
       EvWalker (str "/src/proj/A/foo_test.go");
       EvWalker (str "/src/proj/B");
       EvWalker (str "/src/proj/B/C");
       EvDispatch (str "/src/proj/B/C") (str "/src/proj/B/C");
       EvWalker (str "/src/proj/B/C/bar_test.go");
       EvWalker (str "/src/proj/vendor");
       EvDispatch (str "/src/proj/vendor") (str "/src/proj/vendor");
       EvWalker (str "/src/proj/vendor/baz_test.go");
       EvWalker (str "/src/proj/vendor/dep");
       EvDispatch (str "/src/proj/vendor/dep") (str "/src/proj/vendor/dep");
       EvWalker (str "/src/proj/vendor/dep/qux_test.go")])) /\
  (snd (parseFlags (gopath_of ex_GOPATH) ex_flags_abs)
   = Continue (str "/proj", parseFlags_ignores defaultIgnores) /\
   runMain_projectPath (srcPath_of (gopath_of ex_GOPATH)) (str "/proj")
   = str "/go/src//proj/" /\
   dispatched (snd (Walk (str "/go/src//proj/") (parseFlags_ignores defaultIgnores)
                      fs_abs_project no_meta))
   = [(str "/go/src/proj/A", str "/go/src/proj/A");
      (str "/go/src/proj/B/C", str "/go/src/proj/B/C");
      (str "/go/src/proj/vendor", str "/go/src/proj/vendor");
      (str "/go/src/proj/vendor/dep", str "/go/src/proj/vendor/dep")]) /\
  (forall (srcPath projectFlag : gostring) (ignores : gset gostring) (fs : filesystem)
          (glob_meta : gostring -> list gostring * option error),
      clean_base (srcPath ++ projectFlag) = true ->
      forallb valid_tree (proj_tree fs) = true ->
      (forall fullPath relPath,
          In (fullPath, relPath)
            (dispatched (snd (Walk (runMain_projectPath srcPath projectFlag)
                                ignores fs glob_meta))) ->
          fullPath = runMain_projectPath srcPath projectFlag ++ relPath /\
          (relPath ∉ ignores) /\
          forall a, ancestor a relPath -> a ∉ ignores) /\
      (forall path,
          In path
            (visited (snd (Walk (runMain_projectPath srcPath projectFlag)
                             ignores fs glob_meta))) ->
          exists rel,
            path = runMain_projectPath srcPath projectFlag ++ rel /\
            forall a, ancestor a rel -> a ∉ ignores)).
Proof.
  split; [|split].
  - split; [vm_compute; reflexivity|].
    split; [vm_compute; reflexivity|].
    split; [|vm_compute; reflexivity].
    apply (bool_decide_unpack (str "vendor" ∈ parseFlags_ignores defaultIgnores)).
    vm_compute. exact I.
  - split; [vm_compute; reflexivity|].
    split; vm_compute; reflexivity.
  - intros srcPath projectFlag ignores fs glob_meta Hclean Hvalid.
    pose proof (Walk_trace srcPath projectFlag ignores fs glob_meta Hclean Hvalid) as H.
    rewrite Forall_forall in H. split.
    + intros p r Hin. apply dispatched_In, list_elem_of_In in Hin.
      exact (H _ Hin).
    + intros p Hin. apply visited_In, list_elem_of_In in Hin.
      exact (H _ Hin).
Qed.


(** * The goroutines *)

Lemma unfinished_app (ws : list worker) (w : worker) :
  unfinished (ws ++ [w]) = unfinished ws + (if is_finished (w_pc w) then 0 else 1).
Proof. induction ws as [|w0 ws IH]; cbn [app unfinished]; [lia | rewrite IH; lia]. Qed.

Lemma unfinished_insert (ws : list worker) (i : nat) (w w' : worker) :
  ws !! i = Some w ->
  unfinished (<[i:=w']> ws) + (if is_finished (w_pc w) then 0 else 1)
  = unfinished ws + (if is_finished (w_pc w') then 0 else 1).
Proof.
  revert i. induction ws as [|w0 ws IH]; intros [|i] H; try discriminate.
  - injection H as ->. cbn [unfinished]. simpl. lia.
  - cbn in H. specialize (IH i H). cbn [unfinished]. simpl. lia.
Qed.

Lemma unfinished_zero (ws : list worker) (i : nat) (w : worker) :
  unfinished ws = 0 -> ws !! i = Some w -> w_pc w = Finished.
Proof.
  revert i. induction ws as [|w0 ws IH]; intros [|i] H0 H; try discriminate.
  - injection H as ->. cbn [unfinished] in H0.
    destruct (w_pc w); simpl in H0; try lia. reflexivity.
  - cbn [unfinished] in H0. apply (IH i); [lia | exact H].
Qed.

Lemma unfinished_pos (ws : list worker) :
  unfinished ws <> 0 -> exists i w, ws !! i = Some w /\ is_finished (w_pc w) = false.
Proof.
  induction ws as [|w0 ws IH]; cbn [unfinished]; intros H; [congruence|].
  destruct (is_finished (w_pc w0)) eqn:E.
  - destruct IH as (i & w & Hi & Hw); [simpl in H; lia|].
    exists (S i), w. split; assumption.
  - exists 0, w0. split; [reflexivity | assumption].
Qed.

Lemma w_dir_insert (ws : list worker) (i : nat) (w w' : worker) :
  ws !! i = Some w -> w_dir w' = w_dir w ->
  map w_dir (<[i:=w']> ws) = map w_dir ws.
Proof.
  revert i. induction ws as [|w0 ws IH]; intros [|i] H Hd; try discriminate.
  - injection H as ->. cbn. rewrite Hd. reflexivity.
  - cbn in H. cbn. f_equal. apply (IH i); assumption.
Qed.

Lemma delivered_app (go_test : gostring -> gostring -> exec_result)
    (ws : list worker) (w : worker) :
  delivered go_test (ws ++ [w]) = delivered go_test ws ++ sent go_test w.
Proof.
  unfold delivered. rewrite map_app, concat_app. cbn. rewrite app_nil_r. reflexivity.
Qed.

Lemma delivered_before_send (go_test : gostring -> gostring -> exec_result)
    (ws : list worker) :
  Forall before_send ws -> delivered go_test ws = [].
Proof.
  induction 1 as [|w ws Hw _ IH]; [reflexivity|].
  unfold delivered in *. cbn [map concat]. rewrite IH, app_nil_r.
  unfold sent. destruct Hw as [->|[b ->]]; reflexivity.
Qed.

Lemma delivered_insert_same (go_test : gostring -> gostring -> exec_result)
    (ws : list worker) (i : nat) (w w' : worker) :
  ws !! i = Some w -> sent go_test w' = sent go_test w ->
  delivered go_test (<[i:=w']> ws) = delivered go_test ws.
Proof.
  revert i. induction ws as [|w0 ws IH]; intros [|i] H Hs; try discriminate.
  - injection H as ->. unfold delivered. cbn. rewrite Hs. reflexivity.
  - cbn in H. unfold delivered in *. cbn. f_equal. apply (IH i); assumption.
Qed.

Lemma delivered_insert_new (go_test : gostring -> gostring -> exec_result)
    (ws : list worker) (i : nat) (w w' : worker) :
  ws !! i = Some w -> sent go_test w = [] ->
  Permutation (delivered go_test ws ++ sent go_test w') (delivered go_test (<[i:=w']> ws)).
Proof.
  revert i. induction ws as [|w0 ws IH]; intros [|i] H Hs; try discriminate.
  - injection H as ->. unfold delivered. cbn [map concat insert list_insert].
    rewrite Hs. cbn [app]. apply Permutation_app_comm.
  - cbn in H. unfold delivered in *. cbn [map concat insert list_insert].
    rewrite <- app_assoc. apply Permutation_app_head. apply (IH i); assumption.
Qed.

Section RunFacts.

Variable coverFlag : gostring.
Variable go_test : gostring -> gostring -> exec_result.
Variable write_ok : bool.
Variable todo0 : list (gostring * gostring).
Variable fin0 : outcome (option error).

Local Abbreviation step' := (step coverFlag go_test write_ok).
Local Abbreviation step_any' := (step_any coverFlag go_test write_ok).
Local Abbreviation inv' := (inv coverFlag go_test todo0 fin0).

Lemma inv_init : inv' (init todo0 fin0).
Proof.
  unfold inv, init. cbn [st_main st_workers st_wg st_closed st_file st_proc]. repeat split; try constructor; try discriminate.
Qed.

Lemma inv_exit (s : state) (code : nat) :
  code <> 0 -> st_main s <> MReturned -> inv' s -> inv' (exit s code).
Proof.
  unfold inv, exit. cbn [st_main st_workers st_wg st_closed st_file st_proc]. intros Hc Hm (H1 & H2 & H3 & H4).
  repeat split; try assumption.
  destruct (st_main s) as [todo fin|covers|]; [| |congruence].
  - destruct H4 as (? & ? & ? & ? & ? & ?). repeat split; try assumption. congruence.
  - destruct H4 as (? & ? & ? & ? & ?). repeat split; try assumption. congruence.
Qed.

Lemma inv_step (l : label) (s s' : state) : step' l s s' -> inv' s -> inv' s'.
Proof.
  intros Hstep (Hwg & Hok & Hcl & Hmain).
  destruct Hstep as [s p r todo fin Hp Hm|s Hp Hm|s e Hp Hm|s Hp Hm|s Hp Hm
                    |s i p r b Hp Hi Hgo|s i p r Hp Hi Hgo
                    |s i p r b covers Hp Hi Hm|s i p r Hp Hi
                    |s covers Hp Hm Hz Hc|s covers Hp Hm Hc Hw|s covers Hp Hm Hc Hw];
    try (apply inv_exit;
         [lia
         |intros HM; rewrite HM in Hmain; destruct Hmain as (_ & _ & Hproc & _); congruence
         |unfold inv; auto]).
  - (* dispatch *)
    rewrite Hm in Hmain. destruct Hmain as (Hd & Hf & Hc & Hfile & Hproc & Hbs).
    unfold inv. cbn [st_main st_workers st_wg st_closed st_file st_proc]. repeat split.
    + rewrite unfinished_app. cbn. lia.
    + apply Forall_app. split; [assumption|]. constructor; [exact I | constructor].
    + rewrite Hc. discriminate.
    + rewrite map_app, <- app_assoc. exact Hd.
    + assumption.
    + assumption.
    + assumption.
    + discriminate.
    + apply Forall_app. split; [assumption|]. constructor; [left; reflexivity | constructor].
  - (* the walk is over *)
    rewrite Hm in Hmain. destruct Hmain as (Hd & Hf & Hc & Hfile & Hproc & Hbs).
    unfold inv. cbn [st_main st_workers st_wg st_closed st_file st_proc]. repeat split; try assumption.
    + rewrite app_nil_r in Hd. exact Hd.
    + congruence.
    + rewrite delivered_before_send by assumption. constructor.
    + discriminate.
  - (* cmd.Run and ReadFile *)
    unfold inv, set_worker. cbn [st_main st_workers st_wg st_closed st_file st_proc]. repeat split.
    + pose proof (unfinished_insert _ _ _ (mkWorker p r (AtSend b)) Hi) as E.
      cbn in E. lia.
    + apply Forall_insert; [assumption | exact Hgo].
    + assumption.
    + destruct (st_main s) as [todo fin|covers|].
      * destruct Hmain as (Hd & Hf & Hc & Hfile & Hproc & Hbs).
        repeat split; try assumption.
        -- rewrite (w_dir_insert _ _ _ _ Hi) by reflexivity. exact Hd.
        -- apply Forall_insert; [assumption | right; exists b; reflexivity].
      * destruct Hmain as (Hd & Hf & Hperm & Hfile & Hproc).
        repeat split; try assumption.
        -- rewrite (w_dir_insert _ _ _ _ Hi) by reflexivity. exact Hd.
        -- rewrite (delivered_insert_same _ _ _ _ _ Hi) by reflexivity. exact Hperm.
      * destruct Hmain as (_ & _ & Hproc & _). congruence.
  - (* the send and the receive *)
    rewrite Hm in Hmain. destruct Hmain as (Hd & Hf & Hperm & Hfile & Hproc).
    assert (Hb : go_test p r = Profile b).
    { rewrite Forall_forall in Hok. apply (Hok (mkWorker p r (AtSend b))).
      apply list_elem_of_lookup. exists i. exact Hi. }
    unfold inv. cbn [st_main st_workers st_wg st_closed st_file st_proc]. repeat split.
    + pose proof (unfinished_insert _ _ _ (mkWorker p r AtDone) Hi) as E.
      cbn in E. lia.
    + apply Forall_insert; [assumption|]. unfold worker_ok. cbn. rewrite Hb. reflexivity.
    + assumption.
    + rewrite (w_dir_insert _ _ _ _ Hi) by reflexivity. exact Hd.
    + assumption.
    + etransitivity; [apply Permutation_app_tail; exact Hperm|].
      pose proof (delivered_insert_new go_test _ _ _ (mkWorker p r AtDone) Hi eq_refl) as E.
      unfold sent at 1 in E. cbn in E. rewrite Hb in E. exact E.
    + assumption.
    + discriminate.
  - (* wg.Done *)
    pose proof (unfinished_insert _ _ _ (mkWorker p r Finished) Hi) as E. cbn in E.
    assert (Hb : is_profile (go_test p r) = true).
    { rewrite Forall_forall in Hok. apply (Hok (mkWorker p r AtDone)).
      apply list_elem_of_lookup. exists i. exact Hi. }
    unfold inv. cbn [st_main st_workers st_wg st_closed st_file st_proc]. repeat split.
    + lia.
    + apply Forall_insert; [assumption | exact Hb].
    + intros Hc. specialize (Hcl Hc). lia.
    + destruct (st_main s) as [todo fin|covers|].
      * destruct Hmain as (Hd & Hf & Hc & Hfile & Hproc & Hbs). exfalso.
        rewrite Forall_forall in Hbs.
        destruct (Hbs (mkWorker p r AtDone)) as [H|[b H]]; try discriminate.
        apply list_elem_of_lookup. exists i. exact Hi.
      * destruct Hmain as (Hd & Hf & Hperm & Hfile & Hproc).
        repeat split; try assumption.
        -- rewrite (w_dir_insert _ _ _ _ Hi) by reflexivity. exact Hd.
        -- rewrite (delivered_insert_same _ _ _ _ _ Hi) by reflexivity. exact Hperm.
        -- discriminate.
      * destruct Hmain as (_ & _ & Hproc & _). congruence.
  - (* close *)
    rewrite Hm in Hmain. unfold inv. cbn [st_main st_workers st_wg st_closed st_file st_proc]. rewrite Hm. repeat split; try assumption.
    all: try (destruct Hmain as (Hd & Hf & Hperm & Hfile & Hproc); assumption).
    + intros _. exact Hz.
    + discriminate.
  - (* the write *)
    rewrite Hm in Hmain. destruct Hmain as (Hd & Hf & Hperm & Hfile & Hproc).
    unfold inv. cbn [st_main st_workers st_wg st_closed st_file st_proc]. repeat split; try assumption.
    + intros _. apply Hcl. exact Hc.
    + apply Hcl. exact Hc.
    + exists covers. split; [assumption | reflexivity].
Qed.

Lemma inv_reachable (s : state) :
  reachable coverFlag go_test write_ok todo0 fin0 s -> inv' s.
Proof.
  unfold reachable. revert s. apply rtc_ind_r; [apply inv_init|].
  intros s1 s2 _ [l Hstep] IH. exact (inv_step l _ _ Hstep IH).
Qed.

(** No deadlock: while the process runs, some goroutine can move. *)
Lemma progress (s : state) :
  inv' s -> st_proc s = Running -> exists l s', step' l s s'.
Proof.
  intros (Hwg & Hok & Hcl & Hmain) Hp.
  destruct (st_main s) as [todo fin|covers|] eqn:Hm.
  - destruct todo as [|[p r] todo].
    + destruct fin as [[e|]|[|]].
      * eexists _, _. eapply step_walk_err; eassumption.
      * eexists _, _. eapply step_walk_nil; eassumption.
      * eexists _, _. eapply step_walk_exit; eassumption.
      * eexists _, _. eapply step_walk_panic; eassumption.
    + eexists _, _. eapply step_dispatch; eassumption.
  - destruct (st_closed s) eqn:Hc.
    + destruct write_ok eqn:Hw.
      * eexists _, _. eapply step_write; first [eassumption | reflexivity].
      * eexists _, _. eapply step_write_fatal; first [eassumption | reflexivity].
    + destruct (Nat.eq_dec (st_wg s) 0) as [Hz|Hnz].
      * eexists _, _. eapply step_close; eassumption.
      * rewrite Hwg in Hnz. apply unfinished_pos in Hnz as (i & [p r pc] & Hi & Hpc).
        cbn in Hpc. destruct pc as [|b| |]; [| | |discriminate].
        -- destruct (go_test p r) as [| | |b] eqn:Hgo.
           ++ eexists _, _. eapply step_run_fatal; [eassumption..|]. rewrite Hgo. reflexivity.
           ++ eexists _, _. eapply step_run_fatal; [eassumption..|]. rewrite Hgo. reflexivity.
           ++ eexists _, _. eapply step_run_fatal; [eassumption..|]. rewrite Hgo. reflexivity.
           ++ eexists _, _. eapply step_run_ok; eassumption.
        -- eexists _, _. eapply step_deliver; eassumption.
        -- eexists _, _. eapply step_done; eassumption.
  - destruct Hmain as (_ & _ & Hproc & _). congruence.
Qed.

Lemma step_worker_persists (l : label) (s s' : state) (i : nat) (w : worker) :
  step' l s s' -> st_workers s !! i = Some w ->
  exists w', st_workers s' !! i = Some w' /\ w_dir w' = w_dir w.
Proof.
  intros Hstep Hw.
  assert (Hins : forall j v v', st_workers s !! j = Some v -> w_dir v' = w_dir v ->
            exists w', <[j:=v']> (st_workers s) !! i = Some w' /\ w_dir w' = w_dir w).
  { intros j v v' Hj Hd. destruct (decide (i = j)) as [->|Hne].
    - exists v'. split; [|congruence].
      apply list_lookup_insert_eq. apply lookup_lt_Some in Hj. exact Hj.
    - exists w. split; [|reflexivity]. rewrite list_lookup_insert_ne by congruence. exact Hw. }
  destruct Hstep; cbn [st_workers exit set_worker];
    try (exists w; split; [assumption | reflexivity]);
    try (eapply Hins; [eassumption | reflexivity]).
  exists w. split; [|reflexivity]. apply lookup_app_l_Some. exact Hw.
Qed.

Lemma steps_worker_persist (s s' : state) (i : nat) (w : worker) :
  rtc step_any' s s' -> st_workers s !! i = Some w ->
  exists w', st_workers s' !! i = Some w' /\ w_dir w' = w_dir w.
Proof.
  intros H. revert w. induction H as [s|s1 s2 s3 [l Hstep] _ IH]; intros w Hw.
  - exists w. split; [assumption | reflexivity].
  - destruct (step_worker_persists _ _ _ _ _ Hstep Hw) as (w1 & Hw1 & Hd1).
    destruct (IH _ Hw1) as (w2 & Hw2 & Hd2). exists w2. split; [assumption | congruence].
Qed.

End RunFacts.

(** ** Runs without a dispatch *)

Section NoDispatch.

Variable coverFlag : gostring.
Variable go_test : gostring -> gostring -> exec_result.

Local Abbreviation step_any' := (step_any coverFlag go_test true).

Lemma testFiles_final_nil : testFiles_final coverFlag [] = header coverFlag.
Proof. reflexivity. Qed.

Lemma no_dispatch_states (s : state) :
  reachable coverFlag go_test true [] (Ret None) s ->
  s = mkState (MWalk [] (Ret None)) [] 0 false None Running \/
  s = mkState (MRange []) [] 0 false None Running \/
  s = mkState (MRange []) [] 0 true None Running \/
  s = mkState MReturned [] 0 true (Some (header coverFlag)) (Exited 0).
Proof.
  unfold reachable. revert s. apply rtc_ind_r; [left; reflexivity|].
  intros s1 s2 _ [l Hstep] [ -> | [ -> | [ -> | -> ] ] ];
    inversion Hstep; subst; cbn in *; try discriminate; auto.
  - match goal with H : MRange _ = MRange _ |- _ => injection H as <- end. auto.
Qed.

Lemma no_dispatch_run (s : state) :
  reachable coverFlag go_test true [] (Ret None) s ->
  st_workers s = [] /\
  (st_proc s <> Running ->
   st_proc s = Exited 0 /\ st_file s = Some (header coverFlag)) /\
  exists s', rtc step_any' s s' /\
             st_proc s' = Exited 0 /\ st_file s' = Some (header coverFlag).
Proof.
  intros H. apply no_dispatch_states in H.
  assert (H3 : step_any' (mkState (MRange []) [] 0 true None Running)
                 (mkState MReturned [] 0 true (Some (header coverFlag)) (Exited 0))).
  { exists LMain. rewrite <- testFiles_final_nil.
    exact (step_write coverFlag go_test true
             (mkState (MRange []) [] 0 true None Running) [] eq_refl eq_refl eq_refl eq_refl). }
  assert (H2 : step_any' (mkState (MRange []) [] 0 false None Running)
                 (mkState (MRange []) [] 0 true None Running)).
  { exists LCloser.
    exact (step_close coverFlag go_test true
             (mkState (MRange []) [] 0 false None Running) [] eq_refl eq_refl eq_refl eq_refl). }
  assert (H1 : step_any' (mkState (MWalk [] (Ret None)) [] 0 false None Running)
                 (mkState (MRange []) [] 0 false None Running)).
  { exists LMain.
    exact (step_walk_nil coverFlag go_test true
             (mkState (MWalk [] (Ret None)) [] 0 false None Running) eq_refl eq_refl). }
  destruct H as [ -> | [ -> | [ -> | -> ] ] ]; cbn [st_workers st_proc st_file];
    (split; [reflexivity|]); (split; [intros Hp; first [exfalso; apply Hp; reflexivity | split; reflexivity]|]);
    exists (mkState MReturned [] 0 true (Some (header coverFlag)) (Exited 0));
    (split; [|split; reflexivity]).
  - eapply rtc_l; [exact H1|]. eapply rtc_l; [exact H2|]. apply rtc_once. exact H3.
  - eapply rtc_l; [exact H2|]. apply rtc_once. exact H3.
  - apply rtc_once. exact H3.
  - apply rtc_refl.
Qed.

End NoDispatch.


Example Split_examples :
  Split (str ".git,vendor") ","%char = [str ".git"; str "vendor"] /\
  Split (str ".git,,vendor") ","%char = [str ".git"; []; str "vendor"] /\
  Split (str ".git,vendor,") ","%char = [str ".git"; str "vendor"; []] /\
  Split [] ","%char = [[]].
Proof. repeat split; reflexivity. Qed.

Lemma elem_of_parseFlags_ignores (ignoreFlag v : gostring) :
  v ∈ parseFlags_ignores ignoreFlag <-> In v (Split ignoreFlag ","%char).
Proof.
  unfold parseFlags_ignores.
  assert (H : forall (l : list gostring) (X : gset gostring),
             v ∈ foldl (fun ignores v => {[ v ]} ∪ ignores) X l <-> v ∈ X \/ In v l).
  { induction l as [|x l IH]; intros X; cbn [foldl In].
    - split; [tauto | intros [H|[]]; exact H].
    - rewrite IH. rewrite elem_of_union, elem_of_singleton.
      split; [intros [[->|H]|H]; auto | intros [H|[->|H]]; auto]. }
  rewrite H. split; [intros [Hv|Hv]; [|exact Hv] | auto].
  apply not_elem_of_empty in Hv. destruct Hv.
Qed.

Lemma Replace_first_self (p : gostring) : Replace_first p p [] = [].
Proof.
  pose proof (Replace_first_prefix p [] []) as H. rewrite app_nil_r in H. exact H.
Qed.

Lemma Walk_root_ignored (projectPath : gostring) (ignores : gset gostring)
    (fs : filesystem) (glob_meta : gostring -> list gostring * option error) :
  [] ∈ ignores ->
  Walk projectPath ignores fs glob_meta = (Ret None, [EvWalker projectPath]).
Proof.
  intros Hin. unfold Walk. cbn [walk]. unfold walker.
  cbn [bind emit IsDir negb].
  rewrite Replace_first_self.
  case_decide; [|contradiction].
  destruct (proj_readable fs); reflexivity.
Qed.

(** C10. When the ignore list has an empty entry, the empty string is in
    the ignore set; the project directory, whose relative path is the
    empty string, is skipped, so the walk calls [walker] once and
    dispatches nothing; no state of the run has a worker, and (when the
    output file can be written) the run ends in success with a report
    that is the header line alone. *)
Theorem empty_ignore_entry_prunes_root (coverFlag : gostring)
    (go_test : gostring -> gostring -> exec_result)
    (projectPath ignoreFlag : gostring) (fs : filesystem)
    (glob_meta : gostring -> list gostring * option error) :
  In [] (Split ignoreFlag ","%char) ->
  [] ∈ parseFlags_ignores ignoreFlag /\
  Walk projectPath (parseFlags_ignores ignoreFlag) fs glob_meta
  = (Ret None, [EvWalker projectPath]) /\
  forall s,
    testFiles_reachable coverFlag go_test true projectPath
      (parseFlags_ignores ignoreFlag) fs glob_meta s ->
    st_workers s = [] /\
    (st_proc s <> Running ->
     st_proc s = Exited 0 /\ st_file s = Some (header coverFlag)) /\
    exists s', rtc (step_any coverFlag go_test true) s s' /\
               st_proc s' = Exited 0 /\ st_file s' = Some (header coverFlag).
Proof.
  intros Hsplit.
  assert (Hin : [] ∈ parseFlags_ignores ignoreFlag)
    by (apply elem_of_parseFlags_ignores; exact Hsplit).
  split; [exact Hin|]. split; [apply Walk_root_ignored; exact Hin|].
  intros s. unfold testFiles_reachable, testFiles_init.
  rewrite Walk_root_ignored by exact Hin. cbn [fst snd dispatched].
  apply no_dispatch_run.
Qed.

(** ** What is written

    The file that a run writes is the merge of the profiles of all
    dispatched directories, each received once, in some order. *)

Lemma delivered_all_finished (go_test : gostring -> gostring -> exec_result)
    (ws : list worker) :
  unfinished ws = 0 -> delivered go_test ws = profiles go_test (map w_dir ws).
Proof.
  induction ws as [|w ws IH]; intros H; [reflexivity|].
  cbn [unfinished] in H. unfold delivered, profiles in *. cbn [map concat].
  rewrite IH by lia. f_equal. unfold sent, w_dir. cbn [fst snd].
  destruct (w_pc w); cbn in H; try lia. reflexivity.
Qed.

Lemma written_file_is_merge (coverFlag : gostring)
    (go_test : gostring -> gostring -> exec_result) (write_ok : bool)
    (todo : list (gostring * gostring)) (fin : outcome (option error))
    (s : state) (f : gostring) :
  reachable coverFlag go_test write_ok todo fin s ->
  st_file s = Some f ->
  exists covers,
    Permutation covers (profiles go_test todo) /\
    f = testFiles_final coverFlag covers.
Proof.
  intros Hs Hf. apply inv_reachable in Hs as (Hwg & _ & _ & Hmain).
  destruct (st_main s) as [todo' fin'|covers|].
  - destruct Hmain as (_ & _ & _ & Hnone & _). congruence.
  - destruct Hmain as (_ & _ & _ & Hnone & _). congruence.
  - destruct Hmain as (Hd & _ & _ & Hz & covers & Hperm & Hfile).
    exists covers. split; [|congruence].
    rewrite Hwg in Hz. rewrite (delivered_all_finished _ _ Hz), Hd in Hperm. exact Hperm.
Qed.

(** ** A failing worker *)

(** C6. Once a worker is dispatched for a directory where the external
    command fails (an error from [cmd.Run()], a nonzero exit status among
    them) or the profile cannot be read, no later state of the run has
    the output file written or the process ended in success; and as long
    as the process runs, that worker's next step ends it with status 1. *)
Theorem worker_failure_is_fatal (coverFlag : gostring)
    (go_test : gostring -> gostring -> exec_result) (write_ok : bool)
    (todo : list (gostring * gostring)) (fin : outcome (option error))
    (s0 : state) (i : nat) (w : worker) :
  reachable coverFlag go_test write_ok todo fin s0 ->
  st_workers s0 !! i = Some w ->
  is_profile (go_test (w_fullPath w) (w_relPath w)) = false ->
  forall s,
    rtc (step_any coverFlag go_test write_ok) s0 s ->
    st_file s = None /\
    st_proc s <> Exited 0 /\
    (st_proc s = Running ->
     step coverFlag go_test write_ok (LWorker i) s (exit s 1)).
Proof.
  intros Hs0 Hw Hfail s Hs.
  assert (Hinv : inv coverFlag go_test todo fin s).
  { apply (inv_reachable _ _ write_ok). unfold reachable in *.
    etransitivity; eassumption. }
  destruct (steps_worker_persist _ _ _ _ _ _ _ Hs Hw) as ([p r pc] & Hw' & Hd).
  destruct w as [p0 r0 pc0]. unfold w_dir in Hd. cbn in Hd, Hfail. injection Hd as -> ->.
  destruct Hinv as (Hwg & Hok & Hcl & Hmain).
  assert (Hpc : pc = AtRun).
  { rewrite Forall_forall in Hok.
    assert (Hin : mkWorker p0 r0 pc ∈ st_workers s)
      by (apply list_elem_of_lookup; exists i; exact Hw').
    specialize (Hok _ Hin). unfold worker_ok in Hok. cbn in Hok.
    destruct pc as [|b| |]; [reflexivity | | |]; rewrite ?Hok in Hfail;
      cbn in Hfail; congruence. }
  subst pc.
  assert (Hmain' : st_file s = None /\ st_proc s <> Exited 0).
  { destruct (st_main s) as [todo' fin'|covers|].
    - destruct Hmain as (_ & _ & _ & Hf & Hp & _). split; assumption.
    - destruct Hmain as (_ & _ & _ & Hf & Hp). split; assumption.
    - destruct Hmain as (_ & _ & _ & Hz & _). exfalso.
      rewrite Hwg in Hz. pose proof (unfinished_zero _ _ _ Hz Hw') as Hfin.
      discriminate. }
  destruct Hmain' as [Hf Hp]. repeat split; [assumption | assumption |].
  intros Hrun. eapply step_run_fatal; eassumption.
Qed.

(** ** The results channel *)

(** C7, as amended. The channel has no buffer. In every state of a run:
    a worker at its send can complete it exactly when the process runs
    and the main goroutine is in its receiving loop, which it enters
    right after the walk, while workers may still be running; the wait
    group counts the workers that have not finished, and the channel is
    closed only when all have; what the main goroutine has received is,
    up to order, what the workers past their send have handed over, each
    profile once; and while the process runs some goroutine can move. *)
Theorem workers_block_until_received (coverFlag : gostring)
    (go_test : gostring -> gostring -> exec_result) (write_ok : bool)
    (todo : list (gostring * gostring)) (fin : outcome (option error))
    (s : state) :
  reachable coverFlag go_test write_ok todo fin s ->
  (forall i p r b,
      st_workers s !! i = Some (mkWorker p r (AtSend b)) ->
      ((exists s', step coverFlag go_test write_ok (LDeliver i) s s') <->
       (st_proc s = Running /\ exists covers, st_main s = MRange covers))) /\
  st_wg s = unfinished (st_workers s) /\
  (st_closed s = true ->
   forall i w, st_workers s !! i = Some w -> w_pc w = Finished) /\
  (forall covers,
      st_main s = MRange covers ->
      Permutation covers (delivered go_test (st_workers s))) /\
  (st_proc s = Running ->
   exists l s', step coverFlag go_test write_ok l s s').
Proof.
  intros Hs. pose proof (inv_reachable _ _ _ _ _ _ Hs) as Hinv.
  pose proof Hinv as (Hwg & Hok & Hcl & Hmain).
  split; [|split; [|split; [|split]]].
  - intros i p r b Hi. split.
    + intros [s' Hstep]. inversion Hstep; subst. split; [assumption|]. eauto.
    + intros [Hp [covers Hm]]. eexists. eapply step_deliver; eassumption.
  - exact Hwg.
  - intros Hc i w Hi. specialize (Hcl Hc). rewrite Hwg in Hcl.
    exact (unfinished_zero _ _ _ Hcl Hi).
  - intros covers Hm. rewrite Hm in Hmain.
    destruct Hmain as (_ & _ & Hperm & _). exact Hperm.
  - intros Hp. exact (progress _ _ _ _ _ _ Hinv Hp).
Qed.

(** ** The walk on example trees *)

Example Walk_scenario :
  dispatched (snd (Walk ex_projectPath (parseFlags_ignores defaultIgnores) fs_scenario no_meta))
  = [(str "/go/src/proj/A", str "A"); (str "/go/src/proj/B/C", str "B/C")] /\
  visited (snd (Walk ex_projectPath (parseFlags_ignores defaultIgnores) fs_scenario no_meta))
  = [str "/go/src/proj/"; str "/go/src/proj/A"; str "/go/src/proj/A/foo.go";
     str "/go/src/proj/A/foo_test.go"; str "/go/src/proj/B"; str "/go/src/proj/B/C";
     str "/go/src/proj/B/C/bar_test.go"; str "/go/src/proj/vendor"].
Proof. split; vm_compute; reflexivity. Qed.

Lemma length_filter_existsb (P : gostring -> bool) (f : gostring -> gostring)
    (l : list gostring) :
  (length (map f (filter (fun n => P n = true) l)) =? 0) = negb (existsb P l).
Proof.
  induction l as [|x l IH]; [reflexivity|].
  cbn [existsb]. rewrite filter_cons. destruct (decide (P x = true)) as [E|E].
  - rewrite E. reflexivity.
  - apply not_true_is_false in E. rewrite E. exact IH.
Qed.

Lemma Glob_root (fs : filesystem) (glob_meta : gostring -> list gostring * option error) :
  Glob fs glob_meta ([] ++ SEPARATOR ++ str "*_test.go")
  = (map (Join SEPARATOR)
       (filter (fun n => Match (str "*_test.go") n = true) (map entry_name (fs_root fs))),
     None).
Proof. reflexivity. Qed.

Lemma walker_root (projectPath : gostring) (ignores : gset gostring) (fs : filesystem)
    (glob_meta : gostring -> list gostring * option error) (err : option error) :
  dispatched (snd (walker projectPath ignores fs glob_meta projectPath
                     (Some (mkFileInfo true)) err))
  = if decide ([] ∈ ignores) then []
    else if existsb (Match (str "*_test.go")) (map entry_name (fs_root fs))
         then [(projectPath, [])]
         else [].
Proof.
  unfold walker. cbn [bind emit IsDir negb]. rewrite Replace_first_self.
  case_decide; [case_decide; [reflexivity | contradiction]|].
  case_decide; [contradiction|].
  rewrite Glob_root. rewrite length_filter_existsb.
  destruct (existsb (Match (str "*_test.go")) (map entry_name (fs_root fs))); reflexivity.
Qed.

(** ** Directories below the project directory

    For a directory below the project directory the pattern given to
    [filepath.Glob] is relative: it is resolved from the working
    directory, which is the project directory, so the walker looks into
    the directory that its relative path names from there. *)

Lemma SplitPath_no_sep (f : gostring) : ~ In sep f -> SplitPath f = ([], f).
Proof.
  induction f as [|c f IH]; intros Hf; [reflexivity|].
  cbn [SplitPath]. rewrite IH by (intros Hin; apply Hf; right; exact Hin).
  destruct (Ascii.eqb c sep) eqn:E; [|reflexivity].
  apply Ascii.eqb_eq in E as ->. exfalso. apply Hf. left. reflexivity.
Qed.

Lemma SplitPath_dir (d f : gostring) :
  ~ In sep f -> SplitPath (d ++ sep :: f) = (d ++ [sep], f).
Proof.
  intros Hf. induction d as [|c d IH]; cbn [app SplitPath].
  - rewrite SplitPath_no_sep by exact Hf. rewrite Ascii.eqb_refl. reflexivity.
  - rewrite IH. destruct (d ++ [sep]) eqn:E; [destruct d; discriminate|].
    reflexivity.
Qed.

Lemma cleanGlobPath_dir (rel : gostring) :
  rel <> [] -> cleanGlobPath (rel ++ [sep]) = rel.
Proof.
  intros Hrel. unfold cleanGlobPath.
  destruct (rel ++ [sep]) eqn:E; [destruct rel; discriminate|]. rewrite <- E.
  destruct (decide _) as [Hs|Hs].
  - exfalso. destruct rel as [|c rel]; [congruence|].
    change SEPARATOR with [sep] in Hs. destruct rel; discriminate.
  - apply removelast_last.
Qed.

Lemma Glob_below_root (fs : filesystem)
    (glob_meta : gostring -> list gostring * option error) (rel : gostring) :
  rel <> [] -> hasMeta rel = false ->
  Glob fs glob_meta (rel ++ SEPARATOR ++ str "*_test.go")
  = (glob fs rel (str "*_test.go"), None).
Proof.
  intros Hrel Hmeta. unfold Glob.
  change (SEPARATOR ++ str "*_test.go") with (sep :: str "*_test.go").
  rewrite SplitPath_dir by (vm_compute; intuition discriminate).
  rewrite cleanGlobPath_dir by exact Hrel. rewrite Hmeta. reflexivity.
Qed.

Lemma walker_below_root (projectPath : gostring) (ignores : gset gostring)
    (fs : filesystem) (glob_meta : gostring -> list gostring * option error)
    (rel : gostring) (err : option error) :
  rel <> [] -> hasMeta rel = false ->
  dispatched (snd (walker projectPath ignores fs glob_meta (projectPath ++ rel)
                     (Some (mkFileInfo true)) err))
  = if decide (rel ∈ ignores) then []
    else match readdirnames fs rel with
         | Some names =>
             if existsb (Match (str "*_test.go")) names
             then [(projectPath ++ rel, rel)]
             else []
         | None => []
         end.
Proof.
  intros Hrel Hmeta. unfold walker. cbn [bind emit IsDir negb].
  rewrite Replace_first_prefix. cbn [app].
  case_decide; [reflexivity|].
  rewrite Glob_below_root by assumption. unfold glob.
  destruct (readdirnames fs rel) as [names|]; [|reflexivity].
  rewrite length_filter_existsb.
  destruct (existsb (Match (str "*_test.go")) names); reflexivity.
Qed.

Example walker_at_B_C :
  readdirnames fs_scenario (str "B/C") = Some [str "bar_test.go"] /\
  dispatched (snd (walker ex_projectPath (parseFlags_ignores defaultIgnores) fs_scenario
                     no_meta (str "/go/src/proj/B/C") (Some (mkFileInfo true)) None))
  = [(str "/go/src/proj/B/C", str "B/C")].
Proof. split; vm_compute; reflexivity. Qed.

(** C3, where the code departs from it. For the project directory
    [walker] computes the relative path [""] and gives [filepath.Glob]
    the pattern ["/*_test.go"], which is absolute: it looks for the test
    files of the project directory in ["/"]. With an ignore set without
    the empty string, the project directory is dispatched exactly when
    the root directory of the file system has a name that matches
    ["*_test.go"]: a project directory with [main_test.go] is not
    dispatched, and one without test files is when ["/"] has one. Below
    the project directory the pattern is relative and the walker looks
    into the directory that the relative path names. *)
Theorem project_root_globs_slash :
  (forall projectPath ignores fs glob_meta err,
      dispatched (snd (walker projectPath ignores fs glob_meta projectPath
                         (Some (mkFileInfo true)) err))
      = if decide ([] ∈ ignores) then []
        else if existsb (Match (str "*_test.go")) (map entry_name (fs_root fs))
             then [(projectPath, [])]
             else []) /\
  dispatched (snd (Walk ex_projectPath (parseFlags_ignores defaultIgnores)
                     fs_root_tests no_meta))
  = [(str "/go/src/proj/A", str "A")] /\
  dispatched (snd (Walk ex_projectPath (parseFlags_ignores defaultIgnores)
                     fs_slash_tests no_meta))
  = [(str "/go/src/proj/", [])] /\
  (forall projectPath ignores fs glob_meta rel err,
      rel <> [] -> hasMeta rel = false ->
      dispatched (snd (walker projectPath ignores fs glob_meta (projectPath ++ rel)
                         (Some (mkFileInfo true)) err))
      = if decide (rel ∈ ignores) then []
        else match readdirnames fs rel with
             | Some names =>
                 if existsb (Match (str "*_test.go")) names
                 then [(projectPath ++ rel, rel)]
                 else []
             | None => []
             end).
Proof.
  split; [intros; apply walker_root|].
  split; [vm_compute; reflexivity|].
  split; [vm_compute; reflexivity|].
  intros. apply walker_below_root; assumption.
Qed.

(** ** Example runs *)

Lemma worker_failure_is_fatal_witness :
  st_file st_one_dispatched = None /\
  st_proc st_one_dispatched <> Exited 0 /\
  (st_proc st_one_dispatched = Running ->
   step (str "count") go_test_fails true (LWorker 0) st_one_dispatched
     (exit st_one_dispatched 1)).
Proof.
  apply (worker_failure_is_fatal (str "count") go_test_fails true
           [(str "/go/src/proj/A", str "A")] (Ret None) st_one_dispatched 0
           (mkWorker (str "/go/src/proj/A") (str "A") AtRun)).
  - apply rtc_once. exists LMain.
    exact (step_dispatch (str "count") go_test_fails true
             (init [(str "/go/src/proj/A", str "A")] (Ret None))
             (str "/go/src/proj/A") (str "A") [] (Ret None) eq_refl eq_refl).
  - reflexivity.
  - reflexivity.
  - apply rtc_refl.
Defined.

Lemma workers_block_until_received_witness :
  (forall i p r b,
      st_workers st_sender_waits !! i = Some (mkWorker p r (AtSend b)) ->
      ((exists s', step (str "count") go_test_ok true (LDeliver i) st_sender_waits s') <->
       (st_proc st_sender_waits = Running /\
        exists covers, st_main st_sender_waits = MRange covers))) /\
  st_wg st_sender_waits = unfinished (st_workers st_sender_waits) /\
  (st_closed st_sender_waits = true ->
   forall i w, st_workers st_sender_waits !! i = Some w -> w_pc w = Finished) /\
  (forall covers,
      st_main st_sender_waits = MRange covers ->
      Permutation covers (delivered go_test_ok (st_workers st_sender_waits))) /\
  (st_proc st_sender_waits = Running ->
   exists l s', step (str "count") go_test_ok true l st_sender_waits s').
Proof.
  apply (workers_block_until_received (str "count") go_test_ok true
           todo_two (Ret None) st_sender_waits).
  unfold reachable. eapply rtc_l.
  - exists LMain.
    exact (step_dispatch _ _ _ (init todo_two (Ret None)) _ _ _ _ eq_refl eq_refl).
  - apply rtc_once. exists (LWorker 0).
    exact (step_run_ok _ go_test_ok _
             (mkState (MWalk [(str "/go/src/proj/B", str "B")] (Ret None))
                [mkWorker (str "/go/src/proj/A") (str "A") AtRun] 1 false None Running)
             0 _ _ profile_b eq_refl eq_refl eq_refl).
Defined.

(** C7 as stated fails. With two directories to dispatch: after the
    first worker has its profile, it stands at its send while the main
    goroutine is still in the walk, and cannot complete the send; and
    after the walk the main goroutine has received that profile while
    the wait group still counts both workers. *)
Lemma workers_never_block_counterexample :
  reachable (str "count") go_test_ok true todo_two (Ret None) st_sender_waits /\
  st_workers st_sender_waits !! 0
  = Some (mkWorker (str "/go/src/proj/A") (str "A") (AtSend profile_b)) /\
  ~ (exists s', step (str "count") go_test_ok true (LDeliver 0) st_sender_waits s') /\
  reachable (str "count") go_test_ok true todo_two (Ret None) st_received_early /\
  st_main st_received_early = MRange [profile_b] /\
  st_wg st_received_early = 2.
Proof.
  assert (H1 : reachable (str "count") go_test_ok true todo_two (Ret None) st_sender_waits).
  { unfold reachable. eapply rtc_l.
    - exists LMain.
      exact (step_dispatch _ _ _ (init todo_two (Ret None)) _ _ _ _ eq_refl eq_refl).
    - apply rtc_once. exists (LWorker 0).
      exact (step_run_ok _ go_test_ok _
               (mkState (MWalk [(str "/go/src/proj/B", str "B")] (Ret None))
                  [mkWorker (str "/go/src/proj/A") (str "A") AtRun] 1 false None Running)
               0 _ _ profile_b eq_refl eq_refl eq_refl). }
  split; [exact H1|]. split; [reflexivity|]. split; [|split; [|split; reflexivity]].
  - intros [s' Hstep]. inversion Hstep; subst. cbn in *. discriminate.
  - unfold reachable in *. etransitivity; [exact H1|].
    eapply rtc_l.
    + exists LMain. exact (step_dispatch _ _ _ st_sender_waits _ _ _ _ eq_refl eq_refl).
    + eapply rtc_l.
      * exists LMain.
        exact (step_walk_nil _ _ _
                 (mkState (MWalk [] (Ret None))
                    [mkWorker (str "/go/src/proj/A") (str "A") (AtSend profile_b);
                     mkWorker (str "/go/src/proj/B") (str "B") AtRun]
                    2 false None Running) eq_refl eq_refl).
      * apply rtc_once. exists (LDeliver 0).
        exact (step_deliver _ _ _
                 (mkState (MRange [])
                    [mkWorker (str "/go/src/proj/A") (str "A") (AtSend profile_b);
                     mkWorker (str "/go/src/proj/B") (str "B") AtRun]
                    2 false None Running)
                 0 _ _ profile_b [] eq_refl eq_refl eq_refl).
Qed.


Lemma empty_ignore_entry_prunes_root_witness :
  [] ∈ parseFlags_ignores (str ".git,vendor,") /\
  Walk ex_projectPath (parseFlags_ignores (str ".git,vendor,")) fs_scenario no_meta
  = (Ret None, [EvWalker ex_projectPath]) /\
  forall s,
    testFiles_reachable (str "count") go_test_ok true ex_projectPath
      (parseFlags_ignores (str ".git,vendor,")) fs_scenario no_meta s ->
    st_workers s = [] /\
    (st_proc s <> Running ->
     st_proc s = Exited 0 /\ st_file s = Some (header (str "count"))) /\
    exists s', rtc (step_any (str "count") go_test_ok true) s s' /\
               st_proc s' = Exited 0 /\ st_file s' = Some (header (str "count")).
Proof.
  apply empty_ignore_entry_prunes_root.
  vm_compute. right. right. left. reflexivity.
Defined.

(** C5, where the code departs from it. [walker] does not look at its
    [err] argument and returns nothing but nil and [SkipDir], so
    [filepath.Walk] never returns an error and the [logger.Fatalf] after
    it is never reached. With a directory [a] that cannot be listed next
    to [b]: the walk goes on to [b] and dispatches it, and the run ends
    in success with a report that has nothing of [a]. *)
Theorem unreadable_directory_not_fatal :
  (forall srcPath projectFlag ignores fs glob_meta e,
      fst (Walk (runMain_projectPath srcPath projectFlag) ignores fs glob_meta)
      <> Ret (Some e)) /\
  Walk ex_projectPath (parseFlags_ignores defaultIgnores) fs_unreadable no_meta
  = (Ret None,
     [EvWalker (str "/go/src/proj/"); EvWalker (str "/go/src/proj/a");
      EvWalker (str "/go/src/proj/b"); EvDispatch (str "/go/src/proj/b") (str "b");
      EvWalker (str "/go/src/proj/b/b_test.go")]) /\
  exists s,
    testFiles_reachable (str "count") go_test_ok true ex_projectPath
      (parseFlags_ignores defaultIgnores) fs_unreadable no_meta s /\
    st_proc s = Exited 0 /\
    st_file s = Some (render (mkArtifact (str "count") [str "proj/b/b.go:3.2,5.4 1 1"])).
Proof.
  split; [intros; apply Walk_returns_nil|].
  assert (HW : Walk ex_projectPath (parseFlags_ignores defaultIgnores) fs_unreadable no_meta
               = (Ret None,
                  [EvWalker (str "/go/src/proj/"); EvWalker (str "/go/src/proj/a");
                   EvWalker (str "/go/src/proj/b");
                   EvDispatch (str "/go/src/proj/b") (str "b");
                   EvWalker (str "/go/src/proj/b/b_test.go")]))
    by (vm_compute; reflexivity).
  split; [exact HW|].
  unfold testFiles_reachable, testFiles_init. rewrite HW. cbn [fst snd dispatched].
  eexists. split; [|split].
  - eapply rtc_l.
    { exists LMain. exact (step_dispatch _ _ _ (init _ _) _ _ _ _ eq_refl eq_refl). }
    eapply rtc_l.
    { exists LMain.
      exact (step_walk_nil _ _ _
               (mkState (MWalk [] (Ret None))
                  [mkWorker (str "/go/src/proj/b") (str "b") AtRun] 1 false None Running)
               eq_refl eq_refl). }
    eapply rtc_l.
    { exists (LWorker 0).
      exact (step_run_ok _ go_test_ok _
               (mkState (MRange [])
                  [mkWorker (str "/go/src/proj/b") (str "b") AtRun] 1 false None Running)
               0 _ _ profile_b eq_refl eq_refl eq_refl). }
    eapply rtc_l.
    { exists (LDeliver 0).
      exact (step_deliver _ _ _
               (mkState (MRange [])
                  [mkWorker (str "/go/src/proj/b") (str "b") (AtSend profile_b)]
                  1 false None Running)
               0 _ _ profile_b [] eq_refl eq_refl eq_refl). }
    eapply rtc_l.
    { exists (LWorker 0).
      exact (step_done _ _ _
               (mkState (MRange [profile_b])
                  [mkWorker (str "/go/src/proj/b") (str "b") AtDone]
                  1 false None Running)
               0 _ _ eq_refl eq_refl). }
    eapply rtc_l.
    { exists LCloser.
      exact (step_close _ _ _
               (mkState (MRange [profile_b])
                  [mkWorker (str "/go/src/proj/b") (str "b") Finished]
                  0 false None Running)
               [profile_b] eq_refl eq_refl eq_refl eq_refl). }
    apply rtc_once. exists LMain.
    exact (step_write _ _ _
             (mkState (MRange [profile_b])
                [mkWorker (str "/go/src/proj/b") (str "b") Finished]
                0 true None Running)
             [profile_b] eq_refl eq_refl eq_refl eq_refl).
  - reflexivity.
  - cbn [st_file]. apply f_equal. vm_compute. reflexivity.
Qed.

(** * [filepath.Clean]: the shape of its results *)

Lemma Split_go_pieces (c : ascii) (cur s : gostring) :
  ~ In c cur -> Forall (fun p => ~ In c p) (Split_go c cur s).
Proof.
  revert cur. induction s as [|d s IH]; intros cur Hcur; cbn [Split_go].
  - constructor; [|constructor]. rewrite <- in_rev. exact Hcur.
  - destruct (Ascii.eqb d c) eqn:E.
    + constructor; [rewrite <- in_rev; exact Hcur|]. apply IH. intros [].
    + apply IH. intros [->|Hin]; [|exact (Hcur Hin)].
      rewrite Ascii.eqb_refl in E. discriminate.
Qed.

Lemma Split_pieces (s : gostring) (c : ascii) : Forall (fun p => ~ In c p) (Split s c).
Proof. apply Split_go_pieces. intros []. Qed.

Lemma Split_join_sep (l : list gostring) :
  l <> [] -> Forall (fun p => ~ In sep p) l -> Split (join_sep l) sep = l.
Proof.
  induction l as [|e l IH]; intros Hl Hall; [congruence|].
  apply Forall_cons_iff in Hall as [He Hall].
  destruct l as [|e' l].
  - cbn [join_sep]. unfold Split. rewrite Split_go_no_sep by exact He. reflexivity.
  - change (join_sep (e :: e' :: l)) with (e ++ sep :: join_sep (e' :: l)).
    unfold Split in *. rewrite Split_go_app, Split_go_no_sep by exact He.
    rewrite IH by (discriminate || exact Hall). reflexivity.
Qed.

Lemma valid_name_no_sep (n : gostring) : valid_name n = true -> ~ In sep n.
Proof. intros H. apply valid_name_spec in H. tauto. Qed.

Lemma valid_name_of_piece (e : gostring) :
  ~ In sep e -> e <> [] -> e <> str "." -> e <> str ".." -> valid_name e = true.
Proof.
  intros Hsep H1 H2 H3. unfold valid_name.
  rewrite !andb_true_iff, !negb_true_iff, !bool_decide_eq_false.
  repeat split; try assumption.
  destruct (existsb (Ascii.eqb sep) e) eqn:E; [|reflexivity].
  apply existsb_exists in E as (x & Hin & Hx). apply Ascii.eqb_eq in Hx as <-.
  contradiction.
Qed.

(** One step of [Clean] keeps the kept elements in the normal shape. *)
Lemma Clean_step_normal (rooted : bool) (kept : list gostring) (e : gostring) :
  ~ In sep e ->
  normal_elems rooted (rev kept) ->
  normal_elems rooted (rev (Clean_step rooted kept e)).
Proof.
  intros Hsep (k & names & Hk & Hnames & Hroot). unfold Clean_step.
  destruct (decide (e = [])) as [He|He]; [exists k, names; auto|].
  destruct (decide (e = str ".")) as [Hd|Hd]; [exists k, names; auto|].
  destruct (decide (e = str "..")) as [Hdd|Hdd].
  - destruct kept as [|top kept'].
    + destruct rooted; [exists k, names; auto|].
      exists 1, []. subst e. repeat split; [constructor | discriminate].
    + cbn [rev] in Hk. destruct (decide (top = str "..")) as [Ht|Ht].
      * (* the top is [".."]: no name has been kept *)
        assert (names = []) as ->.
        { destruct names as [|n names _] using rev_ind; [reflexivity|].
          rewrite app_assoc in Hk. apply app_inj_tail in Hk as [_ Hn].
          apply Forall_app in Hnames as [_ Hn']. apply Forall_cons_iff in Hn' as [Hn' _].
          subst. discriminate. }
        rewrite app_nil_r in Hk.
        exists (S k), []. split; [|split; [constructor|]].
        -- cbn [rev]. rewrite Hk, app_nil_r. subst e.
           rewrite <- repeat_cons. reflexivity.
        -- intros Hr. specialize (Hroot Hr). subst k. destruct (rev kept'); discriminate.
      * (* the top is a name: it is taken away *)
        destruct names as [|n names _] using rev_ind.
        -- rewrite app_nil_r in Hk. exfalso. apply Ht.
           destruct k as [|k]; [destruct (rev kept'); discriminate|].
           cbn [repeat] in Hk. rewrite repeat_cons in Hk.
           apply app_inj_tail in Hk as [_ Hn]. exact Hn.
        -- rewrite app_assoc in Hk. apply app_inj_tail in Hk as [Hk _].
           exists k, names. split; [exact Hk|]. split; [|exact Hroot].
           apply Forall_app in Hnames. tauto.
  - exists k, (names ++ [e]). cbn [rev]. rewrite Hk, <- app_assoc.
    split; [reflexivity|]. split; [|exact Hroot].
    apply Forall_app. split; [exact Hnames|]. constructor; [|constructor].
    apply valid_name_of_piece; assumption.
Qed.

Lemma foldl_Clean_step_normal (rooted : bool) (l kept : list gostring) :
  Forall (fun p => ~ In sep p) l ->
  normal_elems rooted (rev kept) ->
  normal_elems rooted (rev (foldl (Clean_step rooted) kept l)).
Proof.
  revert kept. induction l as [|e l IH]; intros kept Hl Hk; [exact Hk|].
  apply Forall_cons_iff in Hl as [He Hl]. cbn [foldl].
  apply IH; [exact Hl|]. apply Clean_step_normal; assumption.
Qed.

Lemma Clean_elems_normal (path : gostring) :
  normal_elems (is_abs path) (rev (Clean_elems path)).
Proof.
  unfold Clean_elems. apply foldl_Clean_step_normal; [apply Split_pieces|].
  exists 0, []. repeat split. constructor.
Qed.

(** Elements in the normal shape are all kept. *)
Lemma foldl_Clean_step_keep (rooted : bool) (l pre : list gostring) :
  normal_elems rooted (pre ++ l) ->
  foldl (Clean_step rooted) (rev pre) l = rev (pre ++ l).
Proof.
  revert pre. induction l as [|e l IH]; intros pre Hn; [rewrite app_nil_r; reflexivity|].
  cbn [foldl].
  assert (Hstep : Clean_step rooted (rev pre) e = rev (pre ++ [e])).
  { rewrite rev_app_distr. cbn [rev app].
    destruct Hn as (k & names & Hk & Hnames & Hroot).
    destruct (decide (e = str "..")) as [->|Hdd].
    - (* a [".."]: everything before it is [".."] too *)
      assert (Hpre : pre = repeat (str "..") (length pre) /\ rooted = false).
      { clear IH. revert k Hk Hroot. induction pre as [|p pre IHp]; intros k Hk Hroot.
        - split; [reflexivity|]. cbn [app] in Hk. destruct k as [|k].
          + cbn [repeat app] in Hk. subst names. apply Forall_cons_iff in Hnames as [Hv _].
            discriminate.
          + destruct rooted; [specialize (Hroot eq_refl); discriminate | reflexivity].
        - destruct k as [|k].
          + cbn [repeat app] in Hk. subst names. exfalso.
            apply Forall_cons_iff in Hnames as [_ Hnames].
            apply Forall_app in Hnames as [_ Hnames].
            apply Forall_cons_iff in Hnames as [Hv _]. discriminate.
          + cbn [repeat app] in Hk. injection Hk as -> Hk.
            destruct (IHp k Hk) as [Hp Hr].
            { intros Hr. specialize (Hroot Hr). discriminate. }
            split; [|exact Hr]. cbn [length repeat]. f_equal. exact Hp. }
      destruct Hpre as [Hpre ->]. unfold Clean_step.
      destruct (decide (str ".." = [])) as [Hc|_]; [discriminate|].
      destruct (decide (str ".." = str ".")) as [Hc|_]; [discriminate|].
      destruct (decide (str ".." = str "..")) as [_|Hc]; [|congruence].
      destruct (rev pre) as [|top kept'] eqn:E; [reflexivity|].
      assert (top = str "..") as ->.
      { assert (Hin : In top (rev pre)) by (rewrite E; left; reflexivity).
        rewrite <- in_rev, Hpre in Hin. apply repeat_spec in Hin. exact Hin. }
      case_decide; [reflexivity | contradiction].
    - apply Clean_step_name.
      assert (Hin : In e (repeat (str "..") k ++ names))
        by (rewrite <- Hk; apply in_or_app; right; left; reflexivity).
      apply in_app_or in Hin as [Hin|Hin].
      + apply repeat_spec in Hin. contradiction.
      + rewrite Forall_forall in Hnames. apply Hnames, list_elem_of_In. exact Hin. }
  rewrite Hstep. rewrite (IH (pre ++ [e])) by (rewrite <- app_assoc; exact Hn).
  rewrite <- app_assoc. reflexivity.
Qed.

Lemma normal_elems_no_sep (rooted : bool) (l : list gostring) :
  normal_elems rooted l -> Forall (fun p => ~ In sep p) l.
Proof.
  intros (k & names & -> & Hnames & _). apply Forall_app. split.
  - apply Forall_forall. intros x Hx%list_elem_of_In%repeat_spec. subst x.
    vm_compute. intuition discriminate.
  - eapply Forall_impl; [exact Hnames|]. intros n. apply valid_name_no_sep.
Qed.

Lemma normal_elems_head (rooted : bool) (e : gostring) (l : list gostring) :
  normal_elems rooted (e :: l) -> exists c e', e = c :: e' /\ c <> sep.
Proof.
  intros (k & names & Hk & Hnames & _). destruct k as [|k].
  - cbn [repeat app] in Hk. subst names. apply Forall_cons_iff in Hnames as [Hv _].
    apply valid_name_spec in Hv as (Hne & Hsep & _).
    destruct e as [|c e']; [congruence|]. exists c, e'. split; [reflexivity|].
    intros ->. apply Hsep. left. reflexivity.
  - cbn [repeat app] in Hk. injection Hk as -> _. eexists _, _. split; [reflexivity|].
    discriminate.
Qed.

Lemma join_sep_head (e : gostring) (l : list gostring) :
  exists rest, join_sep (e :: l) = e ++ rest.
Proof.
  destruct l as [|e' l]; [exists []; cbn; rewrite app_nil_r; reflexivity|].
  exists (sep :: join_sep (e' :: l)). reflexivity.
Qed.

(** A path written from elements in the normal shape is what [Clean]
    makes of it. *)
Lemma Clean_normal (rooted : bool) (l : list gostring) :
  l <> [] -> normal_elems rooted l ->
  is_abs (root_prefix rooted ++ join_sep l) = rooted /\
  Clean_elems (root_prefix rooted ++ join_sep l) = rev l /\
  Clean (root_prefix rooted ++ join_sep l) = root_prefix rooted ++ join_sep l.
Proof.
  intros Hl Hn.
  assert (Habs : is_abs (root_prefix rooted ++ join_sep l) = rooted).
  { destruct rooted; [reflexivity|]. cbn [root_prefix app].
    destruct l as [|e l]; [congruence|].
    destruct (normal_elems_head _ _ _ Hn) as (c & e' & -> & Hc).
    destruct (join_sep_head (c :: e') l) as [rest ->]. cbn [app is_abs].
    destruct (Ascii.eqb c sep) eqn:E; [|reflexivity].
    apply Ascii.eqb_eq in E. contradiction. }
  assert (Helems : Clean_elems (root_prefix rooted ++ join_sep l) = rev l).
  { unfold Clean_elems. rewrite Habs.
    pose proof (foldl_Clean_step_keep rooted l [] Hn) as Hkeep. cbn [rev app] in Hkeep.
    destruct rooted; cbn [root_prefix app].
    - unfold Split. cbn [Split_go]. rewrite Ascii.eqb_refl. cbn [rev foldl].
      change (Split_go sep [] (join_sep l)) with (Split (join_sep l) sep).
      rewrite Split_join_sep by (assumption || exact (normal_elems_no_sep _ _ Hn)).
      exact Hkeep.
    - rewrite Split_join_sep by (assumption || exact (normal_elems_no_sep _ _ Hn)).
      exact Hkeep. }
  split; [exact Habs|]. split; [exact Helems|].
  unfold Clean. rewrite Habs, Helems, rev_involutive.
  destruct rooted; [reflexivity|]. destruct l; [congruence | reflexivity].
Qed.

(** What [Clean] returns, from the elements it keeps. *)
Lemma Clean_text (path : gostring) :
  Clean path =
  if is_abs path then sep :: join_sep (rev (Clean_elems path))
  else match Clean_elems path with
       | [] => str "."
       | _ => join_sep (rev (Clean_elems path))
       end.
Proof.
  unfold Clean. destruct (is_abs path); [reflexivity|].
  destruct (Clean_elems path) as [|e l]; [reflexivity|].
  cbn [rev]. destruct (rev l ++ [e]) eqn:E; [destruct (rev l); discriminate | reflexivity].
Qed.

Lemma Clean_nonempty (path : gostring) : Clean path <> [].
Proof.
  rewrite Clean_text. destruct (is_abs path); [discriminate|].
  destruct (Clean_elems path) as [|e l] eqn:E; [discriminate|].
  pose proof (Clean_elems_normal path) as Hn. rewrite E in Hn. cbn [rev] in *.
  destruct (rev l ++ [e]) as [|e0 l0] eqn:E0; [destruct (rev l); discriminate|].
  destruct (normal_elems_head _ _ _ Hn) as (c & e' & -> & _).
  destruct (join_sep_head (c :: e') l0) as [rest ->]. discriminate.
Qed.

Lemma Clean_idempotent (path : gostring) : Clean (Clean path) = Clean path.
Proof.
  pose proof (Clean_elems_normal path) as Hn. rewrite (Clean_text path).
  destruct (is_abs path) eqn:Habs.
  - destruct (rev (Clean_elems path)) as [|e l] eqn:E; [reflexivity|].
    refine (proj2 (proj2 (Clean_normal true (e :: l) _ Hn))). discriminate.
  - destruct (Clean_elems path) as [|e0 l0] eqn:E0; [reflexivity|].
    refine (proj2 (proj2 (Clean_normal false (rev (e0 :: l0)) _ Hn))).
    cbn [rev]. destruct (rev l0); discriminate.
Qed.

(** * [parseFlags] and [runMain] *)

Lemma join_sep_app (l1 l2 : list gostring) :
  l1 <> [] -> l2 <> [] ->
  join_sep (l1 ++ l2) = join_sep l1 ++ sep :: join_sep l2.
Proof.
  intros H1 H2. induction l1 as [|e l1 IH]; [congruence|].
  destruct l1 as [|e' l1].
  - destruct l2; [congruence | reflexivity].
  - change (join_sep ((e :: e' :: l1) ++ l2)) with (e ++ sep :: join_sep ((e' :: l1) ++ l2)).
    rewrite IH by discriminate.
    change (join_sep (e :: e' :: l1)) with (e ++ sep :: join_sep (e' :: l1)).
    rewrite <- app_assoc. reflexivity.
Qed.

(** A result of [Clean] other than ["."] and ["/"] is written from the
    elements kept, and there is one at least. *)
Lemma Clean_shape (path : gostring) :
  Clean path <> str "." -> Clean path <> str "/" ->
  exists l, l <> [] /\ normal_elems (is_abs path) l /\
            Clean path = root_prefix (is_abs path) ++ join_sep l.
Proof.
  intros Hdot Hroot. pose proof (Clean_elems_normal path) as Hn.
  rewrite Clean_text in *. exists (rev (Clean_elems path)).
  destruct (is_abs path).
  - split; [|split; [exact Hn | reflexivity]].
    intros E. rewrite E in Hroot. apply Hroot. reflexivity.
  - destruct (Clean_elems path) as [|e l]; [congruence|].
    split; [|split; [exact Hn | reflexivity]].
    cbn [rev]. destruct (rev l); discriminate.
Qed.

Lemma parseFlags_covermode_spec (m : gostring) :
  parseFlags_covermode m = true <-> m = str "set" \/ m = str "count" \/ m = str "atomic".
Proof.
  unfold parseFlags_covermode.
  rewrite !orb_true_iff, !bool_decide_eq_true. tauto.
Qed.

Lemma Clean_length (path : gostring) : (length (Clean path) =? 0) = false.
Proof. pose proof (Clean_nonempty path). destruct (Clean path); [congruence | reflexivity]. Qed.

Lemma parseFlags_continue (GOPATH : gostring) (f : Flags.t) (out projectFlag : gostring)
    (ignores : gset gostring) :
  parseFlags (gopath_of GOPATH) f = (out, Continue (projectFlag, ignores)) <->
  Flags.helpFlag f = false /\
  Clean GOPATH <> str "." /\
  Clean (Flags.projectFlag f) <> str "." /\
  (Flags.coverFlag f = str "set" \/ Flags.coverFlag f = str "count"
   \/ Flags.coverFlag f = str "atomic") /\
  projectFlag = Clean (Flags.projectFlag f) /\
  ignores = parseFlags_ignores (Flags.ignoreFlag f) /\
  out = parseFlags_printed GOPATH f.
Proof.
  unfold parseFlags, gopath_of, parseFlags_printed. rewrite !Clean_length. cbn [orb].
  pose proof (parseFlags_covermode_spec (Flags.coverFlag f)) as Hc.
  destruct (Flags.helpFlag f).
  { split; [discriminate | intros [? _]; discriminate]. }
  destruct (bool_decide (Clean GOPATH = str ".")) eqn:E1.
  { apply bool_decide_eq_true in E1.
    split; [discriminate | intros (_ & H & _); contradiction]. }
  apply bool_decide_eq_false in E1.
  destruct (bool_decide (Clean (Flags.projectFlag f) = str ".")) eqn:E2.
  { apply bool_decide_eq_true in E2.
    split; [discriminate | intros (_ & _ & H & _); contradiction]. }
  apply bool_decide_eq_false in E2.
  destruct (parseFlags_covermode (Flags.coverFlag f)) eqn:E3.
  - split.
    + intros H. injection H as Hout <- <-.
      repeat split; try assumption; [apply Hc; reflexivity|].
      rewrite <- Hout.
      destruct (Flags.debugFlag f); repeat first [rewrite <- app_assoc | progress cbn];
        reflexivity.
    + intros (_ & _ & _ & _ & -> & -> & ->). rewrite <- !app_assoc. reflexivity.
  - split; [discriminate|]. intros (_ & _ & _ & H & _). apply Hc in H. discriminate.
Qed.

(** X1. [parseFlags] goes on exactly when [-help] is not given, [GOPATH]
    and the project flag do not clean to ["."] (an unset or empty one
    does) and the cover mode is one of the three; it then leaves the
    cleaned project flag and the ignore set. The tests [len(gopath) == 0]
    and [len(projectFlag) == 0] never decide, since [Clean] returns no
    empty string. When it ends the process, the status is 0 for [-help],
    with the help text alone printed, and 1 otherwise. *)
Theorem parseFlags_outcome (GOPATH : gostring) (f : Flags.t) :
  (forall out projectFlag ignores,
      parseFlags (gopath_of GOPATH) f = (out, Continue (projectFlag, ignores)) <->
      Flags.helpFlag f = false /\
      Clean GOPATH <> str "." /\
      Clean (Flags.projectFlag f) <> str "." /\
      (Flags.coverFlag f = str "set" \/ Flags.coverFlag f = str "count"
       \/ Flags.coverFlag f = str "atomic") /\
      projectFlag = Clean (Flags.projectFlag f) /\
      ignores = parseFlags_ignores (Flags.ignoreFlag f) /\
      out = parseFlags_printed GOPATH f) /\
  (forall out code,
      parseFlags (gopath_of GOPATH) f = (out, OsExit code) ->
      if Flags.helpFlag f then code = 0 /\ out = helpString else code = 1).
Proof.
  split; [intros out p ign; apply parseFlags_continue|].
  unfold parseFlags, gopath_of. rewrite !Clean_length. cbn [orb].
  intros out code. destruct (Flags.helpFlag f).
  { intros H. injection H as <- <-. split; reflexivity. }
  destruct (bool_decide (Clean GOPATH = str ".")); [intros H; injection H as _ <-; reflexivity|].
  destruct (bool_decide (Clean (Flags.projectFlag f) = str "."));
    [intros H; injection H as _ <-; reflexivity|].
  destruct (parseFlags_covermode (Flags.coverFlag f)); [discriminate|].
  intros H; injection H as _ <-; reflexivity.
Qed.

(** The base of the project path is as [Clean] leaves it, when [GOPATH]
    is not the root directory and the project flag is a relative path
    that does not lead out of [$GOPATH/src]. *)
Lemma project_base_clean (GOPATH projectFlag : gostring) :
  Clean GOPATH <> str "." -> Clean GOPATH <> str "/" ->
  is_abs projectFlag = false -> Clean projectFlag <> str "." ->
  hd [] (Split (Clean projectFlag) sep) <> str ".." ->
  clean_base (srcPath_of (gopath_of GOPATH) ++ Clean projectFlag) = true.
Proof.
  intros Hg1 Hg2 Hrel Hp1 Hp2. unfold gopath_of, srcPath_of.
  destruct (Clean_shape GOPATH Hg1 Hg2) as (lg & Hlg & Hng & Eg).
  assert (Hp3 : Clean projectFlag <> str "/").
  { rewrite Clean_text, Hrel. destruct (Clean_elems projectFlag) as [|e l] eqn:E; [discriminate|].
    pose proof (Clean_elems_normal projectFlag) as Hn. rewrite E, Hrel in Hn.
    cbn [rev] in *. destruct (rev l ++ [e]) as [|e0 l0] eqn:E0; [destruct (rev l); discriminate|].
    destruct (normal_elems_head _ _ _ Hn) as (c & e' & -> & Hc).
    destruct (join_sep_head (c :: e') l0) as [rest ->]. cbn [app].
    intros H. injection H as -> _. apply Hc. reflexivity. }
  destruct (Clean_shape projectFlag Hp1 Hp3) as (lp & Hlp & Hnp & Ep).
  rewrite Hrel in Hnp, Ep. cbn [root_prefix app] in Ep.
  (* the elements of the project flag are names *)
  assert (Hnames : Forall (fun n => valid_name n = true) lp).
  { rewrite Ep, Split_join_sep in Hp2
      by (assumption || exact (normal_elems_no_sep _ _ Hnp)).
    destruct Hnp as (k & names & -> & Hnames & _).
    destruct k as [|k]; [exact Hnames|]. exfalso. apply Hp2. reflexivity. }
  set (l := lg ++ [str "src"] ++ lp).
  assert (Hl : l <> []) by (subst l; destruct lg; [congruence | discriminate]).
  assert (Hn : normal_elems (is_abs GOPATH) l).
  { destruct Hng as (k & names & -> & Hv & Hroot).
    exists k, (names ++ [str "src"] ++ lp). subst l. rewrite <- app_assoc.
    split; [reflexivity|]. split; [|exact Hroot].
    apply Forall_app. split; [exact Hv|]. constructor; [reflexivity | exact Hnames]. }
  assert (Hbase : (Clean GOPATH ++ SEPARATOR ++ str "src" ++ SEPARATOR) ++ Clean projectFlag
                  = root_prefix (is_abs GOPATH) ++ join_sep l).
  { rewrite Eg, Ep. subst l.
    rewrite (join_sep_app lg) by (assumption || discriminate).
    change ([str "src"] ++ lp) with (str "src" :: lp).
    destruct lp as [|e lp]; [congruence|].
    change (join_sep (str "src" :: e :: lp)) with (str "src" ++ sep :: join_sep (e :: lp)).
    rewrite <- !app_assoc. reflexivity. }
  rewrite Hbase. destruct (Clean_normal _ l Hl Hn) as (_ & He & Hc).
  unfold clean_base. rewrite Hc, He.
  rewrite bool_decide_eq_true_2 by reflexivity.
  rewrite bool_decide_eq_false_2; [reflexivity|].
  intros H. apply Hl. apply (f_equal (@rev gostring)) in H.
  rewrite rev_involutive in H. exact H.
Qed.

(** X2. When [runMain] starts [testFiles], the project flag is the cleaned
    one and [os.Chdir] has succeeded on the project path; when moreover
    [GOPATH] is an absolute path other than the root directory and the
    project flag is a relative path that does not lead out of
    [$GOPATH/src], the base of the project path is as [Clean] leaves it,
    so that the paths of the walk begin with the project path. *)
Theorem runMain_starts_on_clean_path (GOPATH : gostring) (f : Flags.t)
    (Chdir : gostring -> bool) (Getwd : option gostring) (fs : filesystem)
    (glob_meta : gostring -> list gostring * option error)
    (out : gostring) (s : state) :
  runMain GOPATH f Chdir Getwd fs glob_meta = (out, Continue s) ->
  is_abs GOPATH = true ->
  Clean GOPATH <> str "/" ->
  is_abs (Flags.projectFlag f) = false ->
  hd [] (Split (Clean (Flags.projectFlag f)) sep) <> str ".." ->
  clean_base (srcPath_of (gopath_of GOPATH) ++ Clean (Flags.projectFlag f)) = true /\
  Chdir (runMain_projectPath (srcPath_of (gopath_of GOPATH))
           (Clean (Flags.projectFlag f))) = true /\
  s = testFiles_init
        (runMain_projectPath (srcPath_of (gopath_of GOPATH)) (Clean (Flags.projectFlag f)))
        (parseFlags_ignores (Flags.ignoreFlag f)) fs glob_meta.
Proof.
  intros Hrun _ Hroot Hrel Hout. unfold runMain in Hrun.
  destruct (parseFlags (gopath_of GOPATH) f) as [out' [[p ign]|code]] eqn:E; [|discriminate].
  apply parseFlags_continue in E as (_ & Hg & Hp & _ & -> & -> & _).
  destruct (Chdir _) eqn:Hcd in Hrun; [|discriminate]. injection Hrun as _ <-.
  split; [|split; [exact Hcd | reflexivity]].
  apply project_base_clean; assumption.
Qed.

(** * The walk as a function of the tree *)

Lemma dispatched_app (t1 t2 : list event) :
  dispatched (t1 ++ t2) = dispatched t1 ++ dispatched t2.
Proof.
  induction t1 as [|[p|p r] t1 IH]; cbn [app dispatched]; [reflexivity | exact IH|].
  rewrite IH. reflexivity.
Qed.

Lemma find_dir_In (name : gostring) (r : bool) (ch es : list entry) :
  NoDup (map entry_name es) -> In (Dir name r ch) es ->
  find_dir name es = Some (r, ch).
Proof.
  induction es as [|e es IH]; intros Hnd Hin; [destruct Hin|].
  cbn [map] in Hnd. inversion Hnd as [|? ? Hnotin Hnd']; subst.
  destruct Hin as [->|Hin].
  - cbn [find_dir]. case_decide; [reflexivity | congruence].
  - assert (Hname : entry_name e <> name).
    { intros Heq. apply Hnotin. rewrite Heq.
      apply list_elem_of_In. apply (in_map entry_name _ _ Hin). }
    destruct e as [n|n r' ch'|n]; cbn [find_dir entry_name] in *; try (apply IH; assumption).
    case_decide; [contradiction | apply IH; assumption].
Qed.

Lemma resolve_snoc (es : list entry) (r0 : bool) (segs : list gostring)
    (ch : list entry) (m : gostring) :
  resolve es r0 segs = Some ch ->
  resolve es r0 (segs ++ [m]) =
  match find_dir m ch with
  | Some (r', ch') => if r' then Some ch' else None
  | None => None
  end.
Proof.
  revert es r0. induction segs as [|s segs IH]; intros es r0 H; cbn [resolve app] in *.
  - destruct r0; [|discriminate]. injection H as ->.
    destruct (find_dir m ch) as [[r' ch']|]; reflexivity.
  - destruct (find_dir s es) as [[r1 ch1]|]; [|discriminate]. apply IH. exact H.
Qed.

Lemma path_segments_child (rel m : gostring) :
  valid_name m = true ->
  path_segments (child_rel rel m) = path_segments rel ++ [m].
Proof.
  intros (Hne & Hsep & Hdot & _)%valid_name_spec. unfold path_segments.
  destruct rel as [|c rel]; cbn [child_rel].
  - unfold Split at 1. rewrite Split_go_no_sep by exact Hsep. cbn [rev app].
    rewrite filter_cons. case_decide as Hc; [reflexivity|].
    exfalso. apply Hc. split; assumption.
  - change (SEPARATOR ++ m) with (sep :: m).
    rewrite Split_child by exact Hsep. rewrite filter_app. f_equal.
    rewrite filter_cons. case_decide as Hc; [reflexivity|].
    exfalso. apply Hc. split; assumption.
Qed.

Lemma hasMeta_app (a b : gostring) : hasMeta (a ++ b) = hasMeta a || hasMeta b.
Proof. unfold hasMeta. apply existsb_app. Qed.

Lemma hasMeta_child (rel m : gostring) :
  hasMeta rel = false -> hasMeta m = false -> hasMeta (child_rel rel m) = false.
Proof.
  intros Hrel Hm. destruct rel as [|c rel]; [exact Hm|]. cbn [child_rel].
  rewrite !hasMeta_app, Hrel, Hm. reflexivity.
Qed.

Lemma is_abs_child (rel m : gostring) :
  is_abs rel = false -> valid_name m = true -> is_abs (child_rel rel m) = false.
Proof.
  intros Hrel (Hne & Hsep & _)%valid_name_spec. destruct rel as [|c rel]; [|exact Hrel].
  cbn [child_rel]. destruct m as [|d m]; [congruence|]. cbn [is_abs].
  destruct (Ascii.eqb d sep) eqn:E; [|reflexivity].
  apply Ascii.eqb_eq in E as ->. exfalso. apply Hsep. left. reflexivity.
Qed.

Lemma child_rel_nonempty (rel m : gostring) : m <> [] -> child_rel rel m <> [].
Proof. intros Hm. destruct rel; [exact Hm | discriminate]. Qed.

(** The whole effect of [walker] on a directory. *)
Lemma walker_dir_below (projectPath : gostring) (ignores : gset gostring)
    (fs : filesystem) (glob_meta : gostring -> list gostring * option error)
    (rel : gostring) (err : option error) :
  rel <> [] -> hasMeta rel = false ->
  walker projectPath ignores fs glob_meta (projectPath ++ rel)
    (Some (mkFileInfo true)) err
  = if decide (rel ∈ ignores)
    then (Ret (Some SkipDir), [EvWalker (projectPath ++ rel)])
    else (Ret None,
          EvWalker (projectPath ++ rel) ::
          match readdirnames fs rel with
          | Some names =>
              if existsb (Match (str "*_test.go")) names
              then [EvDispatch (projectPath ++ rel) rel]
              else []
          | None => []
          end).
Proof.
  intros Hrel Hmeta. unfold walker. cbn [bind emit IsDir negb].
  rewrite Replace_first_prefix. cbn [app].
  destruct (decide (rel ∈ ignores)) as [Hin|Hnin]; [reflexivity|].
  rewrite Glob_below_root by assumption. unfold glob.
  destruct (readdirnames fs rel) as [names|]; [|reflexivity].
  rewrite length_filter_existsb.
  destruct (existsb (Match (str "*_test.go")) names); reflexivity.
Qed.

Lemma walker_dir_root (projectPath : gostring) (ignores : gset gostring)
    (fs : filesystem) (glob_meta : gostring -> list gostring * option error)
    (err : option error) :
  walker projectPath ignores fs glob_meta projectPath (Some (mkFileInfo true)) err
  = if decide ([] ∈ ignores)
    then (Ret (Some SkipDir), [EvWalker projectPath])
    else (Ret None,
          EvWalker projectPath ::
          if has_test (fs_root fs) then [EvDispatch projectPath []] else []).
Proof.
  unfold walker. cbn [bind emit IsDir negb]. rewrite Replace_first_self.
  case_decide; [case_decide; [reflexivity | contradiction]|].
  case_decide; [contradiction|].
  rewrite Glob_root, length_filter_existsb. unfold has_test.
  destruct (existsb (Match (str "*_test.go")) (map entry_name (fs_root fs))); reflexivity.
Qed.

Lemma plain_tree_spec (e : entry) :
  plain_tree e = true ->
  hasMeta (entry_name e) = false /\
  match e with
  | File _ => True
  | NoStat _ => False
  | Dir _ _ ch => NoDup (map entry_name ch) /\ forallb plain_tree ch = true
  end.
Proof.
  destruct e as [n|n r ch|n]; cbn [plain_tree entry_name];
    intros [H1 H2]%andb_true_iff; apply negb_true_iff in H1; (split; [exact H1|]).
  - exact I.
  - apply andb_true_iff in H2 as [H2 H3]. apply bool_decide_eq_true in H2. split; assumption.
  - discriminate.
Qed.

Section Discovery.

Variables srcPath projectFlag : gostring.
Variable ignores : gset gostring.
Variable fs : filesystem.
Variable glob_meta : gostring -> list gostring * option error.

Hypothesis clean_project : clean_base (srcPath ++ projectFlag) = true.

Local Abbreviation pp := (runMain_projectPath srcPath projectFlag).
Local Abbreviation walk' := (walk pp ignores fs glob_meta).

Local Abbreviation rel_ok := (rel_ok pp).
Local Abbreviation names_dir := (names_dir fs).
Local Abbreviation walk_spec := (walk_spec pp ignores fs glob_meta).

Lemma rel_ok_child (rel m : gostring) :
  rel_ok rel -> valid_name m = true -> hasMeta m = false ->
  Join (pp ++ rel) m = pp ++ child_rel rel m /\ rel_ok (child_rel rel m).
Proof.
  intros (Ht & Hm & Ha) Hv Hmm.
  destruct (Join_child srcPath projectFlag clean_project rel m Ht Hv) as [HJ Ht'].
  split; [exact HJ|]. split; [exact Ht'|]. split.
  - apply hasMeta_child; assumption.
  - apply is_abs_child; assumption.
Qed.

Lemma walk_children_spec (rel : gostring) (es : list entry) :
  Forall walk_spec es ->
  forallb plain_tree es = true -> forallb valid_tree es = true ->
  rel_ok rel ->
  (forall n r ch, In (Dir n r ch) es -> names_dir (child_rel rel n) r ch) ->
  exists t,
    walk_children pp ignores fs glob_meta walk' (pp ++ rel) es = (Ret None, t) /\
    dispatched t = map (dispatch_of pp) (candidates_below ignores rel es).
Proof.
  intros IH Hplain Hvalid Hrel Hres.
  induction es as [|c es IHes]; [exists []; split; reflexivity|].
  inversion IH as [|? ? IHc IH']; subst.
  cbn [forallb] in Hplain, Hvalid.
  apply andb_true_iff in Hplain as [Hpc Hpes]. apply andb_true_iff in Hvalid as [Hvc Hves].
  destruct IHes as (t' & Hloop & Ht'); [assumption.. | |].
  { intros n r ch Hin. apply Hres. right. exact Hin. }
  pose proof (valid_tree_spec _ Hvc) as [Hname _].
  pose proof (plain_tree_spec _ Hpc) as [Hmeta Hshape].
  destruct (rel_ok_child rel _ Hrel Hname Hmeta) as [HJ Hrel'].
  assert (Hne : child_rel rel (entry_name c) <> []).
  { apply child_rel_nonempty. apply valid_name_spec in Hname. tauto. }
  destruct (IHc Hpc Hvc _ Hne Hrel') as (o & t & Hw & Ht & Ho).
  { intros n r ch ->. apply Hres. left. reflexivity. }
  exists (t ++ t'). unfold candidates_below in *. cbn [flat_map].
  rewrite dispatched_app, map_app, Ht, Ht'. split; [|reflexivity].
  cbn [walk_children]. rewrite HJ.
  destruct c as [n|n r ch|n]; [| |destruct Hshape].
  - rewrite Hw. destruct Ho as [->|(_ & n' & r' & ch' & Hc)]; [|discriminate].
    cbn [bind]. rewrite bool_decide_eq_true_2 by reflexivity. cbn [negb].
    rewrite Hloop. reflexivity.
  - rewrite Hw. cbn [bind].
    assert (Hcond : negb (bool_decide (o = None)) && negb (bool_decide (o = Some SkipDir))
                    = false).
    { destruct Ho as [->|[-> _]].
      - rewrite bool_decide_eq_true_2 by reflexivity. reflexivity.
      - rewrite (bool_decide_eq_true_2 (Some SkipDir = Some SkipDir)) by reflexivity.
        apply andb_false_r. }
    rewrite Hcond, Hloop. reflexivity.
Qed.

Lemma readdirnames_rel (rel : gostring) (r : bool) (ch : list entry) :
  is_abs rel = false -> names_dir rel r ch ->
  readdirnames fs rel = if r then Some (map entry_name ch) else None.
Proof.
  intros Habs Hres. unfold readdirnames. rewrite Habs, Hres. destruct r; reflexivity.
Qed.

Lemma names_dir_child (rel : gostring) (ch : list entry) (n : gostring) (r' : bool)
    (ch' : list entry) :
  names_dir rel true ch -> NoDup (map entry_name ch) ->
  valid_name n = true -> In (Dir n r' ch') ch ->
  names_dir (child_rel rel n) r' ch'.
Proof.
  unfold names_dir. intros Hres Hnd Hv Hin.
  rewrite path_segments_child by exact Hv.
  rewrite (resolve_snoc _ _ _ _ _ Hres), (find_dir_In _ _ _ _ Hnd Hin). reflexivity.
Qed.

Lemma valid_tree_In (es : list entry) (e : entry) :
  forallb valid_tree es = true -> In e es -> valid_name (entry_name e) = true.
Proof.
  intros H Hin. rewrite forallb_forall in H. apply valid_tree_spec. apply H. exact Hin.
Qed.

Lemma walk_spec_all (e : entry) : walk_spec e.
Proof.
  induction e as [n|n|n r ch IH] using entry_ind2; intros Hplain Hvalid rel Hne Hrel Hres.
  - exists None, [EvWalker (pp ++ rel)]. repeat split. left. reflexivity.
  - destruct (plain_tree_spec _ Hplain) as [_ []].
  - destruct (plain_tree_spec _ Hplain) as [_ [Hnd Hpch]].
    apply valid_tree_spec in Hvalid as [_ Hvch]. cbn [valid_children] in Hvch.
    pose proof Hrel as (_ & Hmeta & Habs).
    specialize (Hres n r ch eq_refl).
    cbn [walk candidates].
    rewrite walker_dir_below by assumption.
    destruct (decide (rel ∈ ignores)) as [Hin|Hnin].
    { rewrite ?decide_True by exact Hin.
      exists (Some SkipDir), [EvWalker (pp ++ rel)]. cbn [bind].
      rewrite orb_true_r. split; [reflexivity|]. split; [reflexivity|].
      right. split; [reflexivity|]. eauto. }
    rewrite ?decide_False by exact Hnin.
    rewrite (readdirnames_rel _ _ _ Habs Hres).
    destruct r.
    + destruct (walk_children_spec rel ch IH Hpch Hvch Hrel) as (t & Hloop & Ht).
      { intros n' r' ch' Hin. apply (names_dir_child rel ch); try assumption.
        apply (valid_tree_In ch (Dir n' r' ch') Hvch Hin). }
      exists None. eexists. cbn [bind]. rewrite bool_decide_eq_true_2 by reflexivity.
      cbn [negb orb]. rewrite Hloop. split; [reflexivity|]. split; [|left; reflexivity].
      cbn [dispatched]. rewrite dispatched_app, Ht, map_app. fold (has_test ch).
      unfold candidates_below. f_equal.
      destruct (has_test ch); reflexivity.
    + exists None, [EvWalker (pp ++ rel)]. cbn [bind]. split; [reflexivity|].
      split; [reflexivity | left; reflexivity].
Qed.

Lemma Walk_spec :
  plain_fs fs = true ->
  exists t,
    Walk pp ignores fs glob_meta = (Ret None, t) /\
    dispatched t = discovery pp ignores fs.
Proof.
  unfold plain_fs. intros [[Hnd Hplain]%andb_true_iff Hvalid]%andb_true_iff.
  apply bool_decide_eq_true in Hnd.
  unfold Walk, discovery. cbn [walk]. rewrite walker_dir_root.
  destruct (decide ([] ∈ ignores)) as [Hin|Hnin].
  { rewrite ?decide_True by exact Hin.
    eexists. cbn [bind]. rewrite orb_true_r. unfold ret. cbn [bind].
    rewrite bool_decide_eq_true_2 by reflexivity. split; reflexivity. }
  rewrite ?decide_False by exact Hnin.
  destruct (proj_readable fs) eqn:Hr.
  - assert (Hroot : rel_ok []).
    { split; [left; reflexivity | split; reflexivity]. }
    destruct (walk_children_spec [] (proj_tree fs)) as (t & Hloop & Ht);
      [apply Forall_forall; intros e _; apply walk_spec_all | assumption.. | |].
    { intros n r ch Hin. apply (names_dir_child [] (proj_tree fs)); try assumption.
      - unfold names_dir. rewrite Hr. reflexivity.
      - apply (valid_tree_In (proj_tree fs) (Dir n r ch) Hvalid Hin). }
    rewrite app_nil_r in Hloop.
    eexists. cbn [bind]. rewrite bool_decide_eq_true_2 by reflexivity.
    cbn [negb orb]. rewrite Hloop. cbn [bind].
    rewrite bool_decide_eq_false_2 by discriminate. unfold ret.
    split; [rewrite app_nil_r; reflexivity|].
    change (dispatched (EvWalker pp :: ?x)) with (dispatched x).
    rewrite dispatched_app, Ht.
    destruct (has_test (fs_root fs)); reflexivity.
  - eexists. cbn [bind]. unfold ret. cbn [bind].
    rewrite bool_decide_eq_false_2 by discriminate.
    split; [reflexivity|]. rewrite !app_nil_r.
    destruct (has_test (fs_root fs)); reflexivity.
Qed.

End Discovery.

(** X3. Under a project path whose base [srcPath ++ projectFlag] is left
    as it is by [filepath.Clean] and has an element, for a tree without
    special cases (names of a directory listing that can all be examined,
    have no pattern character and differ within a directory), the walk
    returns [nil], and what it dispatches is exactly this, in this order:
    the project directory when the root directory of the file system has
    a test file; then, in the order of the walk, every directory below
    that has a test file, is not ignored and lies under directories that
    are not ignored and can be listed. *)
Theorem Walk_dispatches_candidates (srcPath projectFlag : gostring)
    (ignores : gset gostring) (fs : filesystem)
    (glob_meta : gostring -> list gostring * option error) :
  clean_base (srcPath ++ projectFlag) = true ->
  plain_fs fs = true ->
  fst (Walk (runMain_projectPath srcPath projectFlag) ignores fs glob_meta) = Ret None /\
  dispatched (snd (Walk (runMain_projectPath srcPath projectFlag) ignores fs glob_meta))
  = discovery (runMain_projectPath srcPath projectFlag) ignores fs.
Proof.
  intros Hclean Hplain.
  destruct (Walk_spec srcPath projectFlag ignores fs glob_meta Hclean Hplain)
    as (t & -> & Ht).
  split; [reflexivity | exact Ht].
Qed.

(** * The paths of the dispatched directories *)

Lemma Clean_same_elems (p q : gostring) :
  is_abs p = is_abs q -> Clean_elems p = Clean_elems q -> Clean p = Clean q.
Proof. intros Ha He. unfold Clean. rewrite Ha, He. reflexivity. Qed.

Lemma Clean_elems_double_sep (q x : gostring) :
  q <> [] -> Clean_elems ((q ++ [sep]) ++ sep :: x) = Clean_elems (q ++ sep :: x).
Proof.
  intros Hq. unfold Clean_elems.
  rewrite <- app_assoc. cbn [app]. rewrite !is_abs_app by exact Hq.
  unfold Split. rewrite !Split_go_app. cbn [Split_go]. rewrite Ascii.eqb_refl.
  cbn [rev]. rewrite !foldl_app. cbn [foldl]. reflexivity.
Qed.

Section DispatchPaths.

Variables srcPath projectFlag : gostring.
Variable ignores : gset gostring.
Variable fs : filesystem.
Variable glob_meta : gostring -> list gostring * option error.

Hypothesis clean_project : clean_base (srcPath ++ projectFlag) = true.

Local Abbreviation pp := (runMain_projectPath srcPath projectFlag).
Local Abbreviation walker' := (walker pp ignores fs glob_meta).
Local Abbreviation walk' := (walk pp ignores fs glob_meta).
Local Abbreviation dispatch_ok' := (dispatch_ok pp).

Lemma walker_dispatch_ok (rel : gostring) (info : option FileInfo) (err : option error) :
  rel_tidy pp rel -> is_abs rel = false ->
  Forall dispatch_ok' (snd (walker' (pp ++ rel) info err)).
Proof.
  intros Ht Ha. unfold walker.
  apply bind_trace; [constructor; [exact I | constructor]|].
  intros _ _. destruct info as [info|]; [|constructor].
  destruct (negb (IsDir info)); [constructor|].
  rewrite Replace_first_prefix. cbn [app].
  destruct (decide (rel ∈ ignores)); [constructor|].
  destruct (Glob fs glob_meta (rel ++ SEPARATOR ++ str "*_test.go")) as [files gerr].
  destruct ((length files =? 0) || negb (bool_decide (gerr = None))).
  - destruct (negb (bool_decide (gerr = None))); constructor.
  - apply bind_trace; [|intros; constructor].
    constructor; [|constructor]. repeat split; assumption.
Qed.

Lemma walk_children_dispatch_ok (rel : gostring) (es : list entry) :
  Forall (fun e => valid_children e = true ->
                   forall rel, rel_tidy pp rel -> is_abs rel = false ->
                               Forall dispatch_ok' (snd (walk' (pp ++ rel) e))) es ->
  forallb valid_tree es = true ->
  rel_tidy pp rel -> is_abs rel = false ->
  Forall dispatch_ok' (snd (walk_children pp ignores fs glob_meta walk' (pp ++ rel) es)).
Proof.
  intros IH Hvalid Hrel Habs.
  induction es as [|e es IHes]; [constructor|].
  cbn [forallb] in Hvalid. apply andb_true_iff in Hvalid as [He Hes].
  apply valid_tree_spec in He as [Hname Hch].
  inversion IH as [|? ? IHe IH']; subst.
  cbn [walk_children].
  destruct (Join_child srcPath projectFlag clean_project rel _ Hrel Hname) as [-> Hnts].
  pose proof (is_abs_child _ _ Habs Hname) as Hchild.
  destruct e as [n|n r ch|n].
  - apply bind_trace.
    + apply IHe; assumption.
    + intros a _. destruct (negb (bool_decide (a = None))); [constructor | auto].
  - apply bind_trace.
    + apply IHe; assumption.
    + intros a _.
      destruct (negb (bool_decide (a = None)) && negb (bool_decide (a = Some SkipDir)));
        [constructor | auto].
  - apply bind_trace.
    + apply walker_dispatch_ok; assumption.
    + intros a _.
      destruct (negb (bool_decide (a = None)) && negb (bool_decide (a = Some SkipDir)));
        [constructor | auto].
Qed.

Lemma walk_dispatch_ok (e : entry) :
  valid_children e = true ->
  forall rel, rel_tidy pp rel -> is_abs rel = false ->
  Forall dispatch_ok' (snd (walk' (pp ++ rel) e)).
Proof.
  induction e as [n|n|n r ch IH] using entry_ind2; intros Hvalid rel Hrel Habs.
  - apply walker_dispatch_ok; assumption.
  - apply walker_dispatch_ok; assumption.
  - cbn [walk]. apply bind_trace; [apply walker_dispatch_ok; assumption|].
    intros err1 Herr1.
    destruct (negb (bool_decide ((if r then None else Some ErrPermission) = None))
              || negb (bool_decide (err1 = None))); [constructor|].
    apply walk_children_dispatch_ok; assumption.
Qed.

Lemma Walk_dispatch_ok :
  forallb valid_tree (proj_tree fs) = true ->
  Forall dispatch_ok' (snd (Walk pp ignores fs glob_meta)).
Proof.
  intros Hvalid. unfold Walk. apply bind_trace.
  - pose proof (walk_dispatch_ok (Dir [] (proj_readable fs) (proj_tree fs)) Hvalid []
                  (or_introl eq_refl) eq_refl) as H.
    rewrite app_nil_r in H. exact H.
  - intros a _. destruct (bool_decide (a = Some SkipDir)); constructor.
Qed.

(** The profile of a directory below the project directory. *)
Lemma profile_path_below (rel : gostring) :
  rel <> [] -> rel_tidy pp rel -> is_abs rel = false ->
  Abs pp (processDIR_profile rel) = (pp ++ rel) ++ SEPARATOR ++ pkgFilename /\
  Join ((pp ++ rel) ++ SEPARATOR) pkgFilename = (pp ++ rel) ++ SEPARATOR ++ pkgFilename.
Proof.
  intros Hne [->|[_ Htidy]] Habs; [congruence|].
  destruct (clean_base_spec _ clean_project) as [Hbase _].
  assert (Hpp : pp <> []) by (rewrite pp_base; destruct (srcPath ++ projectFlag); discriminate).
  assert (Hq : pp ++ rel <> []) by (destruct pp; [congruence | discriminate]).
  assert (Hpkg : valid_name pkgFilename = true) by reflexivity.
  change (SEPARATOR ++ pkgFilename) with (sep :: pkgFilename).
  destruct (Clean_child (pp ++ rel) ((pp ++ rel) ++ sep :: pkgFilename) pkgFilename Htidy)
    as [HC _].
  { apply is_abs_app. exact Hq. }
  { apply Clean_elems_child; assumption. }
  split.
  - unfold Abs, processDIR_profile.
    rewrite is_abs_app, Habs by exact Hne.
    rewrite Join_nonempty by exact Hpp.
    rewrite <- HC.
    change (SEPARATOR ++ ?x) with (sep :: x).
    change (rel ++ sep :: str "profile.coverprofile") with (rel ++ sep :: pkgFilename).
    revert Hbase. rewrite pp_base. generalize (srcPath ++ projectFlag). intros base Hbase.
    apply Clean_same_elems.
    + rewrite <- !app_assoc. rewrite !is_abs_app by exact Hbase. reflexivity.
    + rewrite Clean_elems_double_sep by exact Hbase.
      rewrite <- !app_assoc. reflexivity.
  - rewrite Join_nonempty by (destruct (pp ++ rel); [congruence | discriminate]).
    rewrite <- HC. change (SEPARATOR ++ ?x) with (sep :: x).
    apply Clean_same_elems.
    + rewrite <- !app_assoc. rewrite !is_abs_app by exact Hpp. reflexivity.
    + change (((pp ++ rel) ++ SEPARATOR) ++ sep :: pkgFilename)
        with (((pp ++ rel) ++ [sep]) ++ sep :: pkgFilename).
      apply Clean_elems_double_sep. exact Hq.
Qed.

End DispatchPaths.


(** * The ignore set and the paths of the walk *)

Lemma child_rel_join_sep (names : list gostring) (n : gostring) :
  Forall (fun n => valid_name n = true) names ->
  child_rel (join_sep names) n = join_sep (names ++ [n]).
Proof.
  intros Hv. destruct names as [|e names]; [reflexivity|].
  rewrite join_sep_snoc by discriminate.
  apply Forall_cons_iff in Hv as [(Hne & _)%valid_name_spec _].
  destruct (join_sep_head e names) as [rest ->].
  destruct e as [|c e]; [congruence|]. reflexivity.
Qed.

Lemma walker_ignores_ext (projectPath : gostring) (ign1 ign2 : gset gostring)
    (fs : filesystem) (glob_meta : gostring -> list gostring * option error)
    (rel : gostring) (info : option FileInfo) (err : option error) :
  (rel ∈ ign1 <-> rel ∈ ign2) ->
  walker projectPath ign1 fs glob_meta (projectPath ++ rel) info err
  = walker projectPath ign2 fs glob_meta (projectPath ++ rel) info err.
Proof.
  intros H. unfold walker. rewrite Replace_first_prefix. cbn [app].
  destruct (decide (rel ∈ ign1)) as [H1|H1], (decide (rel ∈ ign2)) as [H2|H2];
    try reflexivity; tauto.
Qed.

Section IgnoresExt.

Variables srcPath projectFlag : gostring.
Variables ign1 ign2 : gset gostring.
Variable fs : filesystem.
Variable glob_meta : gostring -> list gostring * option error.

Hypothesis clean_project : clean_base (srcPath ++ projectFlag) = true.
Hypothesis agree : ignores_agree ign1 ign2.

Local Abbreviation pp := (runMain_projectPath srcPath projectFlag).

Lemma walk_children_ignores_ext (names : list gostring) (es : list entry) :
  Forall (fun e => valid_children e = true ->
                   forall names,
                     Forall (fun n => valid_name n = true) names ->
                     rel_tidy pp (join_sep names) ->
                     walk pp ign1 fs glob_meta (pp ++ join_sep names) e
                     = walk pp ign2 fs glob_meta (pp ++ join_sep names) e) es ->
  forallb valid_tree es = true ->
  Forall (fun n => valid_name n = true) names ->
  rel_tidy pp (join_sep names) ->
  walk_children pp ign1 fs glob_meta (walk pp ign1 fs glob_meta) (pp ++ join_sep names) es
  = walk_children pp ign2 fs glob_meta (walk pp ign2 fs glob_meta) (pp ++ join_sep names) es.
Proof.
  intros IH Hvalid Hnames Hrel.
  induction es as [|e es IHes]; [reflexivity|].
  cbn [forallb] in Hvalid. apply andb_true_iff in Hvalid as [He Hes].
  apply valid_tree_spec in He as [Hname Hch].
  inversion IH as [|? ? IHe IH']; subst.
  cbn [walk_children]. rewrite (IHes IH' Hes).
  destruct (Join_child srcPath projectFlag clean_project _ _ Hrel Hname) as [-> Hnts].
  rewrite child_rel_join_sep in * by exact Hnames.
  assert (Hnames' : Forall (fun n => valid_name n = true) (names ++ [entry_name e])).
  { apply Forall_app. split; [exact Hnames|]. constructor; [exact Hname | constructor]. }
  destruct e as [n|n r ch|n].
  - rewrite (IHe Hch _ Hnames' Hnts). reflexivity.
  - rewrite (IHe Hch _ Hnames' Hnts). reflexivity.
  - rewrite (walker_ignores_ext pp ign1 ign2) by (apply agree; exact Hnames').
    reflexivity.
Qed.

Lemma walk_ignores_ext (e : entry) :
  valid_children e = true ->
  forall names,
    Forall (fun n => valid_name n = true) names ->
    rel_tidy pp (join_sep names) ->
    walk pp ign1 fs glob_meta (pp ++ join_sep names) e
    = walk pp ign2 fs glob_meta (pp ++ join_sep names) e.
Proof.
  induction e as [n|n|n r ch IH] using entry_ind2; intros Hvalid names Hnames Hrel;
    cbn [walk].
  - apply walker_ignores_ext, agree, Hnames.
  - apply walker_ignores_ext, agree, Hnames.
  - rewrite (walker_ignores_ext pp ign1 ign2) by (apply agree; exact Hnames).
    rewrite (walk_children_ignores_ext names ch IH Hvalid Hnames Hrel). reflexivity.
Qed.

Lemma Walk_ignores_ext :
  forallb valid_tree (proj_tree fs) = true ->
  Walk pp ign1 fs glob_meta = Walk pp ign2 fs glob_meta.
Proof.
  intros Hvalid. unfold Walk.
  pose proof (walk_ignores_ext (Dir [] (proj_readable fs) (proj_tree fs)) Hvalid []
                (Forall_nil_2 _) (or_introl eq_refl)) as H.
  cbn [join_sep] in H. rewrite app_nil_r in H. rewrite H. reflexivity.
Qed.

End IgnoresExt.

(** X5. Under a project path whose base [srcPath ++ projectFlag] is left
    as it is by [filepath.Clean] and has an element, and on a tree with
    the names of a directory listing, an entry of the ignore list is
    compared with relative paths made of names and single separators. An
    entry that is not empty and not of this form (a separator at its
    start or end, a doubled separator, an element ["."] or [".."], as in
    ["vendor/"], ["./vendor"] or ["/vendor"]) ignores nothing: the walk is
    the same with and without it. *)
Theorem unclean_ignore_entry_has_no_effect (srcPath projectFlag v : gostring)
    (ignores : gset gostring) (fs : filesystem)
    (glob_meta : gostring -> list gostring * option error) :
  clean_base (srcPath ++ projectFlag) = true ->
  forallb valid_tree (proj_tree fs) = true ->
  v <> [] ->
  forallb valid_name (Split v sep) = false ->
  Walk (runMain_projectPath srcPath projectFlag) ({[ v ]} ∪ ignores) fs glob_meta
  = Walk (runMain_projectPath srcPath projectFlag) ignores fs glob_meta.
Proof.
  intros Hclean Hvalid Hne Hv.
  apply Walk_ignores_ext; [exact Hclean | | exact Hvalid].
  intros names Hnames. rewrite elem_of_union, elem_of_singleton.
  split; [intros [Heq|H]; [|exact H] | auto].
  exfalso. destruct names as [|e names]; [apply Hne; rewrite <- Heq; reflexivity|].
  assert (Hsplit : Split v sep = e :: names).
  { rewrite <- Heq. apply Split_join_sep; [discriminate|].
    eapply Forall_impl; [exact Hnames|]. intros n. apply valid_name_no_sep. }
  rewrite Hsplit in Hv.
  assert (forallb valid_name (e :: names) = true); [|congruence].
  apply forallb_forall. intros x Hx. rewrite Forall_forall in Hnames.
  apply Hnames, list_elem_of_In. exact Hx.
Qed.

(** * No directory is dispatched twice *)

Lemma seg_unique (m1 m2 t1 t2 : gostring) :
  ~ In sep m1 -> ~ In sep m2 ->
  (t1 = [] \/ exists r, t1 = sep :: r) -> (t2 = [] \/ exists r, t2 = sep :: r) ->
  m1 ++ t1 = m2 ++ t2 -> m1 = m2.
Proof.
  revert m2. induction m1 as [|c m1 IH]; intros [|d m2] H1 H2 Ht1 Ht2 Heq;
    cbn [app] in Heq.
  - reflexivity.
  - exfalso. destruct Ht1 as [->|[r ->]]; [discriminate|].
    injection Heq as <- _. apply H2. left. reflexivity.
  - exfalso. destruct Ht2 as [->|[r ->]]; [discriminate|].
    injection Heq as -> _. apply H1. left. reflexivity.
  - injection Heq as -> Heq. f_equal.
    apply (IH m2); try assumption.
    + intros Hin. apply H1. right. exact Hin.
    + intros Hin. apply H2. right. exact Hin.
Qed.

Lemma under_child (rel m x : gostring) :
  rel <> [] -> under (child_rel rel m) x -> under rel x /\ x <> rel.
Proof.
  intros Hne. destruct rel as [|c rel]; [congruence|]. cbn [child_rel].
  change (SEPARATOR ++ m) with (sep :: m).
  assert (Hlen : forall rest, (c :: rel) ++ sep :: rest <> c :: rel).
  { intros rest Heq. apply (f_equal (@length ascii)) in Heq.
    rewrite length_app in Heq. cbn [length] in Heq. lia. }
  intros [->|[rest ->]].
  - split; [right; exists m; reflexivity | apply Hlen].
  - rewrite <- app_assoc. cbn [app]. split; [right; eexists; reflexivity | apply Hlen].
Qed.

Lemma under_siblings (rel m1 m2 x : gostring) :
  valid_name m1 = true -> valid_name m2 = true ->
  under (child_rel rel m1) x -> under (child_rel rel m2) x -> m1 = m2.
Proof.
  intros (_ & Hs1 & _)%valid_name_spec (_ & Hs2 & _)%valid_name_spec H1 H2.
  set (pre := match rel with [] => [] | _ => rel ++ [sep] end).
  assert (Hc : forall m, child_rel rel m = pre ++ m).
  { intros m. subst pre. destruct rel; [reflexivity|]. cbn [child_rel].
    rewrite <- app_assoc. reflexivity. }
  assert (Hcase : forall m, under (child_rel rel m) x ->
             exists t, x = pre ++ m ++ t /\ (t = [] \/ exists r, t = sep :: r)).
  { intros m [->|[rest ->]]; rewrite Hc.
    - exists []. rewrite app_nil_r. auto.
    - exists (sep :: rest). rewrite <- app_assoc. eauto. }
  destruct (Hcase _ H1) as (t1 & -> & Ht1). destruct (Hcase _ H2) as (t2 & Heq & Ht2).
  apply app_inv_head in Heq. exact (seg_unique _ _ _ _ Hs1 Hs2 Ht1 Ht2 Heq).
Qed.

Lemma candidates_under (ignores : gset gostring) (e : entry) :
  forall rel x : gostring,
    rel <> [] -> valid_tree e = true ->
    In x (candidates ignores rel e) -> under rel x.
Proof.
  induction e as [n|n|n r ch IH] using entry_ind2; intros rel x Hne Hvalid Hin;
    cbn [candidates] in Hin; try destruct Hin.
  destruct (decide (rel ∈ ignores)); [destruct Hin|].
  destruct r; [|destruct Hin].
  apply valid_tree_spec in Hvalid as [_ Hvch]. cbn [valid_children] in Hvch.
  apply in_app_or in Hin as [Hin|Hin].
  - destruct (has_test ch); [|destruct Hin]. destruct Hin as [<-|[]]. left. reflexivity.
  - apply in_flat_map in Hin as (c & Hc & Hx).
    rewrite Forall_forall in IH. rewrite forallb_forall in Hvch.
    pose proof (valid_tree_spec _ (Hvch _ Hc)) as [Hname _].
    apply (under_child rel (entry_name c)); [exact Hne|].
    apply (IH c); [apply list_elem_of_In; exact Hc | | apply Hvch; exact Hc | exact Hx].
    apply child_rel_nonempty. apply valid_name_spec in Hname. tauto.
Qed.

Lemma candidates_below_NoDup (ignores : gset gostring) (rel : gostring) (es : list entry) :
  Forall (fun e => forall rel : gostring,
                     rel <> [] -> plain_tree e = true -> valid_tree e = true ->
                     NoDup (candidates ignores rel e)) es ->
  NoDup (map entry_name es) ->
  forallb plain_tree es = true -> forallb valid_tree es = true ->
  NoDup (candidates_below ignores rel es).
Proof.
  intros IH Hnd Hplain Hvalid. unfold candidates_below.
  induction es as [|c es IHes]; [constructor|].
  inversion IH as [|? ? IHc IH']; subst.
  cbn [map] in Hnd. inversion Hnd as [|? ? Hnotin Hnd']; subst.
  cbn [forallb] in Hplain, Hvalid.
  apply andb_true_iff in Hplain as [Hpc Hpes]. apply andb_true_iff in Hvalid as [Hvc Hves].
  pose proof (valid_tree_spec _ Hvc) as [Hname _].
  assert (Hne : child_rel rel (entry_name c) <> []).
  { apply child_rel_nonempty. apply valid_name_spec in Hname. tauto. }
  cbn [flat_map]. apply NoDup_app. split; [apply IHc; assumption|].
  split; [|apply IHes; assumption].
  intros x Hx%list_elem_of_In Hx'%list_elem_of_In.
  apply in_flat_map in Hx' as (c' & Hc' & Hx').
  rewrite forallb_forall in Hves.
  pose proof (valid_tree_spec _ (Hves _ Hc')) as [Hname' _].
  apply Hnotin. apply list_elem_of_In.
  assert (Heq : entry_name c = entry_name c').
  { apply (under_siblings rel _ _ x Hname Hname').
    - apply (candidates_under ignores c); assumption.
    - apply (candidates_under ignores c'); [| apply Hves; exact Hc' | exact Hx'].
      apply child_rel_nonempty. apply valid_name_spec in Hname'. tauto. }
  rewrite Heq. apply in_map. exact Hc'.
Qed.

Lemma candidates_NoDup (ignores : gset gostring) (e : entry) :
  forall rel : gostring,
    rel <> [] -> plain_tree e = true -> valid_tree e = true ->
    NoDup (candidates ignores rel e).
Proof.
  induction e as [n|n|n r ch IH] using entry_ind2; intros rel Hne Hplain Hvalid;
    cbn [candidates]; try constructor.
  destruct (decide (rel ∈ ignores)); [constructor|].
  destruct r; [|constructor].
  destruct (plain_tree_spec _ Hplain) as [_ [Hnd Hpch]].
  pose proof Hvalid as Hvalid0.
  apply valid_tree_spec in Hvalid as [_ Hvch]. cbn [valid_children] in Hvch.
  apply NoDup_app. split; [destruct (has_test ch); [apply NoDup_singleton | constructor]|].
  split; [|apply (candidates_below_NoDup ignores rel ch); assumption].
  intros x Hx Hx'%list_elem_of_In. apply in_flat_map in Hx' as (c & Hc & Hx').
  assert (x = rel) as ->.
  { destruct (has_test ch); [|inversion Hx]. apply list_elem_of_singleton in Hx. exact Hx. }
  rewrite forallb_forall in Hvch.
  pose proof (valid_tree_spec _ (Hvch _ Hc)) as [Hname _].
  apply (under_child rel (entry_name c) rel Hne); [|reflexivity].
  apply (candidates_under ignores c); [| apply Hvch; exact Hc | exact Hx'].
  apply child_rel_nonempty. apply valid_name_spec in Hname. tauto.
Qed.

Lemma candidates_below_nonempty (ignores : gset gostring) (es : list entry) (x : gostring) :
  forallb valid_tree es = true ->
  In x (candidates_below ignores [] es) -> x <> [].
Proof.
  intros Hvalid Hin. apply in_flat_map in Hin as (c & Hc & Hx).
  rewrite forallb_forall in Hvalid.
  pose proof (valid_tree_spec _ (Hvalid _ Hc)) as [(Hne & _)%valid_name_spec _].
  cbn [child_rel] in Hx.
  destruct (candidates_under ignores c _ x Hne (Hvalid _ Hc) Hx) as [->|[rest ->]];
    [exact Hne|].
  destruct (entry_name c); [congruence | discriminate].
Qed.

Lemma NoDup_map_inj {A B} (f : A -> B) (l : list A) :
  (forall x y, f x = f y -> x = y) -> NoDup l -> NoDup (map f l).
Proof.
  intros Hinj. induction 1 as [|x l Hx Hl IH]; cbn [map]; constructor; [|exact IH].
  intros Hin%list_elem_of_In%in_map_iff. destruct Hin as (y & Heq & Hy).
  apply Hinj in Heq as ->. apply Hx, list_elem_of_In. exact Hy.
Qed.

Lemma discovery_rels (projectPath : gostring) (ignores : gset gostring) (fs : filesystem) :
  plain_fs fs = true ->
  exists rels,
    NoDup rels /\ discovery projectPath ignores fs = map (dispatch_of projectPath) rels.
Proof.
  unfold plain_fs. intros [[Hnd Hplain]%andb_true_iff Hvalid]%andb_true_iff.
  apply bool_decide_eq_true in Hnd. unfold discovery.
  destruct (decide ([] ∈ ignores)); [exists []; split; [constructor | reflexivity]|].
  assert (Hcand : NoDup (candidates_below ignores [] (proj_tree fs))).
  { apply candidates_below_NoDup; try assumption.
    apply Forall_forall. intros e _. apply candidates_NoDup. }
  exists ((if has_test (fs_root fs) then [[]] else [])
          ++ (if proj_readable fs then candidates_below ignores [] (proj_tree fs) else [])).
  split.
  - apply NoDup_app.
    split; [destruct (has_test (fs_root fs)); [apply NoDup_singleton | constructor]|].
    split; [|destruct (proj_readable fs); [exact Hcand | constructor]].
    intros x Hx Hx'. destruct (has_test (fs_root fs)); [|inversion Hx].
    apply list_elem_of_singleton in Hx as ->.
    destruct (proj_readable fs); [|inversion Hx'].
    apply list_elem_of_In in Hx'.
    exact (candidates_below_nonempty _ _ _ Hvalid Hx' eq_refl).
  - rewrite map_app. f_equal.
    + destruct (has_test (fs_root fs)); [|reflexivity]. cbn [map]. unfold dispatch_of.
      rewrite app_nil_r. reflexivity.
    + destruct (proj_readable fs); reflexivity.
Qed.


(** * Runs of [testFiles]: length, end and result *)

Lemma workers_weight_app (ws : list worker) (w : worker) :
  workers_weight (ws ++ [w]) = workers_weight ws + pc_weight (w_pc w).
Proof. induction ws as [|w0 ws IH]; cbn [app workers_weight]; [lia | rewrite IH; lia]. Qed.

Lemma workers_weight_insert (ws : list worker) (i : nat) (w w' : worker) :
  ws !! i = Some w ->
  workers_weight (<[i:=w']> ws) + pc_weight (w_pc w)
  = workers_weight ws + pc_weight (w_pc w').
Proof.
  revert i. induction ws as [|w0 ws IH]; intros [|i] H; try discriminate.
  - injection H as ->. simpl. lia.
  - cbn in H. specialize (IH i H). simpl in *. lia.
Qed.

Lemma workers_weight_lookup (ws : list worker) (i : nat) (w : worker) :
  ws !! i = Some w -> pc_weight (w_pc w) <= workers_weight ws.
Proof.
  revert i. induction ws as [|w0 ws IH]; intros [|i] H; try discriminate.
  - injection H as ->. cbn [workers_weight]. lia.
  - cbn in H. specialize (IH i H). cbn [workers_weight]. lia.
Qed.

Section RunLength.

Variable coverFlag : gostring.
Variable go_test : gostring -> gostring -> exec_result.
Variable write_ok : bool.

Local Abbreviation step' := (step coverFlag go_test write_ok).
Local Abbreviation step_any' := (step_any coverFlag go_test write_ok).

Lemma step_decreases (l : label) (s s' : state) :
  step' l s s' -> measure s' < measure s.
Proof.
  intros Hstep. unfold measure.
  destruct Hstep as [s p r todo fin Hp Hm|s Hp Hm|s e Hp Hm|s Hp Hm|s Hp Hm
                    |s i p r b Hp Hi Hgo|s i p r Hp Hi Hgo
                    |s i p r b covers Hp Hi Hm|s i p r Hp Hi
                    |s covers Hp Hm Hz Hc|s covers Hp Hm Hc Hw|s covers Hp Hm Hc Hw];
    cbn [st_main st_workers st_wg st_closed st_file st_proc exit set_worker];
    rewrite Hp; try rewrite Hm; cbn [main_weight length].
  - rewrite workers_weight_app. cbn [pc_weight w_pc]. lia.
  - lia.
  - lia.
  - lia.
  - lia.
  - pose proof (workers_weight_insert _ _ _ (mkWorker p r (AtSend b)) Hi) as E.
    cbn [pc_weight w_pc] in E. lia.
  - pose proof (workers_weight_lookup _ _ _ Hi) as E.
    cbn [pc_weight w_pc] in E. lia.
  - pose proof (workers_weight_insert _ _ _ (mkWorker p r AtDone) Hi) as E.
    cbn [pc_weight w_pc] in E. lia.
  - pose proof (workers_weight_insert _ _ _ (mkWorker p r Finished) Hi) as E.
    cbn [pc_weight w_pc] in E. lia.
  - rewrite Hc. lia.
  - lia.
  - lia.
Qed.

Lemma nsteps_measure (n : nat) (s s' : state) :
  nsteps step_any' n s s' -> n + measure s' <= measure s.
Proof.
  induction 1 as [s|n s1 s2 s3 [l Hstep] _ IH]; [lia|].
  pose proof (step_decreases _ _ _ Hstep). lia.
Qed.

Lemma run_ends (todo : list (gostring * gostring)) (fin : outcome (option error))
    (s : state) :
  inv coverFlag go_test todo fin s ->
  exists s', rtc step_any' s s' /\ st_proc s' <> Running /\
             inv coverFlag go_test todo fin s'.
Proof.
  remember (measure s) as m eqn:Hm. revert s Hm.
  induction m as [m IH] using lt_wf_ind. intros s -> Hinv.
  destruct (st_proc s) eqn:Hp.
  - destruct (progress coverFlag go_test write_ok todo fin s Hinv Hp) as (l & s1 & Hstep).
    destruct (IH _ (step_decreases _ _ _ Hstep) s1 eq_refl) as (s' & Hrtc & Hend & Hinv').
    { exact (inv_step _ _ _ _ _ _ _ _ Hstep Hinv). }
    exists s'. split; [|split; assumption].
    eapply rtc_l; [exists l; exact Hstep | exact Hrtc].
  - exists s. split; [apply rtc_refl|]. split; [congruence | exact Hinv].
Qed.

End RunLength.

(** X7. A run of [testFiles] with [n] dispatched directories has at most
    [4 * n + 3] steps (a dispatch, the run of the command, the hand-over
    and [wg.Done()] for each directory; the end of the walk, [close] and
    the write): no goroutine can go on for ever. *)
Theorem runs_are_bounded (coverFlag : gostring)
    (go_test : gostring -> gostring -> exec_result) (write_ok : bool)
    (todo : list (gostring * gostring)) (fin : outcome (option error))
    (n : nat) (s : state) :
  nsteps (step_any coverFlag go_test write_ok) n (init todo fin) s ->
  n <= 4 * length todo + 3.
Proof.
  intros H. apply nsteps_measure in H. unfold measure at 2 in H.
  cbn [init st_proc st_main st_workers st_closed main_weight workers_weight] in H. lia.
Qed.

(** X8. From every state of a run the process can come to its end, and
    every step brings it nearer: there is no deadlock and no way to go
    round in circles. *)
Theorem every_run_can_end (coverFlag : gostring)
    (go_test : gostring -> gostring -> exec_result) (write_ok : bool)
    (todo : list (gostring * gostring)) (fin : outcome (option error)) (s : state) :
  reachable coverFlag go_test write_ok todo fin s ->
  (exists s', rtc (step_any coverFlag go_test write_ok) s s' /\
              exists code, st_proc s' = Exited code) /\
  (forall l s', step coverFlag go_test write_ok l s s' -> measure s' < measure s).
Proof.
  intros Hs. split; [|intros l s'; apply step_decreases].
  apply inv_reachable in Hs.
  destruct (run_ends coverFlag go_test write_ok todo fin s Hs) as (s' & Hrtc & Hend & _).
  exists s'. split; [exact Hrtc|].
  destruct (st_proc s') as [|code]; [congruence | eauto].
Qed.

Section RunResult.

Variable coverFlag : gostring.
Variable go_test : gostring -> gostring -> exec_result.
Variable write_ok : bool.
Variable todo0 : list (gostring * gostring).
Variable fin0 : outcome (option error).

Local Abbreviation step' := (step coverFlag go_test write_ok).
Local Abbreviation step_any' := (step_any coverFlag go_test write_ok).
Local Abbreviation inv' := (inv coverFlag go_test todo0 fin0).

Lemma inv_worker_dispatched (s : state) (i : nat) (w : worker) :
  inv' s -> st_workers s !! i = Some w -> In (w_dir w) todo0.
Proof.
  intros (_ & _ & _ & Hmain) Hi.
  assert (Hin : In (w_dir w) (map w_dir (st_workers s))).
  { apply in_map, list_elem_of_In, list_elem_of_lookup. exists i. exact Hi. }
  destruct (st_main s) as [todo fin|covers|].
  - destruct Hmain as (<- & _). apply in_or_app. left. exact Hin.
  - destruct Hmain as (<- & _). exact Hin.
  - destruct Hmain as (<- & _). exact Hin.
Qed.

(** The way a step ends the process. *)
Lemma step_exit (l : label) (s s' : state) (code : nat) :
  inv' s -> step' l s s' -> st_proc s' = Exited code ->
  (code = 0 /\ write_ok = true /\ fin0 = Ret None /\
   exists covers, st_main s = MRange covers /\ st_closed s = true) \/
  (code = 1 /\ exists e, fin0 = Ret (Some e)) \/
  (code = 1 /\ fin0 = Abort OsExit1) \/
  (code = 2 /\ fin0 = Abort NilDereference) \/
  (code = 1 /\ exists d, In d todo0 /\ is_profile (go_test (fst d) (snd d)) = false) \/
  (code = 1 /\ write_ok = false).
Proof.
  intros Hinv Hstep Hcode. pose proof Hinv as (_ & _ & _ & Hmain).
  destruct Hstep as [s p r todo fin Hp Hm|s Hp Hm|s e Hp Hm|s Hp Hm|s Hp Hm
                    |s i p r b Hp Hi Hgo|s i p r Hp Hi Hgo
                    |s i p r b covers Hp Hi Hm|s i p r Hp Hi
                    |s covers Hp Hm Hz Hc|s covers Hp Hm Hc Hw|s covers Hp Hm Hc Hw];
    cbn [st_proc exit set_worker] in Hcode; try congruence; try rewrite Hm in Hmain.
  - destruct Hmain as (_ & <- & _). injection Hcode as <-. right. left. eauto.
  - destruct Hmain as (_ & <- & _). injection Hcode as <-. right. right. left. auto.
  - destruct Hmain as (_ & <- & _). injection Hcode as <-. do 3 right. left. auto.
  - injection Hcode as <-. do 4 right. left. split; [reflexivity|].
    exists (p, r). split; [|exact Hgo].
    exact (inv_worker_dispatched s i (mkWorker p r AtRun) Hinv Hi).
  - destruct Hmain as (_ & -> & _). injection Hcode as <-. left. eauto 10.
  - injection Hcode as <-. do 5 right. auto.
Qed.

Lemma reachable_exit (s : state) (code : nat) :
  reachable coverFlag go_test write_ok todo0 fin0 s ->
  st_proc s = Exited code ->
  match code with
  | 0 => write_ok = true /\ fin0 = Ret None /\ all_pass go_test todo0
  | 1 => (exists e, fin0 = Ret (Some e)) \/ fin0 = Abort OsExit1 \/
         (exists d, In d todo0 /\ is_profile (go_test (fst d) (snd d)) = false) \/
         write_ok = false
  | 2 => fin0 = Abort NilDereference
  | _ => False
  end.
Proof.
  unfold reachable. intros Hs. revert code. revert s Hs.
  apply (rtc_ind_r (fun s => forall code, st_proc s = Exited code -> _));
    [discriminate|].
  intros s1 s2 Hs1 [l Hstep] IH code Hcode.
  assert (Hrun : st_proc s1 = Running) by (destruct Hstep; assumption).
  pose proof (inv_reachable _ _ _ _ _ _ Hs1) as Hinv.
  destruct (step_exit _ _ _ _ Hinv Hstep Hcode)
    as [(-> & Hw & Hf & covers & Hm & Hc)|[(-> & e & Hf)|[(-> & Hf)|[(-> & Hf)
       |[(-> & d & Hd & Hfail)|(-> & Hw)]]]]]; auto.
  - split; [exact Hw|]. split; [exact Hf|].
    destruct Hinv as (Hwg & Hok & Hcl & Hmain). rewrite Hm in Hmain.
    destruct Hmain as (<- & _). specialize (Hcl Hc). rewrite Hwg in Hcl.
    unfold all_pass. rewrite Forall_map. apply Forall_forall. intros w Hw'.
    apply list_elem_of_lookup in Hw' as [i Hi].
    pose proof (unfinished_zero _ _ _ Hcl Hi) as Hfin.
    rewrite Forall_forall in Hok.
    assert (Hin : w ∈ st_workers s1) by (apply list_elem_of_lookup; eauto).
    specialize (Hok _ Hin). unfold worker_ok in Hok. rewrite Hfin in Hok. exact Hok.
  - left. eauto.
  - right. right. left. eauto.
Qed.

End RunResult.

(** X9. The exit status tells what happened. It is 0 exactly when the
    report has been written, and then the walk had ended without error,
    every dispatched directory had passed and the file could be written; 1
    when the walk failed, a directory failed or the file could not be
    written; 2 when [walker] hit a nil [info]. No other status occurs, and
    without status 0 there is no report. *)
Theorem exit_status_meaning (coverFlag : gostring)
    (go_test : gostring -> gostring -> exec_result) (write_ok : bool)
    (todo : list (gostring * gostring)) (fin : outcome (option error))
    (s : state) (code : nat) :
  reachable coverFlag go_test write_ok todo fin s ->
  st_proc s = Exited code ->
  (code = 0 <-> st_file s <> None) /\
  match code with
  | 0 => write_ok = true /\ fin = Ret None /\ all_pass go_test todo
  | 1 => (exists e, fin = Ret (Some e)) \/ fin = Abort OsExit1 \/
         (exists d, In d todo /\ is_profile (go_test (fst d) (snd d)) = false) \/
         write_ok = false
  | 2 => fin = Abort NilDereference
  | _ => False
  end.
Proof.
  intros Hs Hcode. split; [|exact (reachable_exit _ _ _ _ _ s code Hs Hcode)].
  apply inv_reachable in Hs as (_ & _ & _ & Hmain).
  destruct (st_main s) as [todo' fin'|covers|].
  - destruct Hmain as (_ & _ & _ & Hf & Hp & _). rewrite Hf.
    split; [intros ->; congruence | congruence].
  - destruct Hmain as (_ & _ & _ & Hf & Hp). rewrite Hf.
    split; [intros ->; congruence | congruence].
  - destruct Hmain as (_ & _ & Hp & _ & covers & _ & Hf). rewrite Hf.
    split; [discriminate | intros _; congruence].
Qed.

Lemma all_pass_run (coverFlag : gostring)
    (go_test : gostring -> gostring -> exec_result)
    (todo : list (gostring * gostring)) (s : state) :
  all_pass go_test todo ->
  reachable coverFlag go_test true todo (Ret None) s ->
  (forall code, st_proc s = Exited code ->
     code = 0 /\
     exists covers,
       Permutation covers (profiles go_test todo) /\
       st_file s = Some (testFiles_final coverFlag covers)) /\
  (exists s', rtc (step_any coverFlag go_test true) s s' /\ st_proc s' = Exited 0).
Proof.
  intros Hpass Hs.
  assert (Hok : forall s code,
             reachable coverFlag go_test true todo (Ret None) s ->
             st_proc s = Exited code -> code = 0).
  { intros s0 code Hs0 Hcode.
    pose proof (reachable_exit _ _ _ _ _ s0 code Hs0 Hcode) as H.
    destruct code as [|[|[|code]]]; [reflexivity | | discriminate | destruct H].
    destruct H as [[e H]|[H|[(d & Hd & Hfail)|H]]]; try discriminate.
    unfold all_pass in Hpass. rewrite Forall_forall in Hpass.
    apply list_elem_of_In, Hpass in Hd. congruence. }
  split.
  - intros code Hcode. pose proof (Hok s code Hs Hcode) as ->. split; [reflexivity|].
    pose proof (inv_reachable _ _ _ _ _ _ Hs) as (_ & _ & _ & Hmain).
    destruct (st_main s) as [todo' fin'|covers|] eqn:Hm.
    + destruct Hmain as (_ & _ & _ & _ & Hp & _). congruence.
    + destruct Hmain as (_ & _ & _ & _ & Hp). congruence.
    + destruct Hmain as (_ & _ & _ & _ & covers & _ & Hf).
      destruct (written_file_is_merge _ _ _ _ _ s _ Hs Hf) as (covers' & Hperm & Heq).
      exists covers'. split; [exact Hperm|]. rewrite Hf, Heq. reflexivity.
  - destruct (run_ends coverFlag go_test true todo (Ret None) s (inv_reachable _ _ _ _ _ _ Hs))
      as (s' & Hrtc & Hend & _).
    exists s'. split; [exact Hrtc|].
    destruct (st_proc s') as [|code] eqn:Hp; [congruence|].
    rewrite (Hok s' code); [reflexivity | | exact Hp].
    unfold reachable in *. etransitivity; eassumption.
Qed.

(** X10. When the walk ends without error, every dispatched directory
    passes and the file can be written, the run cannot fail: from every
    state it comes to exit status 0, and whenever it has ended the report
    is the header and the profiles of all dispatched directories, each
    once, with their headers taken out, in the order in which they
    arrived. *)
Theorem all_pass_report (coverFlag : gostring)
    (go_test : gostring -> gostring -> exec_result)
    (todo : list (gostring * gostring)) (s : state) :
  all_pass go_test todo ->
  reachable coverFlag go_test true todo (Ret None) s ->
  (forall code, st_proc s = Exited code ->
     code = 0 /\
     exists covers,
       Permutation covers (profiles go_test todo) /\
       st_file s = Some (testFiles_final coverFlag covers)) /\
  (exists s', rtc (step_any coverFlag go_test true) s s' /\ st_proc s' = Exited 0).
Proof. apply all_pass_run. Qed.

(** * [scanOutput] *)

Lemma fits_spec (l : gostring) :
  fits l = true -> ~ In nl l /\ length l < MaxScanTokenSize.
Proof.
  unfold fits. intros [H1 H2]%andb_true_iff. apply negb_true_iff in H1.
  apply Nat.ltb_lt in H2. split; [|exact H2]. intros Hin.
  assert (existsb (Ascii.eqb nl) l = true); [|congruence].
  apply existsb_exists. exists nl. split; [exact Hin | apply Ascii.eqb_refl].
Qed.

(** The rest of a line that fits, up to its newline. *)
Lemma Scan_go_line (l cur data : gostring) (rerr : option scan_error) :
  ~ In nl l -> length cur + length l < MaxScanTokenSize ->
  Scan_go (length cur) cur (l ++ nl :: data) rerr
  = (dropCR (rev cur ++ l) :: fst (Scan_go 0 [] data rerr),
     snd (Scan_go 0 [] data rerr)).
Proof.
  revert cur. induction l as [|c l IH]; intros cur Hnl Hlen; cbn [app Scan_go].
  - rewrite Ascii.eqb_refl, app_nil_r.
    destruct (Scan_go 0 [] data rerr); reflexivity.
  - destruct (Ascii.eqb c nl) eqn:E.
    { apply Ascii.eqb_eq in E as ->. exfalso. apply Hnl. left. reflexivity. }
    cbn [length] in Hlen.
    assert (Hlt : (S (length cur) <? MaxScanTokenSize) = true) by (apply Nat.ltb_lt; lia).
    rewrite Hlt. change (S (length cur)) with (length (c :: cur)).
    rewrite IH.
    + cbn [rev]. rewrite <- app_assoc. reflexivity.
    + intros Hin. apply Hnl. right. exact Hin.
    + cbn [length]. lia.
Qed.

(** A last line without newline that fits. *)
Lemma Scan_go_last (l cur : gostring) (rerr : option scan_error) :
  ~ In nl l -> length cur + length l < MaxScanTokenSize ->
  Scan_go (length cur) cur l rerr
  = (match rev cur ++ l with [] => [] | _ => [dropCR (rev cur ++ l)] end, rerr).
Proof.
  revert cur. induction l as [|c l IH]; intros cur Hnl Hlen; cbn [app Scan_go].
  - rewrite app_nil_r. destruct cur as [|c cur]; [reflexivity|].
    cbn [rev]. destruct (rev cur ++ [c]) eqn:E; [destruct (rev cur); discriminate|].
    reflexivity.
  - destruct (Ascii.eqb c nl) eqn:E.
    { apply Ascii.eqb_eq in E as ->. exfalso. apply Hnl. left. reflexivity. }
    cbn [length] in Hlen.
    assert (Hlt : (S (length cur) <? MaxScanTokenSize) = true) by (apply Nat.ltb_lt; lia).
    rewrite Hlt. change (S (length cur)) with (length (c :: cur)).
    rewrite IH.
    + cbn [rev]. rewrite <- app_assoc. reflexivity.
    + intros Hin. apply Hnl. right. exact Hin.
    + cbn [length]. lia.
Qed.

(** A line that fills the buffer. *)
Lemma Scan_go_long (l cur data : gostring) (rerr : option scan_error) :
  ~ In nl l -> length cur + length l = MaxScanTokenSize -> l <> [] ->
  Scan_go (length cur) cur (l ++ data) rerr = ([], Some ErrTooLong).
Proof.
  revert cur. induction l as [|c l IH]; intros cur Hnl Hlen Hne; [congruence|].
  cbn [app Scan_go].
  destruct (Ascii.eqb c nl) eqn:E.
  { apply Ascii.eqb_eq in E as ->. exfalso. apply Hnl. left. reflexivity. }
  cbn [length] in Hlen.
  destruct l as [|d l].
  - cbn [length] in Hlen.
    assert (Hlt : (S (length cur) <? MaxScanTokenSize) = false) by (apply Nat.ltb_ge; lia).
    rewrite Hlt. reflexivity.
  - assert (Hlt : (S (length cur) <? MaxScanTokenSize) = true)
      by (apply Nat.ltb_lt; cbn [length] in Hlen; lia).
    rewrite Hlt. change (S (length cur)) with (length (c :: cur)).
    apply IH; [|cbn [length] in *; lia | discriminate].
    intros Hin. apply Hnl. right. exact Hin.
Qed.

Lemma Scan_go_lines (ls : list gostring) (data : gostring) (rerr : option scan_error) :
  forallb fits ls = true ->
  Scan_go 0 [] (data_bytes ls ++ data) rerr
  = (map dropCR ls ++ fst (Scan_go 0 [] data rerr), snd (Scan_go 0 [] data rerr)).
Proof.
  induction ls as [|l ls IH]; intros Hfit.
  - cbn [data_bytes map concat app]. destruct (Scan_go 0 [] data rerr); reflexivity.
  - cbn [forallb] in Hfit. apply andb_true_iff in Hfit as [[Hnl Hlen]%fits_spec Hfit].
    unfold data_bytes in *. cbn [map concat]. rewrite <- !app_assoc. cbn [app].
    rewrite (Scan_go_line l [] _ rerr Hnl) by (cbn [length]; lia).
    rewrite IH by exact Hfit. reflexivity.
Qed.

(** X11. When every line of the output fits the buffer, [fn] is called
    once for each line, in order, with the line without its newline and
    without a carriage return before it; a last piece without newline
    counts as a line when it is not empty; a read error is reported after
    the lines. *)
Theorem scanOutput_logs_every_line (ls : list gostring) (last : gostring)
    (rerr : option gostring) :
  forallb fits ls = true -> fits last = true ->
  scanOutput (data_bytes ls ++ last) rerr
  = map dropCR ls
    ++ (match last with [] => [] | _ => [dropCR last] end)
    ++ (match rerr with Some msg => [str "Scan error: " ++ msg] | None => [] end).
Proof.
  intros Hls [Hnl Hlen]%fits_spec. unfold scanOutput.
  rewrite Scan_go_lines by exact Hls.
  rewrite (Scan_go_last last [] _ Hnl) by (cbn [length]; lia).
  cbn [fst snd rev app]. rewrite <- app_assoc. f_equal. f_equal.
  destruct rerr; reflexivity.
Qed.

(** X12. A line of [MaxScanTokenSize] bytes or more ends the scan: the
    lines before it are logged, then the scan error, and nothing of what
    follows, whatever it is; an error of the reader is not reported. *)
Theorem scanOutput_stops_at_long_line (ls : list gostring) (long rest : gostring)
    (rerr : option gostring) :
  forallb fits ls = true ->
  existsb (Ascii.eqb nl) long = false ->
  length long = MaxScanTokenSize ->
  scanOutput (data_bytes ls ++ long ++ rest) rerr
  = map dropCR ls ++ [str "Scan error: bufio.Scanner: token too long"].
Proof.
  intros Hls Hnl Hlen. unfold scanOutput.
  rewrite Scan_go_lines by exact Hls.
  rewrite (Scan_go_long long [] rest).
  - cbn [fst snd]. rewrite app_nil_r. reflexivity.
  - intros Hin.
    assert (existsb (Ascii.eqb nl) long = true); [|congruence].
    apply existsb_exists. exists nl. split; [exact Hin | apply Ascii.eqb_refl].
  - cbn [length]. exact Hlen.
  - intros ->. discriminate.
Qed.

(** * More on the merge *)

Lemma strip_length (s : gostring) : length (strip s) <= length s.
Proof.
  remember (length s) as n eqn:Hn. revert s Hn.
  induction n as [n IH] using lt_wf_ind. intros s ->.
  destruct s as [|c s]; [rewrite strip_nil; reflexivity|].
  destruct (match_here modeRegex (c :: s)) as [rest|] eqn:E.
  - apply modeRegex_match in E as (m & Hm & E). rewrite E, (strip_match m rest Hm).
    assert (Hlen : length rest < length (c :: s)).
    { rewrite E, !length_app. cbn [length]. lia. }
    rewrite <- E. specialize (IH _ Hlen rest eq_refl). lia.
  - rewrite (strip_keep c s E). cbn [length].
    specialize (IH (length s) (Nat.lt_succ_diag_r _) s eq_refl). lia.
Qed.

Lemma strip_id_no_match (s : gostring) :
  strip s = s ->
  forall pre m post, is_token m -> s <> pre ++ str "mode: " ++ m ++ nl :: post.
Proof.
  intros Hs pre. revert s Hs. induction pre as [|c pre IH]; intros s Hs m post Hm Heq.
  - cbn [app] in Heq. subst s. rewrite (strip_match m post Hm) in Hs.
    pose proof (strip_length post) as Hlen. rewrite Hs in Hlen.
    rewrite !length_app in Hlen. cbn [length] in Hlen. lia.
  - cbn [app] in Heq. subst s.
    destruct (match_here modeRegex (c :: pre ++ str "mode: " ++ m ++ nl :: post))
      as [rest|] eqn:E.
    + apply modeRegex_match in E as (m' & Hm' & E). rewrite E in Hs.
      rewrite (strip_match m' rest Hm') in Hs.
      pose proof (strip_length rest) as Hlen. rewrite Hs in Hlen.
      rewrite !length_app in Hlen. cbn [length] in Hlen. lia.
    + rewrite (strip_keep _ _ E) in Hs. injection Hs as Hs.
      exact (IH _ Hs m post Hm eq_refl).
Qed.

(** X13. The merge leaves a text as it is exactly when the text has, at no
    place, ["mode: "], one or more lowercase letters and a newline. *)
Theorem strip_fixed_point (s : gostring) :
  ReplaceAllString modeRegex s [] = s <->
  forall pre m post, is_token m -> s <> pre ++ str "mode: " ++ m ++ nl :: post.
Proof.
  split.
  - (* a match anywhere makes the result shorter *)
    apply strip_id_no_match.
  - (* without a match every character is copied *)
    induction s as [|c s IH]; intros Hno; [apply strip_nil|].
    destruct (match_here modeRegex (c :: s)) as [rest|] eqn:E.
    + apply modeRegex_match in E as (m & Hm & E). exfalso. exact (Hno [] m rest Hm E).
    + fold (strip (c :: s)). rewrite (strip_keep c s E). f_equal. apply IH.
      intros pre m post Hm Heq. apply (Hno (c :: pre) m post Hm). rewrite Heq. reflexivity.
Qed.

Lemma covermode_token (m : gostring) : parseFlags_covermode m = true -> is_token m.
Proof.
  intros H. apply mode_ok_token. apply parseFlags_covermode_spec in H as [->|[->| ->]];
    reflexivity.
Qed.

Lemma strip_renders_rest (arts : list artifact) (rest : gostring) :
  forallb wf_artifact arts = true ->
  strip (concat (map render arts) ++ rest)
  = data_bytes (concat (map art_data arts)) ++ strip rest.
Proof.
  induction arts as [|a arts IH]; intros Hwf; [reflexivity|].
  cbn [forallb] in Hwf. apply andb_true_iff in Hwf as [Ha Harts].
  cbn [map concat]. rewrite <- app_assoc, (strip_render a _ Ha), (IH Harts).
  rewrite data_bytes_app, <- app_assoc. reflexivity.
Qed.

Lemma wf_artifacts_data (arts : list artifact) :
  forallb wf_artifact arts = true ->
  forallb data_line_ok (concat (map art_data arts)) = true.
Proof.
  induction arts as [|a arts IH]; intros Hwf; [reflexivity|].
  cbn [forallb] in Hwf. apply andb_true_iff in Hwf as [Ha Harts].
  cbn [map concat]. rewrite forallb_app, (IH Harts), andb_true_r.
  unfold wf_artifact in Ha. apply andb_true_iff in Ha. tauto.
Qed.

(** X14. A report that the program has written under one of its cover
    modes is taken like the profiles it was made of: merging it with
    further profiles gives the merge of all of them. *)
Theorem merge_of_merged_report (coverFlag coverFlag1 : gostring)
    (arts : list artifact) (covers : list gostring) :
  parseFlags_covermode coverFlag1 = true ->
  forallb wf_artifact arts = true ->
  testFiles_final coverFlag (testFiles_final coverFlag1 (map render arts) :: covers)
  = testFiles_final coverFlag (map render arts ++ covers).
Proof.
  intros Hmode Hwf. rewrite !testFiles_final_strip. f_equal.
  cbn [concat]. rewrite concat_app, (strip_renders_rest arts _ Hwf).
  rewrite (strip_renders arts Hwf).
  unfold header. rewrite <- !app_assoc. cbn [app].
  rewrite (strip_match coverFlag1 _ (covermode_token _ Hmode)).
  apply strip_data. apply wf_artifacts_data. exact Hwf.
Qed.

(** * The pattern of the test files *)

Lemma Match_star_unfold (pattern name : gostring) :
  Match ("*"%char :: pattern) name
  = Match pattern name ||
    match name with
    | c :: name' => negb (Ascii.eqb c sep) && Match ("*"%char :: pattern) name'
    | [] => false
    end.
Proof. destruct name; reflexivity. Qed.

Lemma Match_literal (lit name : gostring) :
  ~ In "*"%char lit -> (Match lit name = true <-> name = lit).
Proof.
  revert name. induction lit as [|p lit IH]; intros name Hstar.
  - destruct name; cbn [Match]; split; congruence.
  - cbn [Match]. destruct (Ascii.eqb p "*") eqn:E.
    { apply Ascii.eqb_eq in E as ->. exfalso. apply Hstar. left. reflexivity. }
    destruct name as [|c name]; [split; discriminate|].
    rewrite andb_true_iff, Ascii.eqb_eq, IH by (intros Hin; apply Hstar; right; exact Hin).
    split; [intros [-> ->]; reflexivity | intros [= -> ->]; split; reflexivity].
Qed.

Lemma Match_star_literal (lit name : gostring) :
  ~ In "*"%char lit ->
  (Match ("*"%char :: lit) name = true <-> exists p, name = p ++ lit /\ ~ In sep p).
Proof.
  intros Hstar. induction name as [|c name IH]; rewrite Match_star_unfold.
  - rewrite orb_false_r, (Match_literal lit [] Hstar). split.
    + intros <-. exists []. split; [reflexivity | intros []].
    + intros (p & Heq & _). symmetry in Heq. apply app_eq_nil in Heq. symmetry. tauto.
  - rewrite orb_true_iff, (Match_literal lit (c :: name) Hstar), andb_true_iff,
      negb_true_iff, IH. split.
    + intros [Heq|[Hc (p & -> & Hp)]].
      * exists []. split; [exact Heq | intros []].
      * exists (c :: p). split; [reflexivity|]. intros [->|Hin]; [|exact (Hp Hin)].
        rewrite Ascii.eqb_refl in Hc. discriminate.
    + intros ([|d p] & Heq & Hp).
      * left. exact Heq.
      * cbn [app] in Heq. injection Heq as <- ->. right. split.
        -- destruct (Ascii.eqb c sep) eqn:E; [|reflexivity].
           apply Ascii.eqb_eq in E as ->. exfalso. apply Hp. left. reflexivity.
        -- exists p. split; [reflexivity|]. intros Hin. apply Hp. right. exact Hin.
Qed.

(** X15. A name counts as a test file exactly when it ends in
    ["_test.go"]; what stands before may be anything without a separator,
    and may be empty: the name ["_test.go"] itself counts. *)
Theorem test_file_names (name : gostring) :
  Match (str "*_test.go") name = true <->
  exists p, name = p ++ str "_test.go" /\ ~ In sep p.
Proof.
  apply (Match_star_literal (str "_test.go")).
  vm_compute. intuition discriminate.
Qed.

(** * The ignore set *)

Lemma ignores_foldl (l : list gostring) (X : gset gostring) :
  foldl (fun ignores v => {[ v ]} ∪ ignores) X l = list_to_set l ∪ X.
Proof.
  revert X. induction l as [|x l IH]; intros X; cbn [foldl list_to_set].
  - apply set_eq. intros y. rewrite elem_of_union, elem_of_empty. tauto.
  - rewrite IH. apply set_eq. intros y. rewrite !elem_of_union. tauto.
Qed.

Lemma Split_go_nonempty (c : ascii) (cur s : gostring) : Split_go c cur s <> [].
Proof.
  revert cur. induction s as [|d s IH]; intros cur; cbn [Split_go]; [discriminate|].
  destruct (Ascii.eqb d c); [discriminate | apply IH].
Qed.

(** X16. The ignore set as a function of the flag: a flag without comma is
    one entry, taken as it is (the empty flag is the empty entry); a comma
    joins two lists; so the set is never empty and no entry has a comma. *)
Theorem ignore_set_laws (a b : gostring) :
  (~ In ","%char a -> parseFlags_ignores a = {[ a ]}) /\
  parseFlags_ignores (a ++ ","%char :: b) = parseFlags_ignores a ∪ parseFlags_ignores b /\
  parseFlags_ignores a <> ∅ /\
  (forall v, v ∈ parseFlags_ignores a -> ~ In ","%char v).
Proof.
  assert (Hmem : forall s v, v ∈ parseFlags_ignores s <-> v ∈ Split s ","%char).
  { intros s v. unfold parseFlags_ignores.
    rewrite ignores_foldl, elem_of_union, elem_of_list_to_set, elem_of_empty. tauto. }
  split; [|split; [|split]].
  - intros Ha. apply set_eq. intros v. rewrite Hmem, elem_of_singleton.
    unfold Split. rewrite Split_go_no_sep by exact Ha. cbn [rev app].
    rewrite list_elem_of_singleton. tauto.
  - apply set_eq. intros v. rewrite elem_of_union, !Hmem.
    unfold Split. rewrite Split_go_app, elem_of_app. tauto.
  - pose proof (Split_go_nonempty ","%char [] a) as Hne. intros Hempty.
    destruct (Split_go ","%char [] a) as [|x l] eqn:E; [congruence|].
    assert (Hx : x ∈ parseFlags_ignores a).
    { apply Hmem. unfold Split. rewrite E. left. }
    rewrite Hempty in Hx. exact (not_elem_of_empty x Hx).
  - intros v Hv%Hmem.
    pose proof (Split_pieces a ","%char) as Hall. rewrite Forall_forall in Hall.
    exact (Hall _ Hv).
Qed.

(** * The command of [processDIR] *)

(** X17. Under a project path whose base [srcPath ++ projectFlag] is left
    as it is by [filepath.Clean] and has an element, and on a tree with
    the names of a directory listing: for every directory that the walk
    dispatches, [args] has exactly the length that [make] reserved, so
    that [append] never has to move it; its last element, the package to
    test, is [projectFlag], a separator and the relative path, and names
    the dispatched directory from [srcPath]. *)
Theorem processDIR_command (srcPath projectFlag coverFlag : gostring)
    (Args : list gostring) (ignores : gset gostring) (fs : filesystem)
    (glob_meta : gostring -> list gostring * option error)
    (fullPath relPath : gostring) :
  clean_base (srcPath ++ projectFlag) = true ->
  forallb valid_tree (proj_tree fs) = true ->
  In (fullPath, relPath)
    (dispatched (snd (Walk (runMain_projectPath srcPath projectFlag) ignores fs glob_meta))) ->
  length (processDIR_args coverFlag projectFlag Args fullPath relPath)
  = processDIR_args_cap Args /\
  List.last (processDIR_args coverFlag projectFlag Args fullPath relPath) []
  = projectFlag ++ SEPARATOR ++ relPath /\
  srcPath ++ List.last (processDIR_args coverFlag projectFlag Args fullPath relPath) []
  = fullPath.
Proof.
  intros Hclean Hvalid Hin. apply dispatched_In, list_elem_of_In in Hin.
  pose proof (Walk_dispatch_ok srcPath projectFlag ignores fs glob_meta Hclean Hvalid) as H.
  rewrite Forall_forall in H. destruct (H _ Hin) as (-> & _ & _).
  assert (Hlast : List.last (processDIR_args coverFlag projectFlag Args
                               (runMain_projectPath srcPath projectFlag ++ relPath) relPath) []
                  = projectFlag ++ SEPARATOR ++ relPath).
  { unfold processDIR_args.
    change [str "-covermode=" ++ coverFlag; str "-coverprofile=" ++ pkgFilename;
            str "-outputdir=" ++ (runMain_projectPath srcPath projectFlag ++ relPath)
              ++ SEPARATOR;
            projectFlag ++ SEPARATOR ++ relPath]
      with ([str "-covermode=" ++ coverFlag; str "-coverprofile=" ++ pkgFilename;
             str "-outputdir=" ++ (runMain_projectPath srcPath projectFlag ++ relPath)
               ++ SEPARATOR]
            ++ [projectFlag ++ SEPARATOR ++ relPath]).
    rewrite app_assoc. apply last_last. }
  split; [|split; [exact Hlast|]].
  - unfold processDIR_args, processDIR_args_cap. rewrite !length_app. cbn [length]. lia.
  - rewrite Hlast. unfold runMain_projectPath. rewrite <- !app_assoc. reflexivity.
Qed.

(** * [testFiles] as a whole *)

(** X18. [testFiles] under a project path whose base
    [srcPath ++ projectFlag] is left as it is by [filepath.Clean] and has
    an element, on a tree without special cases, when every directory
    that is to be tested passes and the report can be written: from every
    state the run comes to exit status 0, and whenever it has ended, the
    report is the header for the configured mode and the profiles of
    exactly the directories that are to be tested, each once, in the order
    of arrival. *)
Theorem testFiles_reports_all_candidates (coverFlag srcPath projectFlag : gostring)
    (go_test : gostring -> gostring -> exec_result)
    (ignores : gset gostring) (fs : filesystem)
    (glob_meta : gostring -> list gostring * option error) (s : state) :
  clean_base (srcPath ++ projectFlag) = true ->
  plain_fs fs = true ->
  all_pass go_test (discovery (runMain_projectPath srcPath projectFlag) ignores fs) ->
  testFiles_reachable coverFlag go_test true (runMain_projectPath srcPath projectFlag)
    ignores fs glob_meta s ->
  (forall code, st_proc s = Exited code ->
     code = 0 /\
     exists covers,
       Permutation covers
         (profiles go_test (discovery (runMain_projectPath srcPath projectFlag) ignores fs)) /\
       st_file s = Some (testFiles_final coverFlag covers)) /\
  (exists s', rtc (step_any coverFlag go_test true) s s' /\ st_proc s' = Exited 0).
Proof.
  intros Hclean Hplain Hpass Hs.
  unfold testFiles_reachable, testFiles_init in Hs.
  destruct (Walk_spec srcPath projectFlag ignores fs glob_meta Hclean Hplain)
    as (t & HW & Ht).
  rewrite HW in Hs. cbn [fst snd] in Hs. rewrite Ht in Hs.
  exact (all_pass_run coverFlag go_test _ s Hpass Hs).
Qed.

(** * Every order of arrival is possible *)

Lemma pending_In (go_test : gostring -> gostring -> exec_result) (ws : list worker)
    (c : gostring) :
  In c (pending go_test ws) ->
  exists i p r, ws !! i = Some (mkWorker p r AtRun) /\ go_test p r = Profile c.
Proof.
  unfold pending. induction ws as [|[p r pc] ws IH]; cbn [map concat]; [intros []|].
  intros [Hin|Hin]%in_app_or.
  - cbn [w_pc w_fullPath w_relPath] in Hin.
    destruct pc as [|b0| |]; [|destruct Hin..].
    destruct (go_test p r) as [| | |b] eqn:E; [destruct Hin..|].
    destruct Hin as [<-|[]]. exists 0, p, r. split; [reflexivity | exact E].
  - destruct (IH Hin) as (i & p' & r' & Hi & Hgo). exists (S i), p', r'. split; assumption.
Qed.

Lemma pending_finish (go_test : gostring -> gostring -> exec_result) (ws : list worker)
    (i : nat) (p r c : gostring) :
  ws !! i = Some (mkWorker p r AtRun) -> go_test p r = Profile c ->
  Permutation (pending go_test ws) (c :: pending go_test (<[i:=mkWorker p r Finished]> ws)).
Proof.
  unfold pending. revert i. induction ws as [|w ws IH]; intros [|i] Hi Hgo; try discriminate.
  - injection Hi as ->. cbn [map concat insert list_insert w_pc w_fullPath w_relPath].
    rewrite Hgo. reflexivity.
  - cbn in Hi. cbn [map concat insert list_insert].
    rewrite (IH i Hi Hgo). symmetry. apply Permutation_middle.
Qed.

Lemma pending_nil (go_test : gostring -> gostring -> exec_result) (ws : list worker) :
  Forall fresh_or_finished ws ->
  Forall (fun w => is_profile (go_test (w_fullPath w) (w_relPath w)) = true) ws ->
  pending go_test ws = [] -> unfinished ws = 0.
Proof.
  unfold pending. induction ws as [|w ws IH]; intros Hf Hp Hnil; [reflexivity|].
  apply Forall_cons_iff in Hf as [Hw Hf]. apply Forall_cons_iff in Hp as [Hpw Hp].
  cbn [map concat] in Hnil. apply app_eq_nil in Hnil as [Hw0 Hnil].
  cbn [unfinished]. rewrite (IH Hf Hp Hnil).
  destruct Hw as [Hw|Hw]; rewrite Hw in *; [|reflexivity].
  destruct (go_test (w_fullPath w) (w_relPath w)); discriminate.
Qed.

Section Orders.

Variable coverFlag : gostring.
Variable go_test : gostring -> gostring -> exec_result.

Local Abbreviation step' := (step coverFlag go_test true).
Local Abbreviation step_any' := (step_any coverFlag go_test true).

Lemma dispatch_all (todo : list (gostring * gostring)) (fin : outcome (option error))
    (ws : list worker) (wg : nat) :
  rtc step_any' (running (MWalk todo fin) ws wg false)
    (running (MWalk [] fin) (ws ++ map (fun d => mkWorker (fst d) (snd d) AtRun) todo)
       (wg + length todo) false).
Proof.
  revert ws wg. induction todo as [|[p r] todo IH]; intros ws wg.
  - cbn [map length]. rewrite app_nil_r, Nat.add_0_r. apply rtc_refl.
  - eapply rtc_l.
    + exists LMain. exact (step_dispatch _ _ _ (running (MWalk ((p, r) :: todo) fin) ws wg false)
                             p r todo fin eq_refl eq_refl).
    + cbn [running st_workers st_wg st_closed st_file].
      specialize (IH (ws ++ [mkWorker p r AtRun]) (S wg)).
      cbn [map length fst snd]. rewrite <- app_assoc in IH. cbn [app] in IH.
      replace (wg + S (length todo)) with (S wg + length todo) by lia. exact IH.
Qed.

(** One worker runs its command, hands its profile over and signals
    that it is done. *)
Lemma one_worker (ws : list worker) (covers : list gostring) (wg i : nat)
    (p r c : gostring) :
  ws !! i = Some (mkWorker p r AtRun) -> go_test p r = Profile c ->
  rtc step_any' (running (MRange covers) ws wg false)
    (running (MRange (covers ++ [c])) (<[i:=mkWorker p r Finished]> ws) (pred wg) false).
Proof.
  intros Hi Hgo. assert (Hlen : i < length ws) by (apply lookup_lt_Some in Hi; exact Hi).
  eapply rtc_l.
  { exists (LWorker i).
    exact (step_run_ok _ _ _ (running (MRange covers) ws wg false) i p r c eq_refl Hi Hgo). }
  unfold set_worker. cbn [running st_main st_workers st_wg st_closed st_file st_proc].
  eapply rtc_l.
  { exists (LDeliver i).
    refine (step_deliver _ _ _ (running (MRange covers) (<[i:=mkWorker p r (AtSend c)]> ws)
                                  wg false) i p r c covers eq_refl _ eq_refl).
    apply list_lookup_insert_eq. exact Hlen. }
  cbn [running st_main st_workers st_wg st_closed st_file st_proc].
  rewrite list_insert_insert_eq.
  eapply rtc_l.
  { exists (LWorker i).
    refine (step_done _ _ _ (running (MRange (covers ++ [c])) (<[i:=mkWorker p r AtDone]> ws)
                               wg false) i p r eq_refl _).
    apply list_lookup_insert_eq. exact Hlen. }
  cbn [running st_main st_workers st_wg st_closed st_file st_proc].
  rewrite list_insert_insert_eq. apply rtc_refl.
Qed.

Lemma deliver_in_order (cs : list gostring) :
  forall (ws : list worker) (covers : list gostring),
    Forall fresh_or_finished ws ->
    Forall (fun w => is_profile (go_test (w_fullPath w) (w_relPath w)) = true) ws ->
    Permutation cs (pending go_test ws) ->
    exists ws',
      rtc step_any' (running (MRange covers) ws (unfinished ws) false)
        (running (MRange (covers ++ cs)) ws' 0 false).
Proof.
  induction cs as [|c cs IH]; intros ws covers Hf Hp Hperm.
  - apply Permutation_nil in Hperm.
    rewrite (pending_nil go_test ws Hf Hp Hperm), app_nil_r. exists ws. apply rtc_refl.
  - assert (Hin : In c (pending go_test ws)).
    { apply (Permutation_in _ Hperm). left. reflexivity. }
    destruct (pending_In _ _ _ Hin) as (i & p & r & Hi & Hgo).
    pose proof (pending_finish _ _ _ _ _ _ Hi Hgo) as Hpend.
    assert (Hperm' : Permutation cs (pending go_test (<[i:=mkWorker p r Finished]> ws))).
    { apply (Permutation_cons_inv (a := c)). etransitivity; eassumption. }
    destruct (IH (<[i:=mkWorker p r Finished]> ws) (covers ++ [c])) as (ws' & Hrun).
    + apply Forall_insert; [exact Hf | right; reflexivity].
    + apply Forall_insert; [exact Hp|]. cbn [w_fullPath w_relPath]. rewrite Hgo. reflexivity.
    + exact Hperm'.
    + exists ws'. etransitivity; [exact (one_worker ws covers _ i p r c Hi Hgo)|].
      pose proof (unfinished_insert ws i _ (mkWorker p r Finished) Hi) as E.
      cbn [is_finished w_pc] in E.
      replace (pred (unfinished ws)) with (unfinished (<[i:=mkWorker p r Finished]> ws)) by lia.
      rewrite <- app_assoc in Hrun. exact Hrun.
Qed.

End Orders.


(** * A name that cannot be examined *)

Lemma bind_fst {A B} (m : W A) (f : A -> W B) :
  fst (bind m f) = match fst m with
                   | Ret a => fst (f a)
                   | Abort ab => Abort ab
                   end.
Proof. destruct m as [[a|ab] t]; cbn [bind fst]; [destruct (f a)|]; reflexivity. Qed.

Lemma no_meta_tree_spec (e : entry) :
  no_meta_tree e = true ->
  hasMeta (entry_name e) = false /\
  match e with
  | Dir _ _ ch => forallb no_meta_tree ch = true
  | _ => True
  end.
Proof.
  destruct e as [n|n r ch|n]; cbn [no_meta_tree entry_name];
    intros [H1 H2]%andb_true_iff; apply negb_true_iff in H1; (split; [exact H1|]);
    [exact I | exact H2 | exact I].
Qed.

Section WalkResult.

Variables srcPath projectFlag : gostring.
Variable ignores : gset gostring.
Variable fs : filesystem.
Variable glob_meta : gostring -> list gostring * option error.

Hypothesis clean_project : clean_base (srcPath ++ projectFlag) = true.

Local Abbreviation pp := (runMain_projectPath srcPath projectFlag).
Local Abbreviation walk' := (walk pp ignores fs glob_meta).
Local Abbreviation rel_ok := (rel_ok pp).
Local Abbreviation walk_result_spec := (walk_result_spec pp ignores fs glob_meta).

Lemma walk_children_result (rel : gostring) (es : list entry) :
  Forall walk_result_spec es ->
  forallb no_meta_tree es = true -> forallb valid_tree es = true ->
  rel_ok rel ->
  fst (walk_children pp ignores fs glob_meta walk' (pp ++ rel) es)
  = if existsb (fun c => meets_nostat ignores (child_rel rel (entry_name c)) c) es
    then Abort NilDereference
    else Ret None.
Proof.
  intros IH Hmeta Hvalid Hrel.
  induction es as [|c es IHes]; [reflexivity|].
  inversion IH as [|? ? IHc IH']; subst.
  cbn [forallb] in Hmeta, Hvalid.
  apply andb_true_iff in Hmeta as [Hmc Hmes]. apply andb_true_iff in Hvalid as [Hvc Hves].
  specialize (IHes IH' Hmes Hves).
  pose proof (valid_tree_spec _ Hvc) as [Hname _].
  pose proof (no_meta_tree_spec _ Hmc) as [Hnm _].
  destruct (rel_ok_child srcPath projectFlag clean_project rel _ Hrel Hname Hnm)
    as [HJ Hrel'].
  assert (Hne : child_rel rel (entry_name c) <> []).
  { apply child_rel_nonempty. apply valid_name_spec in Hname. tauto. }
  specialize (IHc Hmc Hvc _ Hne Hrel').
  cbn [walk_children existsb]. rewrite HJ.
  destruct c as [n|n r ch|n].
  - rewrite bind_fst.
    destruct (meets_nostat ignores (child_rel rel (entry_name (File n))) (File n));
      [discriminate|].
    destruct IHc as (o & -> & [->|(_ & n' & r' & ch' & Hc)]); [|discriminate].
    rewrite bool_decide_eq_true_2 by reflexivity. cbn [negb orb]. exact IHes.
  - rewrite bind_fst.
    destruct (meets_nostat ignores (child_rel rel (entry_name (Dir n r ch))) (Dir n r ch)).
    + rewrite IHc. reflexivity.
    + destruct IHc as (o & -> & Ho). cbn [orb].
      assert (Hcond : negb (bool_decide (o = None)) && negb (bool_decide (o = Some SkipDir))
                      = false).
      { destruct Ho as [->|[-> _]].
        - rewrite bool_decide_eq_true_2 by reflexivity. reflexivity.
        - rewrite (bool_decide_eq_true_2 (Some SkipDir = Some SkipDir)) by reflexivity.
          apply andb_false_r. }
      rewrite Hcond. exact IHes.
  - reflexivity.
Qed.

Lemma walk_result_all (e : entry) : walk_result_spec e.
Proof.
  induction e as [n|n|n r ch IH] using entry_ind2; intros Hmeta Hvalid rel Hne Hrel.
  - exists None. split; [reflexivity | left; reflexivity].
  - reflexivity.
  - destruct (no_meta_tree_spec _ Hmeta) as [_ Hmch].
    apply valid_tree_spec in Hvalid as [_ Hvch]. cbn [valid_children] in Hvch.
    pose proof Hrel as (_ & Hm & _).
    cbn [walk meets_nostat]. rewrite bind_fst, walker_dir_below by assumption.
    destruct (decide (rel ∈ ignores)) as [Hin|Hnin].
    { rewrite ?decide_True by exact Hin. cbn [fst]. rewrite orb_true_r.
      exists (Some SkipDir). split; [reflexivity|]. right. split; [reflexivity|]. eauto. }
    rewrite ?decide_False by exact Hnin. cbn [fst].
    destruct r; cbn [andb].
    + rewrite bool_decide_eq_true_2 by reflexivity. cbn [negb orb].
      rewrite (walk_children_result rel ch IH Hmch Hvch Hrel).
      destruct (existsb _ ch); [reflexivity|].
      exists None. split; [reflexivity | left; reflexivity].
    + exists None. split; [reflexivity | left; reflexivity].
Qed.

Lemma Walk_result :
  forallb no_meta_tree (proj_tree fs) = true ->
  forallb valid_tree (proj_tree fs) = true ->
  fst (Walk pp ignores fs glob_meta)
  = if Walk_meets_nostat ignores fs then Abort NilDereference else Ret None.
Proof.
  intros Hmeta Hvalid. unfold Walk, Walk_meets_nostat.
  rewrite bind_fst. cbn [walk]. rewrite bind_fst, walker_dir_root.
  destruct (bool_decide ([] ∈ ignores)) eqn:E.
  { apply bool_decide_eq_true in E. rewrite ?decide_True by exact E.
    cbn [fst negb andb]. rewrite orb_true_r. cbn [fst ret].
    rewrite (bool_decide_eq_true_2 (Some SkipDir = Some SkipDir)) by reflexivity.
    reflexivity. }
  apply bool_decide_eq_false in E. rewrite ?decide_False by exact E.
  cbn [fst negb andb].
  destruct (proj_readable fs).
  - rewrite (bool_decide_eq_true_2 (None = None)) by reflexivity. cbn [negb orb andb].
    assert (Hroot : rel_ok []) by (split; [left; reflexivity | split; reflexivity]).
    pose proof (walk_children_result [] (proj_tree fs)) as H.
    rewrite app_nil_r in H. rewrite H; [|apply Forall_forall; intros e _; apply walk_result_all
                                        |assumption..].
    cbn [child_rel]. destruct (existsb _ (proj_tree fs)); [reflexivity|].
    cbn [fst ret]. rewrite bool_decide_eq_false_2 by discriminate. reflexivity.
  - cbn [fst ret andb]. rewrite bool_decide_eq_false_2 by discriminate. reflexivity.
Qed.

End WalkResult.

(** X20. [lstat] can fail on a name of a listing (a file that vanishes
    during the walk). Under a project path whose base
    [srcPath ++ projectFlag] is left as it is by [filepath.Clean] and has
    an element, on a tree with the names of a directory listing and
    without pattern characters in them, the walk panics exactly when it
    comes to such a name under directories that are not ignored and can
    be listed, and returns nil otherwise; when it panics, no run of
    [testFiles] writes a report or ends with exit status 0. *)
Theorem Walk_panics_on_lstat_failure (coverFlag srcPath projectFlag : gostring)
    (go_test : gostring -> gostring -> exec_result) (write_ok : bool)
    (ignores : gset gostring) (fs : filesystem)
    (glob_meta : gostring -> list gostring * option error) :
  clean_base (srcPath ++ projectFlag) = true ->
  forallb no_meta_tree (proj_tree fs) = true ->
  forallb valid_tree (proj_tree fs) = true ->
  fst (Walk (runMain_projectPath srcPath projectFlag) ignores fs glob_meta)
  = (if Walk_meets_nostat ignores fs then Abort NilDereference else Ret None) /\
  (Walk_meets_nostat ignores fs = true ->
   forall s,
     testFiles_reachable coverFlag go_test write_ok
       (runMain_projectPath srcPath projectFlag) ignores fs glob_meta s ->
     st_file s = None /\ st_proc s <> Exited 0).
Proof.
  intros Hclean Hmeta Hvalid.
  pose proof (Walk_result srcPath projectFlag ignores fs glob_meta Hclean Hmeta Hvalid) as HW.
  split; [exact HW|]. intros Hmeets s Hs. rewrite Hmeets in HW.
  unfold testFiles_reachable, testFiles_init in Hs. rewrite HW in Hs.
  apply (inv_reachable coverFlag go_test write_ok) in Hs as (_ & _ & _ & Hmain).
  destruct (st_main s) as [todo fin|covers|].
  - destruct Hmain as (_ & _ & _ & Hf & Hp & _). split; assumption.
  - destruct Hmain as (_ & Hfin & _). discriminate.
  - destruct Hmain as (_ & Hfin & _). discriminate.
Qed.

(** * Examples *)

Example parseFlags_examples :
  parseFlags (gopath_of ex_GOPATH) ex_flags
  = (str "| proj" ++ [nl],
     Continue (str "proj", parseFlags_ignores defaultIgnores)) /\
  snd (parseFlags (gopath_of []) ex_flags) = OsExit 1 /\
  snd (parseFlags (gopath_of ex_GOPATH)
         (Flags.mk (str "a/..") (str "count") defaultIgnores false false [])) = OsExit 1 /\
  snd (parseFlags (gopath_of ex_GOPATH)
         (Flags.mk (str "proj") (str "Count") defaultIgnores false false [])) = OsExit 1 /\
  snd (parseFlags (gopath_of [])
         (Flags.mk [] (str "nothing") defaultIgnores false true [])) = OsExit 0.
Proof. repeat split; vm_compute; reflexivity. Qed.

Example discovery_scenario :
  plain_fs fs_scenario = true /\
  discovery ex_projectPath (parseFlags_ignores defaultIgnores) fs_scenario
  = [(str "/go/src/proj/A", str "A"); (str "/go/src/proj/B/C", str "B/C")] /\
  discovery ex_projectPath (parseFlags_ignores (str ".git")) fs_scenario
  = [(str "/go/src/proj/A", str "A"); (str "/go/src/proj/B/C", str "B/C");
     (str "/go/src/proj/vendor", str "vendor");
     (str "/go/src/proj/vendor/dep", str "vendor/dep")].
Proof. repeat split; vm_compute; reflexivity. Qed.

Example scanOutput_examples :
  scanOutput (str "ok" ++ [cr; nl; nl] ++ str "PASS") None = [str "ok"; []; str "PASS"] /\
  scanOutput (str "ok" ++ [nl]) (Some (str "read |0: file already closed"))
  = [str "ok"; str "Scan error: read |0: file already closed"] /\
  scanOutput [] None = [].
Proof. repeat split; vm_compute; reflexivity. Qed.

Lemma runMain_starts_on_clean_path_witness :
  clean_base (srcPath_of (gopath_of ex_GOPATH) ++ Clean (Flags.projectFlag ex_flags)) = true /\
  Chdir_ok (runMain_projectPath (srcPath_of (gopath_of ex_GOPATH))
              (Clean (Flags.projectFlag ex_flags))) = true /\
  testFiles_init ex_projectPath (parseFlags_ignores defaultIgnores) fs_scenario no_meta
  = testFiles_init
      (runMain_projectPath (srcPath_of (gopath_of ex_GOPATH))
         (Clean (Flags.projectFlag ex_flags)))
      (parseFlags_ignores (Flags.ignoreFlag ex_flags)) fs_scenario no_meta.
Proof.
  apply (runMain_starts_on_clean_path ex_GOPATH ex_flags Chdir_ok None fs_scenario no_meta
           (parseFlags_printed ex_GOPATH ex_flags)).
  - vm_compute. reflexivity.
  - reflexivity.
  - vm_compute. discriminate.
  - reflexivity.
  - vm_compute. discriminate.
Defined.

Lemma Walk_dispatches_candidates_witness :
  fst (Walk (runMain_projectPath ex_srcPath ex_project) (parseFlags_ignores defaultIgnores)
         fs_scenario no_meta) = Ret None /\
  dispatched (snd (Walk (runMain_projectPath ex_srcPath ex_project)
                     (parseFlags_ignores defaultIgnores) fs_scenario no_meta))
  = discovery (runMain_projectPath ex_srcPath ex_project)
      (parseFlags_ignores defaultIgnores) fs_scenario.
Proof.
  apply Walk_dispatches_candidates.
  - vm_compute. reflexivity.
  - vm_compute. reflexivity.
Defined.


Lemma unclean_ignore_entry_has_no_effect_witness :
  Walk (runMain_projectPath ex_srcPath ex_project)
    ({[ str "vendor/" ]} ∪ parseFlags_ignores (str ".git")) fs_scenario no_meta
  = Walk (runMain_projectPath ex_srcPath ex_project)
      (parseFlags_ignores (str ".git")) fs_scenario no_meta.
Proof.
  apply unclean_ignore_entry_has_no_effect.
  - vm_compute. reflexivity.
  - vm_compute. reflexivity.
  - discriminate.
  - vm_compute. reflexivity.
Defined.


Lemma runs_are_bounded_witness : 1 <= 4 * length todo_two + 3.
Proof.
  apply (runs_are_bounded (str "count") go_test_ok true todo_two (Ret None) 1
           (mkState (MWalk [(str "/go/src/proj/B", str "B")] (Ret None))
              [mkWorker (str "/go/src/proj/A") (str "A") AtRun] 1 false None Running)).
  eapply nsteps_l; [|apply nsteps_O]. exists LMain.
  exact (step_dispatch _ _ _ (init todo_two (Ret None)) _ _ _ _ eq_refl eq_refl).
Defined.

Lemma every_run_can_end_witness :
  (exists s', rtc (step_any (str "count") go_test_ok true) st_sender_waits s' /\
              exists code, st_proc s' = Exited code) /\
  (forall l s', step (str "count") go_test_ok true l st_sender_waits s' ->
                measure s' < measure st_sender_waits).
Proof.
  apply (every_run_can_end (str "count") go_test_ok true todo_two (Ret None)).
  unfold reachable. eapply rtc_l.
  - exists LMain.
    exact (step_dispatch _ _ _ (init todo_two (Ret None)) _ _ _ _ eq_refl eq_refl).
  - apply rtc_once. exists (LWorker 0).
    exact (step_run_ok _ go_test_ok _
             (mkState (MWalk [(str "/go/src/proj/B", str "B")] (Ret None))
                [mkWorker (str "/go/src/proj/A") (str "A") AtRun] 1 false None Running)
             0 _ _ profile_b eq_refl eq_refl eq_refl).
Defined.

Lemma exit_status_meaning_witness :
  (1 = 0 <-> st_file st_failed <> None) /\
  ((exists e : error, Ret (@None error) = Ret (Some e)) \/
   Ret (@None error) = Abort OsExit1 \/
   (exists d, In d [(str "/go/src/proj/A", str "A")] /\
              is_profile (go_test_fails (fst d) (snd d)) = false) \/
   true = false).
Proof.
  apply (exit_status_meaning (str "count") go_test_fails true
           [(str "/go/src/proj/A", str "A")] (Ret None) st_failed 1).
  - unfold reachable. eapply rtc_l.
    + exists LMain.
      exact (step_dispatch _ _ _ (init [(str "/go/src/proj/A", str "A")] (Ret None))
               _ _ _ _ eq_refl eq_refl).
    + apply rtc_once. exists (LWorker 0).
      exact (step_run_fatal _ go_test_fails _ st_one_dispatched 0 _ _
               eq_refl eq_refl eq_refl).
  - reflexivity.
Defined.

Lemma all_pass_report_witness :
  (forall code, st_proc (init todo_two (Ret None)) = Exited code ->
     code = 0 /\
     exists covers,
       Permutation covers (profiles go_test_ok todo_two) /\
       st_file (init todo_two (Ret None)) = Some (testFiles_final (str "count") covers)) /\
  (exists s', rtc (step_any (str "count") go_test_ok true) (init todo_two (Ret None)) s' /\
              st_proc s' = Exited 0).
Proof.
  apply (all_pass_report (str "count") go_test_ok todo_two).
  - repeat constructor.
  - apply rtc_refl.
Defined.

Lemma scanOutput_logs_every_line_witness :
  scanOutput (data_bytes [str "ok  proj/A 0.1s"; str "PASS" ++ [cr]] ++ str "tail") None
  = map dropCR [str "ok  proj/A 0.1s"; str "PASS" ++ [cr]]
    ++ [dropCR (str "tail")] ++ [].
Proof.
  apply (scanOutput_logs_every_line [str "ok  proj/A 0.1s"; str "PASS" ++ [cr]]
           (str "tail") None).
  - vm_compute. reflexivity.
  - vm_compute. reflexivity.
Defined.

Lemma repeat_no_nl (n : nat) : existsb (Ascii.eqb nl) (repeat "a"%char n) = false.
Proof. induction n as [|n IH]; [reflexivity | exact IH]. Qed.

Lemma scanOutput_stops_at_long_line_witness :
  scanOutput (data_bytes [str "ok"] ++ long_line ++ nl :: str "FAIL" ++ [nl]) None
  = map dropCR [str "ok"] ++ [str "Scan error: bufio.Scanner: token too long"].
Proof.
  apply (scanOutput_stops_at_long_line [str "ok"] long_line (nl :: str "FAIL" ++ [nl]) None).
  - vm_compute. reflexivity.
  - apply repeat_no_nl.
  - apply repeat_length.
Defined.

Lemma merge_of_merged_report_witness :
  testFiles_final (str "count")
    (testFiles_final (str "set") (map render [art_a]) :: [profile_b])
  = testFiles_final (str "count") (map render [art_a] ++ [profile_b]).
Proof.
  apply merge_of_merged_report.
  - vm_compute. reflexivity.
  - vm_compute. reflexivity.
Defined.

Lemma processDIR_command_witness :
  length (processDIR_args (str "count") ex_project [str "-v"]
            (str "/go/src/proj/A") (str "A"))
  = processDIR_args_cap [str "-v"] /\
  List.last (processDIR_args (str "count") ex_project [str "-v"]
               (str "/go/src/proj/A") (str "A")) []
  = ex_project ++ SEPARATOR ++ str "A" /\
  ex_srcPath ++ List.last (processDIR_args (str "count") ex_project [str "-v"]
                             (str "/go/src/proj/A") (str "A")) []
  = str "/go/src/proj/A".
Proof.
  apply (processDIR_command ex_srcPath ex_project (str "count") [str "-v"]
           (parseFlags_ignores defaultIgnores) fs_scenario no_meta).
  - vm_compute. reflexivity.
  - vm_compute. reflexivity.
  - vm_compute. left. reflexivity.
Defined.

Lemma testFiles_reports_all_candidates_witness :
  (forall code,
     st_proc (testFiles_init (runMain_projectPath ex_srcPath ex_project)
                (parseFlags_ignores defaultIgnores) fs_scenario no_meta) = Exited code ->
     code = 0 /\
     exists covers,
       Permutation covers
         (profiles go_test_by_dir
            (discovery (runMain_projectPath ex_srcPath ex_project)
               (parseFlags_ignores defaultIgnores) fs_scenario)) /\
       st_file (testFiles_init (runMain_projectPath ex_srcPath ex_project)
                  (parseFlags_ignores defaultIgnores) fs_scenario no_meta)
       = Some (testFiles_final (str "count") covers)) /\
  (exists s', rtc (step_any (str "count") go_test_by_dir true)
                (testFiles_init (runMain_projectPath ex_srcPath ex_project)
                   (parseFlags_ignores defaultIgnores) fs_scenario no_meta) s' /\
              st_proc s' = Exited 0).
Proof.
  apply (testFiles_reports_all_candidates (str "count") ex_srcPath ex_project go_test_by_dir
           (parseFlags_ignores defaultIgnores) fs_scenario no_meta).
  - vm_compute. reflexivity.
  - vm_compute. reflexivity.
  - vm_compute. repeat constructor.
  - apply rtc_refl.
Defined.


Lemma Walk_panics_on_lstat_failure_witness :
  fst (Walk (runMain_projectPath ex_srcPath ex_project) (parseFlags_ignores defaultIgnores)
         fs_vanishing no_meta)
  = (if Walk_meets_nostat (parseFlags_ignores defaultIgnores) fs_vanishing
     then Abort NilDereference else Ret None) /\
  (Walk_meets_nostat (parseFlags_ignores defaultIgnores) fs_vanishing = true ->
   forall s,
     testFiles_reachable (str "count") go_test_ok true
       (runMain_projectPath ex_srcPath ex_project) (parseFlags_ignores defaultIgnores)
       fs_vanishing no_meta s ->
     st_file s = None /\ st_proc s <> Exited 0).
Proof.
  apply Walk_panics_on_lstat_failure.
  - vm_compute. reflexivity.
  - vm_compute. reflexivity.
  - vm_compute. reflexivity.
Defined.

Example Walk_vanishing :
  Walk_meets_nostat (parseFlags_ignores defaultIgnores) fs_vanishing = true /\
  Walk ex_projectPath (parseFlags_ignores defaultIgnores) fs_vanishing no_meta
  = (Abort NilDereference,
     [EvWalker (str "/go/src/proj/");
      EvWalker (str "/go/src/proj/A"); EvDispatch (str "/go/src/proj/A") (str "A");
      EvWalker (str "/go/src/proj/A/foo_test.go");
      EvWalker (str "/go/src/proj/B"); EvDispatch (str "/go/src/proj/B") (str "B");
      EvWalker (str "/go/src/proj/B/tmp123")]).
Proof. split; vm_compute; reflexivity. Qed.
